(** * mr-conflict-checker: a shallow embedding of the scanning pipeline

    The development follows the Go packages of the repository:
    [internal/models] (statuses, repositories, merge requests, the report),
    [gitlab] (the paginated client), [scanner] (whitelist and first
    classification) and [analyzer] (second classification, filter and sort,
    the map of conflicting merge requests).

    Go's [int] is a 64-bit two's-complement integer: it is a [Z] and every
    addition of the source is followed by [wrap64].  Slices are lists, Go
    maps are [gmap]s, a [nil] error is [None]. *)

From stdpp Require Import base numbers option list strings pretty gmap.

Local Open Scope Z_scope.

(** ** Machine integers *)

Definition min_int : Z := - 2 ^ 63.
Definition max_int : Z := 2 ^ 63 - 1.

(** The value an [int] holds after an arithmetic operation whose exact
    result is [z]. *)
Definition wrap64 (z : Z) : Z := (z + 2 ^ 63) `mod` 2 ^ 64 - 2 ^ 63.

(** [len(s)] of a slice, as an [int]. *)
Definition len {A} (s : list A) : Z := Z.of_nat (length s).

(** ** internal/models *)

(** [type RepositoryStatus int]: any [int] is a status, four are named. *)
Definition RepositoryStatus := Z.

Definition StatusAccessible : RepositoryStatus := 0.
Definition StatusError : RepositoryStatus := 1.
Definition StatusNoMRs : RepositoryStatus := 2.
Definition StatusConflicts : RepositoryStatus := 3.

Definition IsError (rs : RepositoryStatus) : bool := bool_decide (rs = StatusError).
Definition HasConflicts (rs : RepositoryStatus) : bool := bool_decide (rs = StatusConflicts).

(** A Go [error] is represented by its message; [nil] is [None]. *)
Definition error := string.

Record Namespace := mkNamespace {
  ns_ID : Z;
  ns_Name : string;
  ns_Path : string
}.

Record Repository := mkRepository {
  repo_ID : Z;
  repo_Name : string;
  repo_WebURL : string;
  repo_Namespace : Namespace;
  repo_Status : RepositoryStatus;
  repo_Error : option error
}.

Record Author := mkAuthor {
  au_Name : string;
  au_Username : string;
  au_Email : string
}.

(** [CreatedAt] is a [time.Time]; [After] and [Before] compare instants, so
    the field is the instant, in nanoseconds. *)
Record MergeRequest := mkMergeRequest {
  mr_ID : Z;
  mr_Title : string;
  mr_Author : Author;
  mr_WebURL : string;
  mr_SourceBranch : string;
  mr_TargetBranch : string;
  mr_HasConflicts : bool;
  mr_CreatedAt : Z;
  mr_MergeStatus : string;
  mr_ChangesCount : string
}.

Record RepositoryReport := mkRepositoryReport {
  rr_Repository : Repository;
  rr_ConflictingMRs : list MergeRequest;
  rr_Status : RepositoryStatus;
  rr_ErrorMessage : string
}.

Record Report := mkReport {
  Timestamp : string;
  TotalRepositories : Z;
  RepositoriesWithConflicts : Z;
  TotalConflictingMRs : Z;
  Repositories : list RepositoryReport
}.

(** [func (r *Report) AddRepository(...)]: the receiver is mutated in place,
    here the new report is returned. *)
Definition AddRepository (r : Report) (repo : Repository)
    (conflictingMRs : list MergeRequest) (status : RepositoryStatus)
    (errorMsg : string) : Report :=
  let repoReport := mkRepositoryReport repo conflictingMRs status errorMsg in
  let repositories := Repositories r ++ [repoReport] in
  let total := wrap64 (TotalRepositories r + 1) in
  if bool_decide (status = StatusConflicts) then
    mkReport (Timestamp r) total
      (wrap64 (RepositoriesWithConflicts r + 1))
      (wrap64 (TotalConflictingMRs r + len conflictingMRs))
      repositories
  else
    mkReport (Timestamp r) total
      (RepositoriesWithConflicts r) (TotalConflictingMRs r) repositories.

Definition GetSummaryStats (r : Report) : Z * Z * Z :=
  (TotalRepositories r, RepositoriesWithConflicts r, TotalConflictingMRs r).

(** The report before any call: [&Report{}], or the one [buildReport]
    starts from, which only sets the timestamp. *)
Definition emptyReport (ts : string) : Report := mkReport ts 0 0 0 [].

(** One call of [AddRepository], as its four arguments. *)
Record AddCall := mkAddCall {
  call_repo : Repository;
  call_mrs : list MergeRequest;
  call_status : RepositoryStatus;
  call_errorMsg : string
}.

Definition applyCall (r : Report) (c : AddCall) : Report :=
  AddRepository r (call_repo c) (call_mrs c) (call_status c) (call_errorMsg c).

Definition AddRepositories (r : Report) (calls : list AddCall) : Report :=
  foldl applyCall r calls.

(** The three quantities the counters are meant to track, read off the
    entries. *)
Definition conflictEntries (es : list RepositoryReport) : list RepositoryReport :=
  filter (λ e, rr_Status e = StatusConflicts) es.

Definition countEntries (es : list RepositoryReport) : Z := len es.
Definition countConflictEntries (es : list RepositoryReport) : Z :=
  len (conflictEntries es).
Definition sumConflictingMRs (es : list RepositoryReport) : Z :=
  foldr (λ e acc, len (rr_ConflictingMRs e) + acc) 0 (conflictEntries es).

(** ** Go's package sort: [sort.Slice]

    The analyzer sorts with [sort.Slice] of the Go standard library (the
    repository asks for Go 1.23.1 or later), which runs the pattern-defeating
    quicksort [pdqsort_func] of [sort/zsortfunc.go] through the two closures
    [Less] and [Swap].  The functions below follow that file one by one.

    Indices are Go [int]s that stay between [0] and [len(data)]; they are
    [nat] here.  [None] is the absence of a result: an index out of range
    (a Go panic) or a loop that needs more than the fuel it was given. *)

Module sort.

Inductive sortedHint := unknownHint | increasingHint | decreasingHint.

Global Instance sortedHint_eq_dec : EqDecision sortedHint.
Proof. solve_decision. Defined.

Definition maxInsertion : nat := 12.
Definition shortestNinther : nat := 50.
Definition maxSwaps : nat := 4 * 3.
Definition maxSteps : nat := 5.
Definition shortestShifting : nat := 50.

(** [bits.Len(uint(n))]: the number of bits needed to write [n]. *)
Definition bits_Len (n : nat) : nat := N.size_nat (N.of_nat n).

(** [nextPowerOfTwo]: [1 << bits.Len(uint(length))]. *)
Definition nextPowerOfTwo (length : nat) : Z := Z.shiftl 1 (Z.of_nat (bits_Len length)).

(** [func (r *xorshift) Next() uint64], on a 64-bit unsigned state, with
    the shifts by 13, 7 and 17 of the current releases of Go (earlier ones
    shift by 13, 17 and 5).  The numbers it yields only choose which
    elements [breakPatterns_func] swaps; what is proved of the sort holds
    whatever they are. *)
Definition xorshift_Next (r : Z) : Z :=
  let r := Z.lxor r (Z.shiftl r 13 `mod` 2 ^ 64) in
  let r := Z.lxor r (Z.shiftr r 7) in
  let r := Z.lxor r (Z.shiftl r 17 `mod` 2 ^ 64) in
  r.

(** [for i := lo; i < lo + n; i++ { s = body(i, s) }] *)
Fixpoint for_up {S : Type} (n : nat) (i : nat) (body : nat → S → option S) (s : S)
    : option S :=
  match n with
  | O => Some s
  | Datatypes.S n' => s' ← body i s; for_up n' (Datatypes.S i) body s'
  end.

(** [for i := n - 1; i >= 0; i-- { s = body(i, s) }] *)
Fixpoint for_down {S : Type} (n : nat) (body : nat → S → option S) (s : S) : option S :=
  match n with
  | O => Some s
  | Datatypes.S n' => s' ← body n' s; for_down n' body s'
  end.

(** [for n > 0 && p(i) { i++; n-- }]: the scans [for i <= j && p(i) { i++ }]
    with [n] the number of indices from [i] to [j]. *)
Fixpoint skip_up (n : nat) (p : nat → option bool) (i : nat) : option nat :=
  match n with
  | O => Some i
  | S n' => c ← p i; if c : bool then skip_up n' p (S i) else Some i
  end.

(** [for n > 0 && p(j) { j--; n-- }] *)
Fixpoint skip_down (n : nat) (p : nat → option bool) (j : nat) : option nat :=
  match n with
  | O => Some j
  | S n' => c ← p j; if c : bool then skip_down n' p (j - 1)%nat else Some j
  end.

Section lessSwap.
Context {A : Type} (less : A → A → bool).

(** The closure [less(i, j)] given to [sort.Slice] reads [data[i]] and
    [data[j]]. *)
Definition Less (data : list A) (i j : nat) : option bool :=
  x ← data !! i; y ← data !! j; Some (less x y).

(** [reflectlite.Swapper]: [data[i], data[j] = data[j], data[i]]. *)
Definition Swap (data : list A) (i j : nat) : option (list A) :=
  x ← data !! i; y ← data !! j; Some (<[i:=y]> (<[j:=x]> data)).

(** [for j := i; j > a && data.Less(j, j-1); j-- { data.Swap(j, j-1) }] *)
Fixpoint insertionSort_shift (data : list A) (a j : nat) : option (list A) :=
  match j with
  | O => Some data
  | S j' =>
    if decide (a < S j')%nat then
      lt ← Less data (S j') j';
      if lt : bool then data ← Swap data (S j') j'; insertionSort_shift data a j'
      else Some data
    else Some data
  end.

Definition insertionSort_func (data : list A) (a b : nat) : option (list A) :=
  for_up (b - (a + 1)) (a + 1) (λ i data, insertionSort_shift data a i) data.

(** [siftDown_func]; the loop variable [root] starts at [lo]. *)
Fixpoint siftDown_func (fuel : nat) (data : list A) (root hi first : nat)
    : option (list A) :=
  match fuel with
  | O => None
  | S fuel' =>
    let child := (2 * root + 1)%nat in
    if decide (hi ≤ child)%nat then Some data
    else
      child ← (if decide (child + 1 < hi)%nat then
                 lt ← Less data (first + child) (first + child + 1);
                 Some (if lt : bool then (child + 1)%nat else child)
               else Some child);
      lt ← Less data (first + root) (first + child);
      if negb lt then Some data
      else
        data ← Swap data (first + root) (first + child);
        siftDown_func fuel' data child hi first
  end.

Definition heapSort_func (data : list A) (a b : nat) : option (list A) :=
  let first := a in
  let lo := 0%nat in
  let hi := (b - a)%nat in
  data ← for_down ((hi - 1) / 2 + 1)
           (λ i data, siftDown_func (S hi) data i hi first) data;
  for_down hi
    (λ i data, data ← Swap data first (first + i);
               siftDown_func (S hi) data lo i first) data.

(** [order2_func]: the two indices in order, and the swap counter. *)
Definition order2_func (data : list A) (a b swaps : nat) : option (nat * nat * nat) :=
  lt ← Less data b a;
  Some (if lt : bool then (b, a, S swaps) else (a, b, swaps)).

Definition median_func (data : list A) (a b c swaps : nat) : option (nat * nat) :=
  '(a, b, swaps) ← order2_func data a b swaps;
  '(b, c, swaps) ← order2_func data b c swaps;
  '(a, b, swaps) ← order2_func data a b swaps;
  Some (b, swaps).

Definition medianAdjacent_func (data : list A) (a swaps : nat) : option (nat * nat) :=
  median_func data (a - 1) a (a + 1) swaps.

Definition choosePivot_func (data : list A) (a b : nat) : option (nat * sortedHint) :=
  let l := (b - a)%nat in
  let swaps := 0%nat in
  let i := (a + l / 4 * 1)%nat in
  let j := (a + l / 4 * 2)%nat in
  let k := (a + l / 4 * 3)%nat in
  '(j, swaps) ←
    (if decide (8 ≤ l)%nat then
       '(i, j, k, swaps) ←
         (if decide (shortestNinther ≤ l)%nat then
            '(i, swaps) ← medianAdjacent_func data i swaps;
            '(j, swaps) ← medianAdjacent_func data j swaps;
            '(k, swaps) ← medianAdjacent_func data k swaps;
            Some (i, j, k, swaps)
          else Some (i, j, k, swaps));
       median_func data i j k swaps
     else Some (j, swaps));
  Some (if decide (swaps = 0)%nat then (j, increasingHint)
        else if decide (swaps = maxSwaps) then (j, decreasingHint)
        else (j, unknownHint)).

(** [reverseRange_func]: [fuel] bounds the number of swaps. *)
Fixpoint reverseRange_loop (fuel : nat) (data : list A) (i j : nat) : option (list A) :=
  match fuel with
  | O => None
  | S fuel' =>
    if decide (i < j)%nat then
      data ← Swap data i j; reverseRange_loop fuel' data (i + 1) (j - 1)
    else Some data
  end.

Definition reverseRange_func (data : list A) (a b : nat) : option (list A) :=
  reverseRange_loop (S (b - a)) data a (b - 1).

Definition breakPatterns_func (data : list A) (a b : nat) : option (list A) :=
  let length := (b - a)%nat in
  if decide (8 ≤ length)%nat then
    let random := Z.of_nat length in
    let modulus := nextPowerOfTwo length in
    let idx := (a + length / 4 * 2 - 1)%nat in
    snd <$> for_up 3 0
      (λ i '(random, data),
         let random := xorshift_Next random in
         let other := Z.to_nat (Z.land random (modulus - 1)) in
         let other := if decide (length ≤ other)%nat then (other - length)%nat else other in
         data ← Swap data (idx + i) (a + other);
         Some (random, data))
      (random, data)
  else Some data.

(** The outer loop of [partialInsertionSort_func] and its two shifts. *)
Fixpoint shift_left (data : list A) (j : nat) : option (list A) :=
  match j with
  | O => Some data
  | S j' =>
    lt ← Less data (S j') j';
    if lt : bool then data ← Swap data (S j') j'; shift_left data j' else Some data
  end.

Fixpoint shift_right (n : nat) (data : list A) (j : nat) : option (list A) :=
  match n with
  | O => Some data
  | S n' =>
    lt ← Less data j (j - 1);
    if lt : bool then data ← Swap data j (j - 1); shift_right n' data (S j)
    else Some data
  end.

Fixpoint partialInsertionSort_loop (steps : nat) (data : list A) (a b i : nat)
    : option (list A * bool) :=
  match steps with
  | O => Some (data, false)
  | S steps' =>
    i ← skip_up (b - i) (λ i, negb <$> Less data i (i - 1)) i;
    if decide (i = b) then Some (data, true)
    else if decide (b - a < shortestShifting)%nat then Some (data, false)
    else
      data ← Swap data i (i - 1);
      data ← (if decide (2 ≤ i - a)%nat then shift_left data (i - 1) else Some data);
      data ← (if decide (2 ≤ b - i)%nat then shift_right (b - (i + 1)) data (i + 1)
              else Some data);
      partialInsertionSort_loop steps' data a b i
  end.

Definition partialInsertionSort_func (data : list A) (a b : nat)
    : option (list A * bool) :=
  partialInsertionSort_loop maxSteps data a b (a + 1).

(** [partitionEqual_func] *)
Fixpoint partitionEqual_loop (fuel : nat) (data : list A) (a i j : nat)
    : option (list A * nat) :=
  match fuel with
  | O => None
  | S fuel' =>
    i ← skip_up (j + 1 - i) (λ i, negb <$> Less data a i) i;
    j ← skip_down (j + 1 - i) (λ j, Less data a j) j;
    if decide (j < i)%nat then Some (data, i)
    else
      data ← Swap data i j;
      partitionEqual_loop fuel' data a (i + 1) (j - 1)
  end.

Definition partitionEqual_func (data : list A) (a b pivot : nat)
    : option (list A * nat) :=
  data ← Swap data a pivot;
  partitionEqual_loop (S (b - a)) data a (a + 1) (b - 1).

(** [partition_func] *)
Fixpoint partition_loop (fuel : nat) (data : list A) (a i j : nat)
    : option (list A * nat) :=
  match fuel with
  | O => None
  | S fuel' =>
    i ← skip_up (j + 1 - i) (λ i, Less data i a) i;
    j ← skip_down (j + 1 - i) (λ j, negb <$> Less data j a) j;
    if decide (j < i)%nat then Some (data, j)
    else
      data ← Swap data i j;
      partition_loop fuel' data a (i + 1) (j - 1)
  end.

Definition partition_func (data : list A) (a b pivot : nat)
    : option (list A * nat * bool) :=
  data ← Swap data a pivot;
  let i := (a + 1)%nat in
  let j := (b - 1)%nat in
  i ← skip_up (j + 1 - i) (λ i, Less data i a) i;
  j ← skip_down (j + 1 - i) (λ j, negb <$> Less data j a) j;
  if decide (j < i)%nat then
    data ← Swap data j a; Some (data, j, true)
  else
    data ← Swap data i j;
    '(data, j) ← partition_loop (S (b - a)) data a (i + 1) (j - 1);
    data ← Swap data j a;
    Some (data, j, false).

(** [pdqsort_func]: each turn of its loop and each recursive call takes
    one unit of fuel. *)
Fixpoint pdqsort_func (fuel : nat) (data : list A) (a b limit : nat)
    (wasBalanced wasPartitioned : bool) : option (list A) :=
  match fuel with
  | O => None
  | S fuel' =>
    let length := (b - a)%nat in
    if decide (length ≤ maxInsertion)%nat then insertionSort_func data a b
    else if decide (limit = 0)%nat then heapSort_func data a b
    else
      '(data, limit) ←
        (if negb wasBalanced then
           data ← breakPatterns_func data a b; Some (data, (limit - 1)%nat)
         else Some (data, limit));
      '(pivot, hint) ← choosePivot_func data a b;
      '(data, pivot, hint) ←
        (if decide (hint = decreasingHint) then
           data ← reverseRange_func data a b;
           Some (data, ((b - 1) - (pivot - a))%nat, increasingHint)
         else Some (data, pivot, hint));
      '(data, done) ←
        (if wasBalanced && wasPartitioned && bool_decide (hint = increasingHint) then
           partialInsertionSort_func data a b
         else Some (data, false));
      if done : bool then Some data
      else
        equal ← (if decide (0 < a)%nat then negb <$> Less data (a - 1) pivot
                 else Some false);
        if equal : bool then
          '(data, mid) ← partitionEqual_func data a b pivot;
          pdqsort_func fuel' data mid b limit wasBalanced wasPartitioned
        else
          '(data, mid, alreadyPartitioned) ← partition_func data a b pivot;
          let wasPartitioned := alreadyPartitioned in
          let leftLen := (mid - a)%nat in
          let rightLen := (b - mid)%nat in
          let balanceThreshold := (length / 8)%nat in
          if decide (leftLen < rightLen)%nat then
            let wasBalanced := bool_decide (balanceThreshold ≤ leftLen)%nat in
            data ← pdqsort_func fuel' data a mid limit true true;
            pdqsort_func fuel' data (mid + 1) b limit wasBalanced wasPartitioned
          else
            let wasBalanced := bool_decide (balanceThreshold ≤ rightLen)%nat in
            data ← pdqsort_func fuel' data (mid + 1) b limit true true;
            pdqsort_func fuel' data a mid limit wasBalanced wasPartitioned
  end.

(** [sort.Slice(x, less)] *)
Definition Slice (x : list A) : option (list A) :=
  let length := length x in
  let limit := bits_Len length in
  pdqsort_func (S length) x 0 length limit true true.

End lessSwap.

End sort.

(** ** Calls that reach GitLab

    A call of the client changes the world (the server, the network, the
    rate limiter, the context) and may not return: [M W A] is a computation
    over the world [W] whose run is [None] when it has no result (a
    pagination loop out of fuel, a panic). *)

Definition M (W A : Type) : Type := W → option (A * W).

Global Instance M_ret {W} : MRet (M W) := λ A x w, Some (x, w).
Global Instance M_bind {W} : MBind (M W) := λ A B k m w,
  match m w with
  | Some (x, w') => k x w'
  | None => None
  end.

(** A pure computation that may have no result, run inside [M]. *)
Definition liftOption {W A} (o : option A) : M W A := λ w,
  match o with
  | Some x => Some (x, w)
  | None => None
  end.

(** A call that always returns, run inside [M]. *)
Definition liftCall {W A} (f : W → A * W) : M W A := λ w, Some (f w).

(** ** gitlab/client.go *)

Module gitlab.

(** What one [makeRequest] followed by the JSON decoding of the body gives:
    the request failed, the body did not decode, or a page of items. *)
Inductive PageResult (A : Type) :=
  | RequestFailed (err : error)
  | DecodeFailed (err : error)
  | PageOK (items : list A).
Global Arguments RequestFailed {A} err.
Global Arguments DecodeFailed {A} err.
Global Arguments PageOK {A} items.

(** The client, as the requests it can send.  [getProjectsPage page perPage]
    is the request of [ListRepositories] for one page with its decoding,
    [getMergeRequestsPage projectID sourceBranch targetBranch page perPage]
    the one of [ListMergeRequests].  [GetMergeRequestChanges projectID mrID]
    is the whole method: one request, and the count of the entries of the
    answer that carry a change. *)
Record Client (W : Type) := mkClient {
  getProjectsPage : Z → Z → W → PageResult Repository * W;
  getMergeRequestsPage : Z → string → string → Z → Z → W → PageResult MergeRequest * W;
  GetMergeRequestChanges : Z → Z → W → (error + Z) * W
}.
Global Arguments getProjectsPage {W} _ _ _ _.
Global Arguments getMergeRequestsPage {W} _ _ _ _ _ _ _.
Global Arguments GetMergeRequestChanges {W} _ _ _ _.

Definition perPage : Z := 100.

Section client.
Context {W : Type}.

(** The [for] loop of [ListRepositories]; each page takes one unit of
    fuel. *)
Fixpoint ListRepositories_loop (fuel : nat) (c : Client W)
    (allRepos : list Repository) (page : Z) : M W (error + list Repository) :=
  match fuel with
  | O => λ _, None
  | S fuel' =>
    resp ← liftCall (getProjectsPage c page perPage);
    match resp with
    | RequestFailed err =>
        mret (inl ("failed to list repositories (page " +:+ pretty page +:+ "): " +:+ err))
    | DecodeFailed err =>
        mret (inl ("failed to decode repositories response: " +:+ err))
    | PageOK repos =>
        let allRepos := allRepos ++ repos in
        if bool_decide (len repos < perPage) then mret (inr allRepos)
        else ListRepositories_loop fuel' c allRepos (wrap64 (page + 1))
    end
  end.

Definition ListRepositories (fuel : nat) (c : Client W) : M W (error + list Repository) :=
  ListRepositories_loop fuel c [] 1.

Fixpoint ListMergeRequests_loop (fuel : nat) (c : Client W) (projectID : Z)
    (sourceBranch targetBranch : string) (allMRs : list MergeRequest) (page : Z)
    : M W (error + list MergeRequest) :=
  match fuel with
  | O => λ _, None
  | S fuel' =>
    resp ← liftCall (getMergeRequestsPage c projectID sourceBranch targetBranch page perPage);
    match resp with
    | RequestFailed err =>
        mret (inl ("failed to list merge requests for project " +:+ pretty projectID
                   +:+ " (page " +:+ pretty page +:+ "): " +:+ err))
    | DecodeFailed err =>
        mret (inl ("failed to decode merge requests response: " +:+ err))
    | PageOK mrs =>
        let allMRs := allMRs ++ mrs in
        if bool_decide (len mrs < perPage) then mret (inr allMRs)
        else ListMergeRequests_loop fuel' c projectID sourceBranch targetBranch
               allMRs (wrap64 (page + 1))
    end
  end.

Definition ListMergeRequests (fuel : nat) (c : Client W) (projectID : Z)
    (sourceBranch targetBranch : string) : M W (error + list MergeRequest) :=
  ListMergeRequests_loop fuel c projectID sourceBranch targetBranch [] 1.

End client.

End gitlab.

(** ** scanner/repository.go

    The calls of [log.Printf] are left out. *)

Module scanner.

Record RepositoryScanner (W : Type) := mkRepositoryScanner {
  client : gitlab.Client W;
  includeGroups : list Z
}.
Global Arguments client {W} _.
Global Arguments includeGroups {W} _.

Definition NewRepositoryScanner {W} (client : gitlab.Client W) (includeGroups : list Z)
    : RepositoryScanner W :=
  mkRepositoryScanner W client includeGroups.

Definition withStatus (repo : Repository) (status : RepositoryStatus)
    (err : option error) : Repository :=
  mkRepository (repo_ID repo) (repo_Name repo) (repo_WebURL repo)
    (repo_Namespace repo) status err.

(** [includeMap], filled by the first loop of [filterRepositories]. *)
Definition includeMap (groups : list Z) : gmap Z bool :=
  foldl (λ m groupID, <[groupID := true]> m) ∅ groups.

(** [includeMap[id]]: a missing key reads as [false]. *)
Definition included (m : gmap Z bool) (id : Z) : bool := default false (m !! id).

Section scanner.
Context {W : Type}.

Definition filterRepositories (rs : RepositoryScanner W) (repos : list Repository)
    : list Repository :=
  if bool_decide (len (includeGroups rs) = 0) then repos
  else
    let includeMap := includeMap (includeGroups rs) in
    List.filter (λ repo, included includeMap (ns_ID (repo_Namespace repo))) repos.

Definition processRepository (fuel : nat) (rs : RepositoryScanner W) (repo : Repository)
    : M W Repository :=
  let repo := withStatus repo StatusAccessible None in
  res ← gitlab.ListMergeRequests fuel (client rs) (repo_ID repo) "release" "master";
  match res with
  | inl err => mret (withStatus repo StatusError (Some err))
  | inr mrs =>
    if bool_decide (len mrs = 0) then mret (withStatus repo StatusNoMRs (repo_Error repo))
    else
      let hasConflicts := existsb mr_HasConflicts mrs in
      if hasConflicts then mret (withStatus repo StatusConflicts (repo_Error repo))
      else mret (withStatus repo StatusNoMRs (repo_Error repo))
  end.

(** The loop [for i, repo := range filteredRepos]. *)
Fixpoint processAll (fuel : nat) (rs : RepositoryScanner W) (repos : list Repository)
    : M W (list Repository) :=
  match repos with
  | [] => mret []
  | repo :: rest =>
    processed ← processRepository fuel rs repo;
    others ← processAll fuel rs rest;
    mret (processed :: others)
  end.

Definition ScanRepositories (fuel : nat) (rs : RepositoryScanner W)
    : M W (error + list Repository) :=
  res ← gitlab.ListRepositories fuel (client rs);
  match res with
  | inl err => mret (inl ("failed to retrieve repositories: " +:+ err))
  | inr repos =>
    let filteredRepos := filterRepositories rs repos in
    processedRepos ← processAll fuel rs filteredRepos;
    mret (inr processedRepos)
  end.

Definition GetRepositoryCount (fuel : nat) (rs : RepositoryScanner W) : M W (error + Z) :=
  res ← gitlab.ListRepositories fuel (client rs);
  match res with
  | inl err => mret (inl ("failed to count repositories: " +:+ err))
  | inr repos => mret (inr (len (filterRepositories rs repos)))
  end.

End scanner.

End scanner.

(** ** analyzer/merge_request.go *)

Module analyzer.

(** The test of the two filters:
    [mr.SourceBranch == "release" && mr.TargetBranch == "master" && mr.HasConflicts]. *)
Definition releaseToMasterConflict (mr : MergeRequest) : bool :=
  bool_decide (mr_SourceBranch mr = "release")
  && bool_decide (mr_TargetBranch mr = "master")
  && mr_HasConflicts mr.

(** The closure given to [sort.Slice]:
    [conflictingMRs[i].CreatedAt.After(conflictingMRs[j].CreatedAt)]. *)
Definition createdAfter (x y : MergeRequest) : bool :=
  bool_decide (mr_CreatedAt y < mr_CreatedAt x).

Definition filterAndSortConflictingMRs (mrs : list MergeRequest)
    : option (list MergeRequest) :=
  let conflictingMRs := List.filter releaseToMasterConflict mrs in
  sort.Slice createdAfter conflictingMRs.

Definition setStatus (repo : Repository) (status : RepositoryStatus) : Repository :=
  mkRepository (repo_ID repo) (repo_Name repo) (repo_WebURL repo)
    (repo_Namespace repo) status (repo_Error repo).

Definition setStatusError (repo : Repository) (err : error) : Repository :=
  mkRepository (repo_ID repo) (repo_Name repo) (repo_WebURL repo)
    (repo_Namespace repo) StatusError (Some err).

Section analyzer.
Context {W : Type}.

Definition hasActualChanges (c : gitlab.Client W) (projectID mrID : Z) : M W bool :=
  res ← liftCall (gitlab.GetMergeRequestChanges c projectID mrID);
  match res with
  | inl _ => mret true
  | inr changesCount => mret (bool_decide (0 < changesCount))
  end.

(** The filtering loop of [filterAndSortRealConflictingMRs], with the
    slice of the merge requests kept so far. *)
Fixpoint filterReal (c : gitlab.Client W) (projectID : Z) (mrs : list MergeRequest)
    (conflictingMRs : list MergeRequest) : M W (list MergeRequest) :=
  match mrs with
  | [] => mret conflictingMRs
  | mr :: rest =>
    if releaseToMasterConflict mr then
      real ← hasActualChanges c projectID (mr_ID mr);
      if real : bool then filterReal c projectID rest (conflictingMRs ++ [mr])
      else filterReal c projectID rest conflictingMRs
    else filterReal c projectID rest conflictingMRs
  end.

Definition filterAndSortRealConflictingMRs (c : gitlab.Client W) (projectID : Z)
    (mrs : list MergeRequest) : M W (list MergeRequest) :=
  conflictingMRs ← filterReal c projectID mrs [];
  liftOption (sort.Slice createdAfter conflictingMRs).

Definition analyzeRepository (fuel : nat) (c : gitlab.Client W) (repo : Repository)
    : M W (error + Repository) :=
  res ← gitlab.ListMergeRequests fuel c (repo_ID repo) "release" "master";
  match res with
  | inl err =>
      mret (inl ("failed to fetch merge requests for repository " +:+ repo_Name repo
                 +:+ ": " +:+ err))
  | inr mrs =>
    conflictingMRs ← filterAndSortRealConflictingMRs c (repo_ID repo) mrs;
    if bool_decide (0 < len conflictingMRs) then mret (inr (setStatus repo StatusConflicts))
    else if bool_decide (0 < len mrs) then mret (inr (setStatus repo StatusAccessible))
    else mret (inr (setStatus repo StatusNoMRs))
  end.

(** One turn of the loop of [AnalyzeMRs]: the repository appended to
    [analyzedRepos]. *)
Definition analyzeOne (fuel : nat) (c : gitlab.Client W) (repo : Repository)
    : M W Repository :=
  if bool_decide (repo_Status repo = StatusError) then mret repo
  else
    res ← analyzeRepository fuel c repo;
    match res with
    | inl err => mret (setStatusError repo err)
    | inr analyzedRepo => mret analyzedRepo
    end.

Fixpoint analyzeAll (fuel : nat) (c : gitlab.Client W) (repositories : list Repository)
    (analyzedRepos : list Repository) : M W (list Repository) :=
  match repositories with
  | [] => mret analyzedRepos
  | repo :: rest =>
    analyzedRepo ← analyzeOne fuel c repo;
    analyzeAll fuel c rest (analyzedRepos ++ [analyzedRepo])
  end.

(** [client] is a pointer: [None] is [nil]. *)
Definition AnalyzeMRs (fuel : nat) (client : option (gitlab.Client W))
    (repositories : list Repository) : M W (error + list Repository) :=
  match client with
  | None => mret (inl "gitlab client cannot be nil")
  | Some c =>
    analyzedRepos ← analyzeAll fuel c repositories [];
    mret (inr analyzedRepos)
  end.

(** One turn of the loop of [GetConflictingMRs].  A [nil] client is
    dereferenced by the first query: the program panics. *)
Definition conflictsOne (fuel : nat) (client : option (gitlab.Client W))
    (conflictingMRs : gmap Z (list MergeRequest)) (repo : Repository)
    : M W (gmap Z (list MergeRequest)) :=
  if bool_decide (repo_Status repo = StatusConflicts) then
    match client with
    | None => λ _, None
    | Some c =>
      res ← gitlab.ListMergeRequests fuel c (repo_ID repo) "release" "master";
      match res with
      | inl _ => mret conflictingMRs
      | inr mrs =>
        conflicts ← filterAndSortRealConflictingMRs c (repo_ID repo) mrs;
        if bool_decide (0 < len conflicts) then
          mret (<[repo_ID repo := conflicts]> conflictingMRs)
        else mret conflictingMRs
      end
    end
  else mret conflictingMRs.

Fixpoint conflictsAll (fuel : nat) (client : option (gitlab.Client W))
    (repositories : list Repository) (conflictingMRs : gmap Z (list MergeRequest))
    : M W (gmap Z (list MergeRequest)) :=
  match repositories with
  | [] => mret conflictingMRs
  | repo :: rest =>
    conflictingMRs ← conflictsOne fuel client conflictingMRs repo;
    conflictsAll fuel client rest conflictingMRs
  end.

(** The map and the error of the source; the error is [nil] on every
    path. *)
Definition GetConflictingMRs (fuel : nat) (client : option (gitlab.Client W))
    (repositories : list Repository)
    : M W (gmap Z (list MergeRequest) * option error) :=
  conflictingMRs ← conflictsAll fuel client repositories ∅;
  mret (conflictingMRs, None).

End analyzer.

End analyzer.


(** * Vocabulary of the properties *)

(** The three equations of the summary of a report. *)
Definition consistent (r : Report) : Prop :=
  TotalRepositories r = countEntries (Repositories r) ∧
  RepositoriesWithConflicts r = countConflictEntries (Repositories r) ∧
  TotalConflictingMRs r = sumConflictingMRs (Repositories r).

(** A computation that may have no result has one, and it satisfies [Q]. *)
Definition ok {X} (o : option X) (Q : X → Prop) : Prop :=
  match o with Some x => Q x | None => False end.

(** The rank of [data[i]], for a rank that the comparison of [sort.Slice]
    follows: [less x y] is [rank x < rank y]. *)
Definition rk {A} (rank : A → Z) (data : list A) (i : nat) : Z :=
  from_option rank 0 (data !! i).

(** [data'] is [data] with the elements of [data[a:b]] rearranged. *)
Definition within {A} (a b : nat) (data data' : list A) : Prop :=
  length data' = length data ∧
  (∀ k, (k < a ∨ b ≤ k)%nat → data' !! k = data !! k) ∧
  data' ≡ₚ data.

(** The ranks of [data[a:b]] never decrease. *)
Definition sorted_range {A} (rank : A → Z) (data : list A) (a b : nat) : Prop :=
  ∀ i j, (a ≤ i)%nat → (i ≤ j)%nat → (j < b)%nat → rk rank data i ≤ rk rank data j.

(** [c] is a child of [i] in a heap laid out from index [0]. *)
Definition child (c i : nat) : Prop := (c = 2 * i + 1 ∨ c = 2 * i + 2)%nat.

(** Every node from [lo] on, in the heap of [hi] elements that starts at
    [data[first]], is at least as large as its children. *)
Definition heap {A} (rank : A → Z) (data : list A) (first lo hi : nat) : Prop :=
  ∀ i c, (lo ≤ i)%nat → (c < hi)%nat → child c i →
    rk rank data (first + c) ≤ rk rank data (first + i).

(** The element before the range, when there is one, is at most every
    element of the range: what the quicksort loop knows of a range that lies
    to the right of an earlier pivot. *)
Definition lower {A} (rank : A → Z) (data : list A) (a b : nat) : Prop :=
  (0 < a)%nat → ∀ k, (a ≤ k)%nat → (k < b)%nat →
    rk rank data (a - 1) ≤ rk rank data k.

(** The elements of one rank, in the order of the list: two lists that
    agree on it for every rank hold the elements of equal rank in the same
    relative order. *)
Definition ofRank {A} (rank : A → Z) (t : Z) (l : list A) : list A :=
  filter (λ x, rank x = t) l.


(** The rank that [createdAfter] follows: a merge request created later
    ranks lower, and comes first. *)
Definition newestRank (mr : MergeRequest) : Z := - mr_CreatedAt mr.

(** The creation timestamps never increase along the list. *)
Definition newestFirst (l : list MergeRequest) : Prop :=
  ∀ i j x y, (i ≤ j)%nat → l !! i = Some x → l !! j = Some y →
    mr_CreatedAt y ≤ mr_CreatedAt x.

(** The merge requests created at [t], in the order of the list. *)
Definition createdAt (t : Z) (l : list MergeRequest) : list MergeRequest :=
  filter (λ mr, mr_CreatedAt mr = t) l.

(** [out] holds the merge requests of equal creation timestamp in the
    relative order they have in [input]. *)
Definition tiesInOrder (out input : list MergeRequest) : Prop :=
  ∀ t, createdAt t out = createdAt t input.

(** What is claimed of the filter and sort on one input: a result with
    timestamps that never increase, and ties in the order of the input. *)
Definition sortsNewestFirstStably (mrs : list MergeRequest) : Prop :=
  ∃ out, analyzer.filterAndSortConflictingMRs mrs = Some out ∧
         newestFirst out ∧
         tiesInOrder out (List.filter analyzer.releaseToMasterConflict mrs).

(** A conflicting release-to-master merge request with the given identifier
    and creation instant. *)
Definition conflictingMR (id created : Z) : MergeRequest :=
  mkMergeRequest id "" (mkAuthor "" "" "") "" "release" "master" true created "" "".

(** Thirteen conflicting merge requests: twelve created at instant [1],
    then one created at instant [2]. *)
Definition thirteenMRs : list MergeRequest :=
  ((λ id, conflictingMR id 1) <$> [0; 1; 2; 3; 4; 5; 6; 7; 8; 9; 10; 11])
  ++ [conflictingMR 12 2].


(** ** Scanner and analyzer *)

(** [out] is the repository [src], up to its status and its error. *)
Definition sameRepository (out src : Repository) : Prop :=
  repo_ID out = repo_ID src ∧ repo_Name out = repo_Name src ∧
  repo_WebURL out = repo_WebURL src ∧ repo_Namespace out = repo_Namespace src.

(** The namespace of [repo] passes the whitelist [groups]: the whitelist is
    empty, or it holds the identifier of the namespace. *)
Definition passes (groups : list Z) (repo : Repository) : Prop :=
  groups = [] ∨ ns_ID (repo_Namespace repo) ∈ groups.

Global Instance passes_dec groups repo : Decision (passes groups repo).
Proof. unfold passes. apply _. Defined.

(** The server splits its repositories into [pages]: whatever the world, the
    request for the page number [k + 1] is answered with [pages[k]]. *)
Definition served {W} (c : gitlab.Client W) (pages : list (list Repository)) : Prop :=
  ∀ (k : nat) page w, pages !! k = Some page →
    (gitlab.getProjectsPage c (Z.of_nat k + 1) gitlab.perPage w).1 = gitlab.PageOK page.

(** The pages end with the first one that is shorter than the page size. *)
Definition paginated (pages : list (list Repository)) : Prop :=
  ∃ full last, pages = full ++ [last] ∧
    Forall (λ page, gitlab.perPage ≤ len page) full ∧ len last < gitlab.perPage.

(** A repository has the status [StatusError] exactly when it carries an
    error. *)
Definition errorInvariant (repo : Repository) : Prop :=
  repo_Status repo = StatusError ↔ repo_Error repo ≠ None.


(** [ScanRepositories] turns the repositories [repos] that passed the
    whitelist, from the world [w], into [out] and leaves the world [w']:
    every repository is classified in its turn by [processRepository], from
    the listing of its merge requests in the world the one before it
    left. *)
Inductive scannedBy {W} (fuel : nat) (rs : scanner.RepositoryScanner W)
    : list Repository → W → list Repository → W → Prop :=
  | scannedBy_nil w : scannedBy fuel rs [] w [] w
  | scannedBy_cons repo rest w res w1 repo' out w' :
      gitlab.ListMergeRequests fuel (scanner.client rs) (repo_ID repo) "release" "master" w
        = Some (res, w1) →
      scanner.processRepository fuel rs repo w = Some (repo', w1) →
      scannedBy fuel rs rest w1 out w' →
      scannedBy fuel rs (repo :: rest) w (repo' :: out) w'.

(** The merge requests that pass the filter of
    [filterAndSortRealConflictingMRs] on [mrs] from the world [w], in the
    order of [mrs], and the world the lookups leave: a merge request that is
    not a conflicting release-to-master one is dropped without a lookup; one
    that is, is kept when its change-count lookup fails or returns a
    positive count, and dropped when it returns zero or less. *)
Inductive keptBy {W} (c : gitlab.Client W) (projectID : Z)
    : list MergeRequest → W → list MergeRequest → W → Prop :=
  | keptBy_nil w : keptBy c projectID [] w [] w
  | keptBy_other mr rest w kept w' :
      analyzer.releaseToMasterConflict mr = false →
      keptBy c projectID rest w kept w' →
      keptBy c projectID (mr :: rest) w kept w'
  | keptBy_failed mr rest w err w1 kept w' :
      analyzer.releaseToMasterConflict mr = true →
      gitlab.GetMergeRequestChanges c projectID (mr_ID mr) w = (inl err, w1) →
      keptBy c projectID rest w1 kept w' →
      keptBy c projectID (mr :: rest) w (mr :: kept) w'
  | keptBy_positive mr rest w n w1 kept w' :
      analyzer.releaseToMasterConflict mr = true →
      gitlab.GetMergeRequestChanges c projectID (mr_ID mr) w = (inr n, w1) →
      0 < n →
      keptBy c projectID rest w1 kept w' →
      keptBy c projectID (mr :: rest) w (mr :: kept) w'
  | keptBy_empty mr rest w n w1 kept w' :
      analyzer.releaseToMasterConflict mr = true →
      gitlab.GetMergeRequestChanges c projectID (mr_ID mr) w = (inr n, w1) →
      n ≤ 0 →
      keptBy c projectID rest w1 kept w' →
      keptBy c projectID (mr :: rest) w kept w'.

(** The answer of a change-count lookup lets the merge request through: the
    lookup failed, or it returned a positive count. *)
Definition survives (answer : error + Z) : bool :=
  match answer with
  | inl _ => true
  | inr changesCount => bool_decide (0 < changesCount)
  end.

(** The status [AnalyzeMRs] gives a repository whose fetch returned [mrs],
    of which [kept] passed the filter. *)
Definition analyzedStatus (mrs kept : list MergeRequest) : RepositoryStatus :=
  match kept, mrs with
  | _ :: _, _ => StatusConflicts
  | [], _ :: _ => StatusAccessible
  | [], [] => StatusNoMRs
  end.

(** [AnalyzeMRs] with the client [c] turns [repos], from the world [w], into
    [out] and leaves the world [w']: every repository is analysed in its
    turn, in the world the one before it left. *)
Inductive analyzedBy {W} (fuel : nat) (c : gitlab.Client W)
    : list Repository → W → list Repository → W → Prop :=
  | analyzedBy_nil w : analyzedBy fuel c [] w [] w
  | analyzedBy_cons repo rest w analyzedRepo w1 out w' :
      analyzer.analyzeOne fuel c repo w = Some (analyzedRepo, w1) →
      analyzedBy fuel c rest w1 out w' →
      analyzedBy fuel c (repo :: rest) w (analyzedRepo :: out) w'.

(** [GetConflictingMRs] takes the map [m] to [m'] over [repos]: every
    repository is handled in its turn, in the world the one before it
    left. *)
Inductive collectedBy {W} (fuel : nat) (client : option (gitlab.Client W))
    : list Repository → gmap Z (list MergeRequest) → W →
      gmap Z (list MergeRequest) → W → Prop :=
  | collectedBy_nil m w : collectedBy fuel client [] m w m w
  | collectedBy_cons repo rest m w m1 w1 m' w' :
      analyzer.conflictsOne fuel client m repo w = Some (m1, w1) →
      collectedBy fuel client rest m1 w1 m' w' →
      collectedBy fuel client (repo :: rest) m w m' w'.

(** The loop of [GetConflictingMRs] over [repos], started in the world [w],
    reaches the repository [repo] in the world [wi]. *)
Inductive reachedBy {W} (fuel : nat) (client : option (gitlab.Client W))
    : list Repository → W → Repository → W → Prop :=
  | reachedBy_here repo rest w : reachedBy fuel client (repo :: rest) w repo w
  | reachedBy_later repo rest w m1 w1 r wi :
      analyzer.conflictsOne fuel client ∅ repo w = Some (m1, w1) →
      reachedBy fuel client rest w1 r wi →
      reachedBy fuel client (repo :: rest) w r wi.

(** The repository [repo], reached in the world [wi], gets an entry in the
    map of [GetConflictingMRs]: its status is [StatusConflicts], its fetch
    succeeds and at least one merge request passes the filter. *)
Definition contributes {W} (fuel : nat) (client : option (gitlab.Client W))
    (repo : Repository) (wi : W) : Prop :=
  repo_Status repo = StatusConflicts ∧
  ∃ c mrs w1 kept w2,
    client = Some c ∧
    gitlab.ListMergeRequests fuel c (repo_ID repo) "release" "master" wi
      = Some (inr mrs, w1) ∧
    keptBy c (repo_ID repo) mrs w1 kept w2 ∧ kept ≠ [].

(** What is claimed of one pass of [AnalyzeMRs]: every repository it
    returns has the status [StatusError] exactly when it carries an error. *)
Definition analyzeYieldsInvariant {W} (fuel : nat) (c : gitlab.Client W)
    (repos : list Repository) (w : W) : Prop :=
  ∀ out w', analyzer.AnalyzeMRs fuel (Some c) repos w = Some (inr out, w') →
    Forall errorInvariant out.

(** ** A sample server

    The world is the number of requests sent so far.  The server knows three
    repositories, in the namespaces 10, 20 and 10: the first has no merge
    request from release to master, the second has two conflicting ones, and
    the listing of the third fails.  The change-count lookup of the merge
    request 1 fails, the one of any other merge request finds three
    changes. *)
Definition sampleRepository (id ns : Z) : Repository :=
  mkRepository id "repo" "" (mkNamespace ns "group" "group") StatusAccessible None.

Definition sampleRepositories : list Repository :=
  [sampleRepository 1 10; sampleRepository 2 20; sampleRepository 3 10].

Definition sampleMRs : list MergeRequest := [conflictingMR 1 5; conflictingMR 2 7].

Definition sampleClient : gitlab.Client nat :=
  gitlab.mkClient nat
    (λ page perPage w,
       (gitlab.PageOK (if bool_decide (page = 1) then sampleRepositories else []), S w))
    (λ projectID sourceBranch targetBranch page perPage w,
       (if bool_decide (projectID = 3) then gitlab.RequestFailed "API error 500: down"
        else if bool_decide (projectID = 2) && bool_decide (page = 1)
             then gitlab.PageOK sampleMRs
             else gitlab.PageOK [], S w))
    (λ projectID mrID w,
       (if bool_decide (mrID = 1) then inl "rate limit exceeded" else inr 3, S w)).

Definition sampleScanner (groups : list Z) : scanner.RepositoryScanner nat :=
  scanner.NewRepositoryScanner sampleClient groups.

(** A repository that is not in error and still carries an error. *)
Definition staleRepository : Repository :=
  mkRepository 1 "repo" "" (mkNamespace 10 "group" "group") StatusAccessible (Some "stale").

(** Two calls of [AddRepository]: a repository with one conflicting merge
    request, and one without merge requests. *)
Definition sampleCalls : list AddCall :=
  [mkAddCall (sampleRepository 2 20) [conflictingMR 1 5] StatusConflicts "";
   mkAddCall (sampleRepository 1 10) [] StatusNoMRs ""].

(** The merge requests of the unit test of [filterAndSortConflictingMRs]:
    only the first and the last are conflicting release-to-master merge
    requests, and the last is the newer. *)
Definition unitTestMRs : list MergeRequest :=
  [mkMergeRequest 1 "" (mkAuthor "" "" "") "" "release" "master" true 0 "" "";
   mkMergeRequest 2 "" (mkAuthor "" "" "") "" "feature" "master" true 3600 "" "";
   mkMergeRequest 3 "" (mkAuthor "" "" "") "" "release" "develop" true 3600 "" "";
   mkMergeRequest 4 "" (mkAuthor "" "" "") "" "release" "master" false 3600 "" "";
   mkMergeRequest 5 "" (mkAuthor "" "" "") "" "release" "master" true 3600 "" ""].

(** A repository the Scanner found in conflict. *)
Definition conflictsRepository (id : Z) : Repository :=
  mkRepository id "repo" "" (mkNamespace 10 "group" "group") StatusConflicts None.

(** * The entry point and what surrounds the pipeline *)

(** ** internal/models: the name of a status *)

Module status.

(** [func (rs RepositoryStatus) String() string]. *)
Definition String (rs : RepositoryStatus) : string :=
  if bool_decide (rs = StatusAccessible) then "Accessible"
  else if bool_decide (rs = StatusError) then "Error"
  else if bool_decide (rs = StatusNoMRs) then "No Release->Master MRs"
  else if bool_decide (rs = StatusConflicts) then "Conflicts Found"
  else "Unknown".

End status.

(** ** main.go: [buildReport]

    [time.Now().UTC().Format("2006-01-02T15-04-05")] is the argument
    [now]. *)

Module main.

(** [repo.Error.Error()], or the empty string of [var errorMsg string]. *)
Definition errorMsg (repo : Repository) : string :=
  match repo_Error repo with
  | Some err => err
  | None => ""
  end.

(** [mrs, exists := conflictingMRs[repo.ID]], replaced by an empty slice
    when the key is missing. *)
Definition mrsOf (conflictingMRs : gmap Z (list MergeRequest)) (repo : Repository)
    : list MergeRequest :=
  match conflictingMRs !! repo_ID repo with
  | Some mrs => mrs
  | None => []
  end.

Definition buildReport (now : string) (repositories : list Repository)
    (conflictingMRs : gmap Z (list MergeRequest)) : Report :=
  foldl (λ report repo,
           AddRepository report repo (mrsOf conflictingMRs repo) (repo_Status repo)
             (errorMsg repo))
        (mkReport now 0 0 0 []) repositories.

End main.

(** ** Vocabulary of the properties of the entry point and of the client *)

(** The entry [buildReport] makes for [repo]. *)
Definition entryOf (conflictingMRs : gmap Z (list MergeRequest)) (repo : Repository)
    : RepositoryReport :=
  mkRepositoryReport repo (main.mrsOf conflictingMRs repo) (repo_Status repo)
    (main.errorMsg repo).

(** The call of [AddRepository] that [buildReport] makes for [repo]. *)
Definition callOf (conflictingMRs : gmap Z (list MergeRequest)) (repo : Repository)
    : AddCall :=
  mkAddCall repo (main.mrsOf conflictingMRs repo) (repo_Status repo) (main.errorMsg repo).

(** The entry one call of [AddRepository] appends. *)
Definition entryOfCall (c : AddCall) : RepositoryReport :=
  mkRepositoryReport (call_repo c) (call_mrs c) (call_status c) (call_errorMsg c).

(** The number of merge requests listed in the report, over all entries. *)
Definition listedMRs (es : list RepositoryReport) : Z :=
  foldr (λ e acc, len (rr_ConflictingMRs e) + acc) 0 es.

(** The world after the requests for [n] pages of repositories, from the
    page [page] on. *)
Fixpoint afterProjectsPages {W} (c : gitlab.Client W) (n : nat) (page : Z) (w : W) : W :=
  match n with
  | O => w
  | S n' =>
      afterProjectsPages c n' (page + 1) (gitlab.getProjectsPage c page gitlab.perPage w).2
  end.

(** The server splits the merge requests of a project into [pages]: whatever
    the world, the request for the page number [k + 1] of the merge requests
    of [projectID] from [sourceBranch] to [targetBranch] is answered with
    [pages[k]]. *)
Definition servedMRs {W} (c : gitlab.Client W) (projectID : Z)
    (sourceBranch targetBranch : string) (pages : list (list MergeRequest)) : Prop :=
  ∀ (k : nat) page w, pages !! k = Some page →
    (gitlab.getMergeRequestsPage c projectID sourceBranch targetBranch
       (Z.of_nat k + 1) gitlab.perPage w).1 = gitlab.PageOK page.

(** The statuses the scanner gives. *)
Definition scannerStatus (st : RepositoryStatus) : Prop :=
  st = StatusError ∨ st = StatusNoMRs ∨ st = StatusConflicts.

(** A list of conflicting merge requests as a report shows it: newest
    first, and every one a conflicting merge request from release to
    master. *)
Definition conflictList (mrs : list MergeRequest) : Prop :=
  newestFirst mrs ∧ Forall (λ mr, analyzer.releaseToMasterConflict mr = true) mrs.

(** A server whose first page of repositories is full, and whose later
    requests for repositories fail. *)
Definition flakyClient : gitlab.Client nat :=
  gitlab.mkClient nat
    (λ page perPage w,
       (if bool_decide (page = 1) then gitlab.PageOK (replicate 100 (sampleRepository 1 10))
        else gitlab.RequestFailed "rate limit exceeded", S w))
    (λ projectID sourceBranch targetBranch page perPage w, (gitlab.PageOK [], S w))
    (λ projectID mrID w, (inr 0, S w)).

(** ** Go's package strings: suffixes

    A Go string is a sequence of bytes, and so is a [string] here.  The
    lengths and the indices of a string are [int]s between [0] and its
    length; they are [nat] here. *)

Module gostrings.

(** [s[i:j]], for [i <= j <= len(s)]. *)
Definition slice (s : string) (i j : nat) : string := String.substring i (j - i) s.

(** [len(s) >= len(suffix) && s[len(s)-len(suffix):] == suffix] *)
Definition HasSuffix (s suffix : string) : bool :=
  bool_decide (String.length suffix ≤ String.length s)%nat &&
  bool_decide (slice s (String.length s - String.length suffix) (String.length s) = suffix).

Definition TrimSuffix (s suffix : string) : string :=
  if HasSuffix s suffix then slice s 0 (String.length s - String.length suffix) else s.

End gostrings.

(** ** gitlab/client.go: the requests

    The client of the source sends its requests with [net/http] and reads
    the answers with [encoding/json].  Both are outside the repository: a
    [Transport] holds what a request needs of them.  [resp.Body.Close()] is
    left out. *)

Module net.

(** [*http.Response]: the status code and the bytes of the body. *)
Record Response := mkResponse {
  StatusCode : Z;
  Body : string
}.

(** The fields of [Client] that a request reads; [httpClient] and
    [rateLimiter] are in the transport. *)
Record Client := mkClient {
  baseURL : string;
  token : string
}.

(** One entry of the answer of the changes endpoint. *)
Record Change := mkChange {
  NewFile : bool;
  RenamedFile : bool;
  DeletedFile : bool;
  Diff : string
}.

(** [waitForTick] is the [select] of [makeRequest]: [None] when the tick of
    the rate limiter comes first, [ctx.Err()] when the context is done
    first.  [NewRequestWithContext method url] is the error of
    [http.NewRequestWithContext].  [Do method url header] is
    [c.httpClient.Do(req)] for the request with that method, URL and
    header.  The four decoders are [json.NewDecoder(resp.Body).Decode] at
    the four types the client decodes.  [QueryEscape] is
    [url.QueryEscape], [TrimSpace] is [strings.TrimSpace]. *)
Record Transport (W : Type) := mkTransport {
  waitForTick : W → option error * W;
  NewRequestWithContext : string → string → option error;
  Do : string → string → list (string * string) → W → (error + Response) * W;
  decodeRepositories : Response → error + list Repository;
  decodeMergeRequests : Response → error + list MergeRequest;
  decodeMergeRequest : Response → error + MergeRequest;
  decodeChanges : Response → error + list Change;
  QueryEscape : string → string;
  TrimSpace : string → string
}.
Global Arguments waitForTick {W} _ _.
Global Arguments NewRequestWithContext {W} _ _ _.
Global Arguments Do {W} _ _ _ _ _.
Global Arguments decodeRepositories {W} _ _.
Global Arguments decodeMergeRequests {W} _ _.
Global Arguments decodeMergeRequest {W} _ _.
Global Arguments decodeChanges {W} _ _.
Global Arguments QueryEscape {W} _ _.
Global Arguments TrimSpace {W} _ _.

Definition NewClient (baseURL token : string) : Client :=
  let baseURL := gostrings.TrimSuffix baseURL "/" in
  let baseURL :=
    if gostrings.HasSuffix baseURL "/api/v4" then gostrings.TrimSuffix baseURL "/api/v4"
    else baseURL in
  mkClient baseURL token.

Section requests.
Context {W : Type} (t : Transport W).

Definition makeRequest (c : Client) (method endpoint : string) (w : W)
    : (error + Response) * W :=
  match waitForTick t w with
  | (Some err, w) => (inl err, w)
  | (None, w) =>
    let fullURL := baseURL c +:+ endpoint in
    match NewRequestWithContext t method fullURL with
    | Some err => (inl ("failed to create request: " +:+ err), w)
    | None =>
      let header := [("Authorization", "Bearer " +:+ token c);
                     ("Content-Type", "application/json")] in
      match Do t method fullURL header w with
      | (inl err, w) => (inl ("request failed: " +:+ err), w)
      | (inr resp, w) =>
        if bool_decide (StatusCode resp = 401) then
          (inl "authentication failed: invalid token", w)
        else if bool_decide (StatusCode resp = 429) then
          (inl "rate limit exceeded", w)
        else if bool_decide (400 ≤ StatusCode resp) then
          (inl ("API error " +:+ pretty (StatusCode resp) +:+ ": " +:+ Body resp), w)
        else (inr resp, w)
      end
    end
  end.

(** One turn of the loop of [ListRepositories], up to the decoding of the
    page. *)
Definition getProjectsPage (c : Client) (page perPage : Z) (w : W)
    : gitlab.PageResult Repository * W :=
  let endpoint := "/api/v4/projects?membership=true&page=" +:+ pretty page
                  +:+ "&per_page=" +:+ pretty perPage in
  match makeRequest c "GET" endpoint w with
  | (inl err, w) => (gitlab.RequestFailed err, w)
  | (inr resp, w) =>
    match decodeRepositories t resp with
    | inl err => (gitlab.DecodeFailed err, w)
    | inr repos => (gitlab.PageOK repos, w)
    end
  end.

(** [params.Encode()] on the parameters that were set, sorted by key: each
    is written as [key=value] with both escaped, after a [&] when the
    buffer is not empty. *)
Definition Encode (params : list (string * string)) : string :=
  foldl (λ buf kv,
           (if bool_decide (0 < String.length buf)%nat then buf +:+ "&" else buf)
           +:+ QueryEscape t kv.1 +:+ "=" +:+ QueryEscape t kv.2)
        "" params.

(** One turn of the loop of [ListMergeRequests], up to the decoding of the
    page.  The parameters are listed in the order of their keys. *)
Definition getMergeRequestsPage (c : Client) (projectID : Z)
    (sourceBranch targetBranch : string) (page perPage : Z) (w : W)
    : gitlab.PageResult MergeRequest * W :=
  let params :=
    [("page", pretty page); ("per_page", pretty perPage)]
    ++ (if bool_decide (sourceBranch ≠ "") then [("source_branch", sourceBranch)] else [])
    ++ [("state", "opened")]
    ++ (if bool_decide (targetBranch ≠ "") then [("target_branch", targetBranch)] else []) in
  let endpoint := "/api/v4/projects/" +:+ pretty projectID +:+ "/merge_requests?"
                  +:+ Encode params in
  match makeRequest c "GET" endpoint w with
  | (inl err, w) => (gitlab.RequestFailed err, w)
  | (inr resp, w) =>
    match decodeMergeRequests t resp with
    | inl err => (gitlab.DecodeFailed err, w)
    | inr mrs => (gitlab.PageOK mrs, w)
    end
  end.

Definition GetMergeRequest (c : Client) (projectID mrID : Z) (w : W)
    : (error + MergeRequest) * W :=
  let endpoint := "/api/v4/projects/" +:+ pretty projectID +:+ "/merge_requests/"
                  +:+ pretty mrID in
  match makeRequest c "GET" endpoint w with
  | (inl err, w) =>
      (inl ("failed to get merge request " +:+ pretty mrID +:+ " for project "
            +:+ pretty projectID +:+ ": " +:+ err), w)
  | (inr resp, w) =>
    match decodeMergeRequest t resp with
    | inl err => (inl ("failed to decode merge request response: " +:+ err), w)
    | inr mr => (inr mr, w)
    end
  end.

(** The test of the counting loop of [GetMergeRequestChanges]. *)
Definition isActualChange (change : Change) : bool :=
  NewFile change || RenamedFile change || DeletedFile change
  || (bool_decide (Diff change ≠ "")
      && bool_decide (0 < String.length (TrimSpace t (Diff change)))%nat).

(** The counting loop, with the count so far. *)
Fixpoint countActualChanges (changes : list Change) (actualChanges : Z) : Z :=
  match changes with
  | [] => actualChanges
  | change :: rest =>
    countActualChanges rest
      (if isActualChange change then wrap64 (actualChanges + 1) else actualChanges)
  end.

Definition GetMergeRequestChanges (c : Client) (projectID mrID : Z) (w : W)
    : (error + Z) * W :=
  let endpoint := "/api/v4/projects/" +:+ pretty projectID +:+ "/merge_requests/"
                  +:+ pretty mrID +:+ "/changes" in
  match makeRequest c "GET" endpoint w with
  | (inl err, w) =>
      (inl ("failed to get merge request changes " +:+ pretty mrID +:+ " for project "
            +:+ pretty projectID +:+ ": " +:+ err), w)
  | (inr resp, w) =>
    match decodeChanges t resp with
    | inl err => (inl ("failed to decode merge request changes response: " +:+ err), w)
    | inr changes => (inr (countActualChanges changes 0), w)
    end
  end.

Definition TestConnection (c : Client) (w : W) : option error * W :=
  let endpoint := "/api/v4/user" in
  match makeRequest c "GET" endpoint w with
  | (inl err, w) => (Some ("connection test failed: " +:+ err), w)
  | (inr resp, w) => (None, w)
  end.

(** The client as the scanner and the analyzer use it. *)
Definition requests (c : Client) : gitlab.Client W :=
  gitlab.mkClient W (getProjectsPage c) (getMergeRequestsPage c) (GetMergeRequestChanges c).

End requests.

End net.

(** ** internal/testing: the mock server and the validators

    The test support of the repository: the handler of [MockGitLabServer]
    and the checks of [ValidationHelper].  [strconv.Atoi] and [fmt.Sscanf]
    with the format of the handler are outside the repository; they are
    the arguments [Atoi] and [Sscanf], [None] for [err != nil]. *)

Module testing.

Record MockGitLabServer := mkMockGitLabServer {
  repositories : list Repository;
  mergeRequests : gmap Z (list MergeRequest);
  errorRepos : gmap Z bool;
  unauthorizedReq : bool;
  perPage : Z
}.

(** What the handler reads of a request: [r.Header.Get("Authorization")],
    [r.URL.Path], [query.Get("page")] and [query.Get("per_page")]. *)
Record Request := mkRequest {
  Authorization : string;
  Path : string;
  queryPage : string;
  queryPerPage : string
}.

(** What the handler writes: a status without body, or a JSON body (with
    the status 200 when none is written; 403 for [Forbidden]). *)
Inductive Answer :=
  | Status (code : Z)
  | User
  | Repositories (pageRepos : list Repository)
  | MergeRequests (mrs : list MergeRequest)
  | Forbidden.

Definition SetMergeRequests (m : MockGitLabServer) (repoID : Z) (mrs : list MergeRequest)
    : MockGitLabServer :=
  mkMockGitLabServer (repositories m) (<[repoID := mrs]> (mergeRequests m)) (errorRepos m)
    (unauthorizedReq m) (perPage m).

Definition SetRepositoryError (m : MockGitLabServer) (repoID : Z) (hasError : bool)
    : MockGitLabServer :=
  mkMockGitLabServer (repositories m) (mergeRequests m)
    (if hasError then <[repoID := true]> (errorRepos m) else delete repoID (errorRepos m))
    (unauthorizedReq m) (perPage m).

Section handlers.
Context (Atoi Sscanf : string → option Z).

(** [handleRepositoryList]; [None] is the panic of a slice expression out
    of range.  A [nil] slice and an empty one are both the empty list. *)
Definition handleRepositoryList (m : MockGitLabServer) (r : Request) : option Answer :=
  let page := 1 in
  let page :=
    if bool_decide (queryPage r ≠ "") then
      match Atoi (queryPage r) with Some parsed => parsed | None => page end
    else page in
  let pageSize := perPage m in
  let pageSize :=
    if bool_decide (queryPerPage r ≠ "") then
      match Atoi (queryPerPage r) with Some parsed => parsed | None => pageSize end
    else pageSize in
  let start := wrap64 (wrap64 (page - 1) * pageSize) in
  let end_ := wrap64 (start + pageSize) in
  let end_ := if bool_decide (len (repositories m) < end_) then len (repositories m) else end_ in
  if bool_decide (start < len (repositories m)) then
    if bool_decide (0 ≤ start ∧ start ≤ end_) then
      Some (Repositories (take (Z.to_nat (end_ - start))
                            (drop (Z.to_nat start) (repositories m))))
    else None
  else Some (Repositories []).

(** [handleMergeRequestList], called for a path longer than 20 bytes. *)
Definition handleMergeRequestList (m : MockGitLabServer) (r : Request) : option Answer :=
  let pathParts := gostrings.slice (Path r) 20 (String.length (Path r)) in
  match Sscanf pathParts with
  | None => Some (Status 404)
  | Some projectID =>
    if default false (errorRepos m !! projectID) then Some Forbidden
    else
      match mergeRequests m !! projectID with
      | Some mrs => Some (MergeRequests mrs)
      | None => Some (MergeRequests [])
      end
  end.

Definition handleRequest (m : MockGitLabServer) (r : Request) : option Answer :=
  if unauthorizedReq m then Some (Status 401)
  else if bool_decide (Authorization r ≠ "Bearer test-token") then Some (Status 401)
  else if bool_decide (Path r = "/api/v4/user") then Some User
  else if bool_decide (Path r = "/api/v4/projects") then handleRepositoryList m r
  else if bool_decide (20 < String.length (Path r))%nat
          && bool_decide (gostrings.slice (Path r) 0 20 = "/api/v4/projects/")
       then handleMergeRequestList m r
  else Some (Status 404).

End handlers.

(** [containsString] and [findSubstring]; the loop of the latter runs over
    [i] from [0] to [len(s) - len(substr)]. *)
Fixpoint findSubstring_loop (n : nat) (s substr : string) (i : nat) : bool :=
  match n with
  | O => false
  | S n' =>
    if bool_decide (gostrings.slice s i (i + String.length substr) = substr) then true
    else findSubstring_loop n' s substr (S i)
  end.

Definition findSubstring (s substr : string) : bool :=
  if bool_decide (String.length s < String.length substr)%nat then false
  else findSubstring_loop (String.length s - String.length substr + 1) s substr 0.

Definition containsString (s substr : string) : bool :=
  bool_decide (String.length substr ≤ String.length s)%nat &&
  (bool_decide (s = substr) ||
   (bool_decide (String.length substr < String.length s)%nat &&
    (bool_decide (gostrings.slice s 0 (String.length substr) = substr) ||
     bool_decide (gostrings.slice s (String.length s - String.length substr)
                    (String.length s) = substr) ||
     findSubstring s substr))).

(** [ValidateMergeRequestSorting]: [fuel] counts the turns of the loop
    over [i], [None] is an index out of range. *)
Fixpoint ValidateMergeRequestSorting_loop (n : nat) (mrs : list MergeRequest) (i : nat)
    : option bool :=
  match n with
  | O => Some true
  | S n' =>
    previous ← mrs !! (i - 1)%nat;
    current ← mrs !! i;
    if bool_decide (mr_CreatedAt previous < mr_CreatedAt current) then Some false
    else ValidateMergeRequestSorting_loop n' mrs (S i)
  end.

Definition ValidateMergeRequestSorting (mrs : list MergeRequest) : option bool :=
  ValidateMergeRequestSorting_loop (length mrs - 1) mrs 1.

(** [ValidateMergeRequestFiltering] *)
Definition ValidateMergeRequestFiltering (input filtered : list MergeRequest) : bool :=
  if existsb (λ mr, bool_decide (mr_SourceBranch mr ≠ "release")
                    || bool_decide (mr_TargetBranch mr ≠ "master")
                    || negb (mr_HasConflicts mr)) filtered
  then false
  else
    let expectedCount :=
      foldl (λ expectedCount mr,
               if bool_decide (mr_SourceBranch mr = "release")
                  && bool_decide (mr_TargetBranch mr = "master")
                  && mr_HasConflicts mr
               then wrap64 (expectedCount + 1) else expectedCount) 0 input in
    bool_decide (len filtered = expectedCount).

(** [ValidateRepositoryCompleteness] *)
Definition ValidateRepositoryCompleteness (expected actual : list Repository) : bool :=
  if bool_decide (len expected ≠ len actual) then false
  else
    let actualMap : gmap Z Repository :=
      foldl (λ actualMap repo, <[repo_ID repo := repo]> actualMap) ∅ actual in
    forallb (λ expectedRepo,
               match actualMap !! repo_ID expectedRepo with
               | None => false
               | Some actualRepo =>
                 negb (bool_decide (repo_Name actualRepo ≠ repo_Name expectedRepo)
                       || bool_decide (repo_WebURL actualRepo ≠ repo_WebURL expectedRepo))
               end) expected.

(** [ValidateReportStructure] *)
Definition ValidateReportStructure (content : string) (expectedRepos : list Repository)
    (expectedMRs : list MergeRequest) : bool :=
  let requiredElements :=
    ["# MR Conflict Report -"; "## Summary"; "## Repository Details"; "**Status**:"] in
  if existsb (λ element, negb (containsString content element)) requiredElements then false
  else if existsb (λ repo,
                     let expectedRepoLink :=
                       "[" +:+ repo_Name repo +:+ "](" +:+ repo_WebURL repo +:+ ")" in
                     negb (containsString content expectedRepoLink)) expectedRepos
  then false
  else if existsb (λ mr,
                     negb (containsString content (mr_Title mr))
                     || negb (containsString content (au_Name (mr_Author mr)))
                     || (let expectedMRLink :=
                           "[" +:+ mr_Title mr +:+ "](" +:+ mr_WebURL mr +:+ ")" in
                         negb (containsString content expectedMRLink))) expectedMRs
  then false
  else true.

End testing.

(** ** Vocabulary of the properties of the test support *)

(** [substr] occurs in [s]. *)
Definition occursIn (substr s : string) : Prop :=
  ∃ before after, s = before +:+ substr +:+ after.

(** The request of the client for the page [page] of the repositories. *)
Definition projectsRequest (page : string) : testing.Request :=
  testing.mkRequest "Bearer test-token" "/api/v4/projects" page "100".

(** The repositories agree on what the completeness check compares. *)
Definition sameListing (out src : Repository) : Prop :=
  repo_ID out = repo_ID src ∧ repo_Name out = repo_Name src ∧
  repo_WebURL out = repo_WebURL src.

(** ** The file system and the clock

    [config] and [reporter] reach the files through package [os] and build
    paths with [path/filepath]; the reporter reads the clock.  None of them
    is in the repository: a [FileSystem] holds the calls, which change the
    world like the calls of the client ([Now] is
    [time.Now().UTC().Format("2006-01-02T15-04-05")]), and [Paths] the four
    pure functions.  Of the result of [os.Stat] the source only looks at whether
    the error is [nil] and at [os.IsNotExist(err)]. *)

Module os.

(** [Exists] for [err == nil], [NotExist] for [os.IsNotExist(err)],
    [Failed] for any other error. *)
Inductive StatResult := Exists | NotExist | Failed.

Global Instance StatResult_eq_dec : EqDecision StatResult.
Proof. solve_decision. Defined.

Record FileSystem (W : Type) := mkFileSystem {
  Stat : string → W → StatResult * W;
  ReadFile : string → W → (error + string) * W;
  MkdirAll : string → Z → W → option error * W;
  WriteFile : string → string → Z → W → option error * W;
  Now : W → string * W
}.
Global Arguments Stat {W} _ _ _.
Global Arguments ReadFile {W} _ _ _.
Global Arguments MkdirAll {W} _ _ _ _.
Global Arguments WriteFile {W} _ _ _ _ _.
Global Arguments Now {W} _ _.

Record Paths := mkPaths {
  Dir : string → string;
  Ext : string → string;
  Base : string → string;
  Join : string → string → string
}.

End os.

(** ** config/config.go

    [yaml.Unmarshal] into a zero [Config] is the argument [Unmarshal]. *)

Module config.

Record Config := mkConfig {
  Token : string;
  URL : string;
  IncludeGroups : list Z
}.

Definition Validate (c : Config) : option error :=
  if bool_decide (Token c = "") then Some "gitlab.token is required"
  else if bool_decide (URL c = "") then Some "gitlab.url is required"
  else None.

Definition LoadConfig {W} (fs : os.FileSystem W) (Unmarshal : string → error + Config)
    (filePath : string) (w : W) : (error + Config) * W :=
  match os.Stat fs filePath w with
  | (os.NotExist, w) => (inl ("configuration file not found: " +:+ filePath), w)
  | (_, w) =>
    match os.ReadFile fs filePath w with
    | (inl err, w) => (inl ("failed to read configuration file: " +:+ err), w)
    | (inr data, w) =>
      match Unmarshal data with
      | inl err => (inl ("failed to parse YAML configuration: " +:+ err), w)
      | inr config =>
        match Validate config with
        | Some err => (inl ("configuration validation failed: " +:+ err), w)
        | None => (inr config, w)
        end
      end
    end
  end.

End config.

(** ** reporter/markdown.go

    [mr.CreatedAt.Format("2006-01-02 15:04:05")] is the argument [Format];
    it is given the merge request, since [mr_CreatedAt] holds the instant
    and not the time zone. *)

Module reporter.

(** The line feed of the format strings. *)
Definition newline : string := String (Ascii.ascii_of_nat 10) "".

(** The closure given to [sort.Slice] by [generateMarkdownContent]:
    [sortedRepos[i].Repository.Name < sortedRepos[j].Repository.Name], the
    order of Go strings, byte by byte. *)
Definition nameBefore (x y : RepositoryReport) : bool :=
  String.ltb (repo_Name (rr_Repository x)) (repo_Name (rr_Repository y)).

Section reporter.
Context {W : Type} (fs : os.FileSystem W) (filepath : os.Paths).
Context (Format : MergeRequest → string).

(** The line of one merge request. *)
Definition mergeRequestLine (mr : MergeRequest) : string :=
  "- ❌ [" +:+ mr_Title mr +:+ "](" +:+ mr_WebURL mr +:+ ") - Author: "
  +:+ au_Name (mr_Author mr) +:+ " - Created: " +:+ Format mr +:+ newline.

Definition generateRepositorySection (repoReport : RepositoryReport) : option string :=
  let conflictIcon :=
    if bool_decide (rr_Status repoReport = StatusConflicts) then " ❌" else "" in
  let section :=
    "### [" +:+ repo_Name (rr_Repository repoReport) +:+ "]("
    +:+ repo_WebURL (rr_Repository repoReport) +:+ ")" +:+ conflictIcon +:+ newline in
  let section :=
    section +:+ ("**Status**: " +:+ status.String (rr_Status repoReport) +:+ newline) in
  let section :=
    if bool_decide (rr_ErrorMessage repoReport ≠ "") then
      section +:+ ("**Error**: " +:+ rr_ErrorMessage repoReport +:+ newline)
    else section in
  section ←
    (if bool_decide (0 < len (rr_ConflictingMRs repoReport)) then
       let section := section +:+ (newline +:+ "#### Conflicting Merge Requests" +:+ newline) in
       sortedMRs ← sort.Slice analyzer.createdAfter (rr_ConflictingMRs repoReport);
       Some (foldl (λ section mr, section +:+ mergeRequestLine mr) section sortedMRs)
     else Some section);
  Some (section +:+ newline).

Definition generateMarkdownContent (report : Report) : option string :=
  let content := "# MR Conflict Report - " +:+ Timestamp report +:+ newline +:+ newline in
  let content := content +:+ ("## Summary" +:+ newline) in
  let content :=
    content +:+ ("- Total Repositories Scanned: " +:+ pretty (TotalRepositories report)
                 +:+ newline) in
  let content :=
    content +:+ ("- Repositories with Conflicts: "
                 +:+ pretty (RepositoriesWithConflicts report) +:+ newline) in
  let content :=
    content +:+ ("- Total Conflicting MRs: " +:+ pretty (TotalConflictingMRs report)
                 +:+ newline +:+ newline) in
  let content := content +:+ ("## Repository Details" +:+ newline +:+ newline) in
  sortedRepos ← sort.Slice nameBefore (Repositories report);
  foldl (λ content repoReport,
           content ← content;
           section ← generateRepositorySection repoReport;
           Some (content +:+ section))
        (Some content) sortedRepos.

(** The loop of [handleFileConflict]; each turn takes one unit of fuel. *)
Fixpoint handleFileConflict_loop (fuel : nat) (dir nameWithoutExt ext : string)
    (counter : Z) : M W string :=
  match fuel with
  | O => λ _, None
  | S fuel' =>
    let newName := nameWithoutExt +:+ "_" +:+ pretty counter +:+ ext in
    let newPath := os.Join filepath dir newName in
    found ← liftCall (os.Stat fs newPath);
    match found with
    | os.NotExist => mret newPath
    | _ => handleFileConflict_loop fuel' dir nameWithoutExt ext (wrap64 (counter + 1))
    end
  end.

Definition handleFileConflict (fuel : nat) (originalPath : string) : M W string :=
  let dir := os.Dir filepath originalPath in
  let ext := os.Ext filepath originalPath in
  let nameWithoutExt := gostrings.TrimSuffix (os.Base filepath originalPath) ext in
  handleFileConflict_loop fuel dir nameWithoutExt ext 1.

(** [GenerateReport] sets the timestamp of the report it is given when it
    is empty: the report is returned with the result. *)
Definition GenerateReport (fuel : nat) (report : Report) (outputDir : string)
    : M W ((error + string) * Report) :=
  timestamp ← liftCall (os.Now fs);
  let filename := "MR-conflict-" +:+ timestamp +:+ ".md" in
  let report :=
    if bool_decide (Timestamp report = "") then
      mkReport timestamp (TotalRepositories report) (RepositoriesWithConflicts report)
        (TotalConflictingMRs report) (Repositories report)
    else report in
  let fullPath := os.Join filepath outputDir filename in
  content ← liftOption (generateMarkdownContent report);
  found ← liftCall (os.Stat fs fullPath);
  fullPath ← (if bool_decide (found = os.Exists) then handleFileConflict fuel fullPath
              else mret fullPath);
  failed ← liftCall (os.MkdirAll fs outputDir 493);
  match failed with
  | Some err => mret (inl ("failed to create output directory: " +:+ err), report)
  | None =>
    failed ← liftCall (os.WriteFile fs fullPath content 420);
    match failed with
    | Some err => mret (inl ("failed to write report file: " +:+ err), report)
    | None => mret (inr fullPath, report)
    end
  end.

End reporter.

End reporter.

(** ** Vocabulary of the properties of the reporter and of the
    configuration *)

(** The path [handleFileConflict] tries at the turn [counter]. *)
Definition candidate (filepath : os.Paths) (originalPath : string) (counter : Z) : string :=
  os.Join filepath (os.Dir filepath originalPath)
    (gostrings.TrimSuffix (os.Base filepath originalPath) (os.Ext filepath originalPath)
     +:+ "_" +:+ pretty counter +:+ os.Ext filepath originalPath).

(** The answers of [os.Stat] do not change with the world: the files are
    those of [files]. *)
Definition stableFiles {W} (fs : os.FileSystem W) (files : string → os.StatResult) : Prop :=
  ∀ path w, (os.Stat fs path w).1 = files path.

(** The comparison [less] of the images under [f]. *)
Definition lessOn {A B} (f : A → B) (less : B → B → bool) (x y : A) : bool :=
  less (f x) (f y).

(** [less] is a strict weak order, what [sort.Slice] asks of the
    comparison it is given: no element is before itself, being before is
    transitive, and so is being neither before nor after. *)
Definition strictWeakOrder {B} (less : B → B → bool) : Prop :=
  (∀ x, less x x = false) ∧
  (∀ x y z, less x y = true → less y z = true → less x z = true) ∧
  (∀ x y z, less x y = false → less z y = true → less z x = true).

(** No element of [l] is before one that precedes it. *)
Definition sortedBy {B} (less : B → B → bool) (l : list B) : Prop :=
  ∀ i j x y, (i ≤ j)%nat → l !! i = Some x → l !! j = Some y → less y x = false.

(** The number of elements of [l] that are before [x]. *)
Definition countBefore {B} (less : B → B → bool) (l : list B) (x : B) : Z :=
  Z.of_nat (length (filter (λ e, less e x = true) l)).

(** The strings of [l], one after the other. *)
Definition concatStrings (l : list string) : string := foldr String.append "" l.

(** The report without its entries, and the entry without its merge
    requests. *)
Definition withoutEntries (r : Report) : Report :=
  mkReport (Timestamp r) (TotalRepositories r) (RepositoriesWithConflicts r)
    (TotalConflictingMRs r) [].

(** ** Samples of what surrounds the pipeline

    A transport that answers every request with the status [status] and a
    body that decodes to nothing; of the changes of a merge request it
    decodes one entry with a blank diff. *)
Definition sampleTransport (status : Z) : net.Transport nat :=
  net.mkTransport nat
    (λ w, (None, S w))
    (λ method url, None)
    (λ method url header w, (inr (net.mkResponse status "[]"), S w))
    (λ resp, inr [])
    (λ resp, inr [])
    (λ resp, inl "EOF")
    (λ resp, inr [net.mkChange false false false "  "])
    (λ s, s)
    (λ s, if bool_decide (s = "  ") then "" else s).

Definition sampleNetClient : net.Client := net.mkClient "https://gitlab.example.com" "secret".

(** A reading of the decimal numbers from 1 to 200. *)
Definition sampleAtoi (s : string) : option Z :=
  snd <$> list_find (λ z : Z, pretty z = s) (seqZ 1 200).

(** The mock server with the three sample repositories, and a client whose
    listing of the repositories is answered by its handler. *)
Definition sampleMock : testing.MockGitLabServer :=
  testing.mkMockGitLabServer sampleRepositories ∅ ∅ false 100.

Definition mockClient : gitlab.Client nat :=
  gitlab.mkClient nat
    (λ page perPage w,
       (match testing.handleRequest sampleAtoi (λ _, None) sampleMock
                (projectsRequest (pretty page)) with
        | Some (testing.Repositories pageRepos) => gitlab.PageOK pageRepos
        | _ => gitlab.RequestFailed "EOF"
        end, S w))
    (λ projectID sourceBranch targetBranch page perPage w,
       (gitlab.RequestFailed "API error 404: ", S w))
    (λ projectID mrID w, (inl "API error 404: ", S w)).

(** A directory [out] in which the report of the instant [now] and its
    first copy exist, and a configuration file. *)
Definition samplePaths : os.Paths :=
  os.mkPaths (λ path, "out") (λ path, ".md") (λ path, "MR-conflict-now.md")
    (λ dir name, dir +:+ "/" +:+ name).

Definition sampleFiles (path : string) : os.StatResult :=
  if bool_decide (path ∈ ["out/MR-conflict-now.md"; "out/MR-conflict-now_1.md";
                          "config.yaml"])
  then os.Exists else os.NotExist.

Definition sampleFileSystem : os.FileSystem nat :=
  os.mkFileSystem nat
    (λ path w, (sampleFiles path, S w))
    (λ path w, (inr "gitlab: {token: secret, url: https://gitlab.example.com}", S w))
    (λ path perm w, (None, S w))
    (λ path data perm w, (None, S w))
    (λ w, ("now", S w)).

Definition sampleUnmarshal (data : string) : error + config.Config :=
  inr (config.mkConfig "secret" "https://gitlab.example.com" []).

Definition sampleFormat (mr : MergeRequest) : string := pretty (mr_CreatedAt mr).

(** A report of two repositories, given out of the order of their names;
    the first is in conflict with two merge requests, given oldest first. *)
Definition namedRepository (id : Z) (name : string) (st : RepositoryStatus) : Repository :=
  mkRepository id name ("https://gitlab.example.com/" +:+ name)
    (mkNamespace 10 "group" "group") st None.

Definition titledMR (id created : Z) (title : string) : MergeRequest :=
  mkMergeRequest id title (mkAuthor "dev" "dev" "") ("https://gitlab.example.com/mr/" +:+ title)
    "release" "master" true created "can_be_merged" "1".

Definition sampleReport : Report :=
  main.buildReport "now"
    [namedRepository 2 "web" StatusConflicts; namedRepository 1 "api" StatusNoMRs]
    {[2 := [titledMR 1 5 "first"; titledMR 2 7 "second"]]}.

(** * Properties *)

(** ** The report counters *)

Section report.

Lemma wrap64_id z : min_int ≤ z ≤ max_int → wrap64 z = z.
Proof.
  unfold wrap64, min_int, max_int. intros Hz.
  rewrite Z.mod_small by lia. lia.
Qed.

Lemma len_nonneg {A} (s : list A) : 0 ≤ len s.
Proof. unfold len. lia. Qed.

Lemma len_app {A} (s t : list A) : len (s ++ t) = len s + len t.
Proof. unfold len. rewrite length_app. lia. Qed.

Lemma sumConflictingMRs_nonneg es : 0 ≤ sumConflictingMRs es.
Proof.
  unfold sumConflictingMRs.
  induction (conflictEntries es) as [|e l IH]; simpl; [lia|].
  pose proof (len_nonneg (rr_ConflictingMRs e)). lia.
Qed.

Lemma conflictEntries_snoc es e :
  conflictEntries (es ++ [e]) =
  conflictEntries es ++ (if bool_decide (rr_Status e = StatusConflicts) then [e] else []).
Proof.
  unfold conflictEntries. rewrite filter_app. f_equal.
  rewrite filter_cons, filter_nil.
  case_bool_decide; case_decide; done.
Qed.

Lemma sum_foldr_app (l1 l2 : list RepositoryReport) :
  foldr (λ e acc, len (rr_ConflictingMRs e) + acc) 0 (l1 ++ l2) =
  foldr (λ e acc, len (rr_ConflictingMRs e) + acc) 0 l1 +
  foldr (λ e acc, len (rr_ConflictingMRs e) + acc) 0 l2.
Proof. induction l1 as [|e l1 IH]; simpl; lia. Qed.

Lemma sumConflictingMRs_snoc es e :
  sumConflictingMRs (es ++ [e]) =
  sumConflictingMRs es +
  (if bool_decide (rr_Status e = StatusConflicts) then len (rr_ConflictingMRs e) else 0).
Proof.
  unfold sumConflictingMRs. rewrite conflictEntries_snoc, sum_foldr_app.
  case_bool_decide; simpl; lia.
Qed.

Lemma countConflictEntries_le es : 0 ≤ countConflictEntries es ≤ countEntries es.
Proof.
  unfold countConflictEntries, countEntries, conflictEntries, len.
  pose proof (length_filter (λ e, rr_Status e = StatusConflicts) es). lia.
Qed.

(** One call keeps the equations, as long as the new exact values are
    still values of an [int]. *)
Lemma AddRepository_consistent r repo mrs status msg :
  consistent r →
  countEntries (Repositories (AddRepository r repo mrs status msg)) ≤ max_int →
  sumConflictingMRs (Repositories (AddRepository r repo mrs status msg)) ≤ max_int →
  consistent (AddRepository r repo mrs status msg).
Proof.
  intros (Ht & Hc & Hs).
  pose proof (countConflictEntries_le (Repositories r)) as Hle.
  pose proof (sumConflictingMRs_nonneg (Repositories r)) as Hs0.
  pose proof (len_nonneg (Repositories r)) as Hn0.
  pose proof (len_nonneg mrs) as Hm0.
  unfold consistent, AddRepository.
  case_bool_decide as Hst; simpl;
    rewrite sumConflictingMRs_snoc; unfold countConflictEntries, countEntries in *;
    rewrite conflictEntries_snoc, !len_app; simpl;
    (rewrite bool_decide_true by done) || (rewrite bool_decide_false by done);
    change (len [_]) with 1; change (len (@nil RepositoryReport)) with 0;
    intros Hn Hsum; rewrite Ht, ?Hc, ?Hs;
    rewrite ?wrap64_id by (unfold min_int, max_int in *; lia);
    split_and!; lia.
Qed.

Lemma wrap64_add_l a b : wrap64 (wrap64 a + b) = wrap64 (a + b).
Proof.
  unfold wrap64. f_equal.
  replace ((a + 2 ^ 63) `mod` 2 ^ 64 - 2 ^ 63 + b + 2 ^ 63)
    with ((a + 2 ^ 63) `mod` 2 ^ 64 + b) by lia.
  rewrite Z.add_mod_idemp_l by lia. f_equal. lia.
Qed.

Lemma AddRepositories_snoc r calls c :
  AddRepositories r (calls ++ [c]) = applyCall (AddRepositories r calls) c.
Proof. unfold AddRepositories. by rewrite foldl_app. Qed.

Lemma Repositories_applyCall r c :
  Repositories (applyCall r c) =
  Repositories r ++
    [mkRepositoryReport (call_repo c) (call_mrs c) (call_status c) (call_errorMsg c)].
Proof. unfold applyCall, AddRepository. by case_bool_decide. Qed.

(** C1. Summary consistency: after any sequence of [AddRepository] calls
    on an empty report, [TotalRepositories] is the number of entries,
    [RepositoriesWithConflicts] the number of entries whose status is
    [StatusConflicts], and [TotalConflictingMRs] the sum of the lengths of
    the conflicting-MR lists of those entries.  The two premises say that
    the number of entries and that sum are values of a Go [int], as the
    length of any slice is. *)
Theorem AddRepository_summary_consistency (ts : string) (calls : list AddCall) :
  countEntries (Repositories (AddRepositories (emptyReport ts) calls)) ≤ max_int →
  sumConflictingMRs (Repositories (AddRepositories (emptyReport ts) calls)) ≤ max_int →
  TotalRepositories (AddRepositories (emptyReport ts) calls) =
    countEntries (Repositories (AddRepositories (emptyReport ts) calls)) ∧
  RepositoriesWithConflicts (AddRepositories (emptyReport ts) calls) =
    countConflictEntries (Repositories (AddRepositories (emptyReport ts) calls)) ∧
  TotalConflictingMRs (AddRepositories (emptyReport ts) calls) =
    sumConflictingMRs (Repositories (AddRepositories (emptyReport ts) calls)).
Proof.
  induction calls as [|c calls IH] using rev_ind.
  - intros _ _. by vm_compute.
  - rewrite AddRepositories_snoc. intros Hn Hsum.
    apply AddRepository_consistent; [|exact Hn|exact Hsum].
    rewrite Repositories_applyCall in Hn, Hsum.
    rewrite sumConflictingMRs_snoc in Hsum.
    unfold countEntries in *. rewrite len_app in Hn. change (len [_]) with 1 in Hn.
    simpl in Hsum. pose proof (len_nonneg (call_mrs c)).
    apply IH; [lia|]. case_bool_decide; lia.
Qed.

(** Without a bound on the report: the counters are the three quantities
    as a 64-bit integer holds them. *)
Lemma AddRepositories_counters_wrap (ts : string) (calls : list AddCall) :
  TotalRepositories (AddRepositories (emptyReport ts) calls) =
    wrap64 (countEntries (Repositories (AddRepositories (emptyReport ts) calls))) ∧
  RepositoriesWithConflicts (AddRepositories (emptyReport ts) calls) =
    wrap64 (countConflictEntries (Repositories (AddRepositories (emptyReport ts) calls))) ∧
  TotalConflictingMRs (AddRepositories (emptyReport ts) calls) =
    wrap64 (sumConflictingMRs (Repositories (AddRepositories (emptyReport ts) calls))).
Proof.
  induction calls as [|c calls (IH1 & IH2 & IH3)] using rev_ind; [by vm_compute|].
  rewrite AddRepositories_snoc, Repositories_applyCall.
  rewrite sumConflictingMRs_snoc. unfold countConflictEntries, countEntries in *.
  rewrite conflictEntries_snoc, !len_app. simpl.
  unfold applyCall, AddRepository.
  case_bool_decide as Hst; simpl; rewrite IH1, ?IH2, ?IH3, ?wrap64_add_l;
    change (len [_]) with 1; change (len (@nil RepositoryReport)) with 0;
    rewrite ?Z.add_0_r; done.
Qed.

End report.

(** ** [sort.Slice] sorts

    Every function of the model of [sort/zsortfunc.go] is given a
    specification: it returns (no index leaves the slice, the fuel is
    enough), it only rearranges the elements of the range it is called on,
    and it establishes what the quicksort loop relies on. *)

Import sort.

Local Open Scope nat_scope.

(** *** Results of computations that may have none *)

Lemma ok_Some {X} (x : X) (Q : X → Prop) : Q x → ok (Some x) Q.
Proof. done. Qed.

Lemma ok_bind {X Y} (m : option X) (k : X → option Y) (Q : Y → Prop) :
  ok m (λ x, ok (k x) Q) → ok (m ≫= k) Q.
Proof. by destruct m. Qed.

Lemma ok_mono {X} (m : option X) (P Q : X → Prop) :
  ok m P → (∀ x, P x → Q x) → ok m Q.
Proof. destruct m; simpl; auto. Qed.

Lemma ok_inv {X} (m : option X) (Q : X → Prop) :
  ok m Q → ∃ x, m = Some x ∧ Q x.
Proof. destruct m; simpl; [eauto|done]. Qed.

Lemma ok_intro {X} (m : option X) (Q : X → Prop) x :
  m = Some x → Q x → ok m Q.
Proof. by intros ->. Qed.

Lemma ok_fmap {X Y} (f : X → Y) (m : option X) (Q : Y → Prop) :
  ok m (λ x, Q (f x)) → ok (f <$> m) Q.
Proof. by destruct m. Qed.

Section sorting.
Context {A : Type} (rank : A → Z) (less : A → A → bool).
Context (Hless : ∀ x y, less x y = bool_decide (rank x < rank y)%Z).

Local Abbreviation rk := (rk rank).
Local Abbreviation sorted_range := (sorted_range rank).
Local Abbreviation heap := (heap rank).
Local Abbreviation lower := (lower rank).

Lemma within_refl a b (data : list A) : within a b data data.
Proof. done. Qed.

Lemma within_trans a b (d1 d2 d3 : list A) : within a b d1 d2 → within a b d2 d3 → within a b d1 d3.
Proof.
  intros (Hl1 & Ho1 & Hp1) (Hl2 & Ho2 & Hp2). split_and!.
  - congruence.
  - intros k Hk. rewrite Ho2, Ho1; done.
  - by etrans.
Qed.

Lemma within_weaken a b a' b' (d1 d2 : list A) :
  a' ≤ a → b ≤ b' → within a b d1 d2 → within a' b' d1 d2.
Proof.
  intros Ha Hb (Hl & Ho & Hp). split_and!; [done| |done].
  intros k Hk. apply Ho. lia.
Qed.

Lemma within_length a b (d1 d2 : list A) : within a b d1 d2 → length d2 = length d1.
Proof. by intros (? & _). Qed.

Lemma within_rk_outside a b d1 d2 k :
  within a b d1 d2 → k < a ∨ b ≤ k → rk d2 k = rk d1 k.
Proof. intros (_ & Ho & _) Hk. unfold rk. by rewrite Ho. Qed.

Lemma Less_ok data i j :
  i < length data → j < length data →
  Less less data i j = Some (bool_decide (rk data i < rk data j)%Z).
Proof.
  intros Hi Hj. unfold Less, rk.
  destruct (lookup_lt_is_Some_2 data i Hi) as [x ->].
  destruct (lookup_lt_is_Some_2 data j Hj) as [y ->].
  simpl. by rewrite Hless.
Qed.

Lemma insert_Permutation (l : list A) j y z :
  l !! j = Some y → y :: <[j:=z]> l ≡ₚ z :: l.
Proof.
  revert j. induction l as [|u l IH]; intros [|j] Hj; simplify_eq/=.
  - apply perm_swap.
  - rewrite perm_swap, (IH _ Hj). apply perm_swap.
Qed.

Lemma swap_Permutation (data : list A) i j x y :
  data !! i = Some x → data !! j = Some y →
  <[i:=y]> (<[j:=x]> data) ≡ₚ data.
Proof.
  revert i j. induction data as [|z data IH]; intros [|i] [|j] Hi Hj; simplify_eq/=.
  - done.
  - by apply insert_Permutation.
  - by apply insert_Permutation.
  - f_equiv. by apply IH.
Qed.

Lemma Swap_ok data i j a b :
  a ≤ i → i < b → a ≤ j → j < b → b ≤ length data →
  ok (Swap data i j) (λ data',
    within a b data data' ∧
    ∀ k, rk data' k = if decide (k = i) then rk data j
                      else if decide (k = j) then rk data i else rk data k).
Proof.
  intros Hai Hib Haj Hjb Hb. unfold Swap.
  destruct (lookup_lt_is_Some_2 data i ltac:(lia)) as [x Hx].
  destruct (lookup_lt_is_Some_2 data j ltac:(lia)) as [y Hy].
  rewrite Hx, Hy. simpl. split.
  - split_and!.
    + by rewrite !length_insert.
    + intros k Hk. rewrite !list_lookup_insert_ne by lia. done.
    + by apply swap_Permutation.
  - intros k. unfold rk. case_decide as Hki; [subst k|].
    + rewrite list_lookup_insert_eq by (rewrite length_insert; lia). by rewrite Hy.
    + rewrite list_lookup_insert_ne by done. case_decide as Hkj; [subst k|].
      * rewrite list_lookup_insert_eq by lia. by rewrite Hx.
      * by rewrite list_lookup_insert_ne.
Qed.


Lemma within_slice a b (d d' : list A) :
  within a b d d' → a ≤ b → b ≤ length d →
  take (b - a) (drop a d') ≡ₚ take (b - a) (drop a d).
Proof.
  intros (Hl & Ho & Hp) Hab Hb.
  assert (take a d' = take a d) as Htake.
  { apply list_eq. intros k. destruct (decide (k < a)).
    - rewrite !lookup_take_lt by done. apply Ho. lia.
    - rewrite !lookup_take_ge by lia. done. }
  assert (drop b d' = drop b d) as Hdrop.
  { apply list_eq. intros k. rewrite !lookup_drop. apply Ho. lia. }
  rewrite <-(take_drop a d'), <-(take_drop a d) in Hp.
  rewrite Htake in Hp. apply Permutation_app_inv_l in Hp.
  rewrite <-(take_drop (b - a) (drop a d')), <-(take_drop (b - a) (drop a d)) in Hp.
  rewrite !drop_drop in Hp.
  replace (a + (b - a)) with b in Hp by lia.
  rewrite Hdrop in Hp. by apply Permutation_app_inv_r in Hp.
Qed.

(** An element found in the range after a rearrangement was in the range
    before it. *)
Lemma within_inside a b (d d' : list A) i :
  within a b d d' → b ≤ length d → a ≤ i → i < b →
  ∃ k, a ≤ k ∧ k < b ∧ d' !! i = d !! k.
Proof.
  intros Hw Hb Hai Hib.
  pose proof (within_slice a b d d' Hw ltac:(lia) Hb) as Hp.
  pose proof (within_length _ _ _ _ Hw) as Hl.
  destruct (lookup_lt_is_Some_2 d' i ltac:(lia)) as [x Hx].
  assert (x ∈ take (b - a) (drop a d')) as Hin.
  { apply list_elem_of_lookup. exists (i - a).
    rewrite lookup_take_lt by lia. rewrite lookup_drop.
    by replace (a + (i - a)) with i by lia. }
  rewrite Hp in Hin. apply list_elem_of_lookup in Hin as [k Hk].
  assert (k < b - a) as Hkb.
  { apply lookup_lt_Some in Hk. rewrite length_take in Hk. lia. }
  rewrite lookup_take_lt, lookup_drop in Hk by done.
  exists (a + k). split_and!; [lia|lia|congruence].
Qed.

Lemma within_bound (P : Z → Prop) a b d d' :
  within a b d d' → b ≤ length d →
  (∀ k, a ≤ k → k < b → P (rk d k)) →
  ∀ i, a ≤ i → i < b → P (rk d' i).
Proof.
  intros Hw Hb HP i Hai Hib.
  destruct (within_inside a b d d' i Hw Hb Hai Hib) as (k & Hak & Hkb & Hk).
  unfold rk. rewrite Hk. by apply HP.
Qed.

Lemma sorted_range_weaken data a b a' b' :
  a ≤ a' → b' ≤ b → sorted_range data a b → sorted_range data a' b'.
Proof. intros Ha Hb Hs i j ???. apply Hs; lia. Qed.

Lemma for_up_ok {S} (Inv : nat → S → Prop) n i body s :
  Inv i s →
  (∀ k s, i ≤ k → k < i + n → Inv k s → ok (body k s) (Inv (Datatypes.S k))) →
  ok (for_up n i body s) (Inv (i + n)).
Proof.
  revert i s. induction n as [|n IH]; intros i s Hi Hbody; simpl.
  - by replace (i + 0) with i by lia.
  - apply ok_bind. eapply ok_mono; [apply Hbody; [lia|lia|done]|].
    intros s' Hs'. replace (i + Datatypes.S n) with (Datatypes.S i + n) by lia.
    apply IH; [done|]. intros k s'' ??. apply Hbody; lia.
Qed.

Lemma for_down_ok {S} (Inv : nat → S → Prop) n body s :
  Inv n s →
  (∀ k s, k < n → Inv (Datatypes.S k) s → ok (body k s) (Inv k)) →
  ok (for_down n body s) (Inv 0).
Proof.
  revert s. induction n as [|n IH]; intros s Hi Hbody; simpl; [done|].
  apply ok_bind. eapply ok_mono; [apply Hbody; [lia|done]|].
  intros s' Hs'. apply IH; [done|]. intros k s'' ?. apply Hbody; lia.
Qed.

(** *** Insertion sort *)

Lemma insertionSort_shift_ok data a i j :
  a ≤ j → j ≤ i → i < length data →
  sorted_range data a j →
  sorted_range data j (i + 1) →
  (∀ p q, a ≤ p → p < j → j < q → q ≤ i → (rk data p ≤ rk data q)%Z) →
  ok (insertionSort_shift less data a j) (λ data',
    within a (i + 1) data data' ∧ sorted_range data' a (i + 1)).
Proof.
  revert data. induction j as [|j IH]; intros data Haj Hji Hi Hs1 Hs2 Hs3; simpl.
  - split; [done|]. intros p q ???. apply Hs2; lia.
  - case_decide as Ha.
    + rewrite Less_ok by lia. simpl. case_bool_decide as Hlt.
      * apply ok_bind.
        eapply ok_mono; [apply (Swap_ok data (S j) j a (i + 1)); lia|].
        intros data1 (Hw & Hrk).
        pose proof (within_length _ _ _ _ Hw) as Hl.
        eapply ok_mono; [apply IH; [lia|lia|lia|..]|].
        -- intros p q ???. rewrite !Hrk. repeat case_decide; try lia. apply Hs1; lia.
        -- intros p q ???. rewrite !Hrk. repeat case_decide; try lia.
           ++ apply Hs3; lia.
           ++ apply Hs2; lia.
           ++ apply Hs2; lia.
        -- intros p q ????. rewrite !Hrk. repeat case_decide; try lia.
           ++ apply Hs1; lia.
           ++ apply Hs3; lia.
        -- intros data2 (Hw2 & Hs). split; [|done]. by eapply within_trans.
      * split; [done|]. intros p q ???.
        destruct (decide (q ≤ j)); [apply Hs1; lia|].
        destruct (decide (S j ≤ p)); [apply Hs2; lia|].
        destruct (decide (q = S j)) as [->|].
        -- trans (rk data j); [apply Hs1; lia|lia].
        -- apply Hs3; lia.
    + assert (a = S j) as -> by lia. split; [done|]. done.
Qed.

Lemma insertionSort_func_ok data a b :
  a ≤ b → b ≤ length data →
  ok (insertionSort_func less data a b) (λ data',
    within a b data data' ∧ sorted_range data' a b).
Proof.
  intros Hab Hb. unfold insertionSort_func.
  eapply ok_mono.
  - apply (for_up_ok (λ k d, within a b data d ∧ sorted_range d a (k `min` b))).
    + split; [done|]. intros p q ???.
      assert (p = q) as -> by lia. done.
    + intros k d Hk1 Hk2 (Hw & Hs).
      pose proof (within_length _ _ _ _ Hw) as Hl.
      eapply ok_mono; [apply (insertionSort_shift_ok d a k k); try lia|].
      * by replace (k `min` b) with k in Hs by lia.
      * intros p q ???. assert (p = q) as -> by lia. done.
      * intros d' (Hw' & Hs'). split.
        -- eapply within_trans; [done|]. eapply within_weaken; [..|done]; lia.
        -- by replace (S k `min` b) with (k + 1) by lia.
  - intros d (Hw & Hs). split; [done|].
    eapply sorted_range_weaken; [..|done]; lia.
Qed.


(** *** The scans of the partitioning loops *)

Lemma skip_up_ok n p (f : nat → bool) i :
  (∀ k, i ≤ k → k < i + n → p k = Some (f k)) →
  ok (skip_up n p i) (λ i',
    i ≤ i' ∧ i' ≤ i + n ∧ (∀ k, i ≤ k → k < i' → f k = true) ∧
    (i' < i + n → f i' = false)).
Proof.
  revert i. induction n as [|n IH]; intros i Hp; simpl.
  - split_and!; [lia|lia|intros; lia|lia].
  - rewrite Hp by lia. simpl. destruct (f i) eqn:Hfi.
    + eapply ok_mono; [apply IH; intros; apply Hp; lia|].
      intros i' (H1 & H2 & H3 & H4). split_and!; [lia|lia| |intros; apply H4; lia].
      intros k ??. destruct (decide (k = i)) as [->|]; [done|]. apply H3; lia.
    + split_and!; [lia|lia|intros; lia|done].
Qed.

Lemma skip_down_ok n p (f : nat → bool) j :
  n ≤ j →
  (∀ k, j - n < k → k ≤ j → p k = Some (f k)) →
  ok (skip_down n p j) (λ j',
    j - n ≤ j' ∧ j' ≤ j ∧ (∀ k, j' < k → k ≤ j → f k = true) ∧
    (j - n < j' → f j' = false)).
Proof.
  revert j. induction n as [|n IH]; intros j Hn Hp; simpl.
  - split_and!; [lia|lia|intros; lia|lia].
  - rewrite Hp by lia. simpl. destruct (f j) eqn:Hfj.
    + eapply ok_mono; [apply IH; [lia|intros; apply Hp; lia]|].
      intros j' (H1 & H2 & H3 & H4). split_and!; [lia|lia| |intros; apply H4; lia].
      intros k ??. destruct (decide (k = j)) as [->|]; [done|]. apply H3; lia.
    + split_and!; [lia|lia|intros; lia|done].
Qed.

(** *** Partitioning around a pivot *)

Lemma partition_loop_ok fuel data a b i j :
  a < i → i ≤ j + 1 → j < b → b ≤ length data → j + 1 - i < fuel →
  (∀ k, a < k → k < i → (rk data k < rk data a)%Z) →
  (∀ k, j < k → k < b → (rk data a ≤ rk data k)%Z) →
  ok (partition_loop less fuel data a i j) (λ '(data', mid),
    within (a + 1) b data data' ∧ a ≤ mid ∧ mid < b ∧
    (∀ k, a < k → k ≤ mid → (rk data' k < rk data a)%Z) ∧
    (∀ k, mid < k → k < b → (rk data a ≤ rk data' k)%Z)).
Proof.
  revert data i j. induction fuel as [|fuel IH]; intros data i j Hai Hij Hjb Hb Hfuel H1 H2;
    [lia|simpl].
  apply ok_bind. eapply ok_mono.
  { apply (skip_up_ok _ _ (λ k, bool_decide (rk data k < rk data a)%Z)).
    intros k ??. apply Less_ok; lia. }
  intros i' (Hi1 & Hi2 & Hi3 & Hi4). simpl.
  apply ok_bind. eapply ok_mono.
  { apply (skip_down_ok _ _ (λ k, negb (bool_decide (rk data k < rk data a)%Z))); [lia|].
    intros k ??. rewrite Less_ok by lia. done. }
  intros j' (Hj1 & Hj2 & Hj3 & Hj4). simpl.
  assert (∀ k, a < k → k < i' → (rk data k < rk data a)%Z) as H1'.
  { intros k ??. destruct (decide (k < i)); [by apply H1|].
    specialize (Hi3 k ltac:(lia) ltac:(lia)). by apply bool_decide_eq_true in Hi3. }
  assert (∀ k, j' < k → k < b → (rk data a ≤ rk data k)%Z) as H2'.
  { intros k ??. destruct (decide (j < k)); [by apply H2|].
    specialize (Hj3 k ltac:(lia) ltac:(lia)).
    apply negb_true_iff, bool_decide_eq_false in Hj3. lia. }
  destruct (decide (j' < i')) as [Hbreak|Hbreak].
  - simpl. split; [apply within_refl|]. split; [lia|]. split; [lia|]. split; [|done].
    intros k ??. apply H1'; lia.
  - assert (i' < i + (j + 1 - i)) as Hlt by lia.
    specialize (Hi4 Hlt). apply bool_decide_eq_false in Hi4.
    assert (j - (j + 1 - i') < j') as Hlt' by lia.
    specialize (Hj4 Hlt'). apply negb_false_iff, bool_decide_eq_true in Hj4.
    assert (i' < j') as Hij' by (destruct (decide (i' = j')); [subst; lia|lia]).
    apply ok_bind. eapply ok_mono; [apply (Swap_ok data i' j' (a + 1) b); lia|].
    intros data1 (Hw & Hrk).
    pose proof (within_length _ _ _ _ Hw) as Hl.
    assert (rk data1 a = rk data a) as Hpa.
    { rewrite Hrk. repeat case_decide; try lia; done. }
    eapply ok_mono; [apply IH; try lia|].
    + intros k ??. rewrite Hpa, Hrk. repeat case_decide; try lia. apply H1'; lia.
    + intros k ??. rewrite Hpa, Hrk. repeat case_decide; try lia. apply H2'; lia.
    + intros [data2 mid] (Hw2 & Hm1 & Hm2 & Hm3 & Hm4).
      rewrite Hpa in *. split; [by eapply within_trans|]. done.
Qed.

(** The first turn of the loop of [partition_func] is written out in the
    source; apart from the flag it returns, the function is the loop
    followed by the swap that puts the pivot in place. *)
Lemma partition_loop_S fuel data a i j :
  partition_loop less (S fuel) data a i j =
  (i ← skip_up (j + 1 - i) (λ i, Less less data i a) i;
   j ← skip_down (j + 1 - i) (λ j, negb <$> Less less data j a) j;
   if decide (j < i) then Some (data, j)
   else data ← Swap data i j; partition_loop less fuel data a (i + 1) (j - 1)).
Proof. reflexivity. Qed.

Lemma partition_func_unroll data a b pivot :
  (λ r, (r.1.1, r.1.2)) <$> partition_func less data a b pivot =
  Swap data a pivot ≫= λ data0,
    partition_loop less (S (S (b - a))) data0 a (a + 1) (b - 1) ≫= λ '(d, j),
      Swap d j a ≫= λ d', Some (d', j).
Proof.
  unfold partition_func.
  destruct (Swap data a pivot) as [data0|]; [|done].
  cbn [mbind option_bind]. rewrite partition_loop_S.
  generalize (partition_loop less (S (b - a))). intros loop.
  destruct (skip_up _ _ _) as [i|]; simpl; [|done].
  destruct (skip_down _ _ _) as [j|]; simpl; [|done].
  destruct (decide (j < i)); simpl.
  - by destruct (Swap data0 j a).
  - destruct (Swap data0 i j) as [data1|]; simpl; [|done].
    destruct (loop _ _ _ _) as [[d m]|]; simpl; [|done].
    by destruct (Swap d m a).
Qed.

Lemma ok_fmap_inv {X Y} (f : X → Y) (m : option X) (Q : Y → Prop) :
  ok (f <$> m) Q → ok m (λ x, Q (f x)).
Proof. by destruct m. Qed.

Lemma partition_func_ok data a b pivot :
  a ≤ pivot → pivot < b → b ≤ length data →
  ok (partition_func less data a b pivot) (λ '(data', mid, _),
    within a b data data' ∧ a ≤ mid ∧ mid < b ∧
    (∀ k, a ≤ k → k < mid → (rk data' k < rk data' mid)%Z) ∧
    (∀ k, mid < k → k < b → (rk data' mid ≤ rk data' k)%Z)).
Proof.
  intros Hap Hpb Hb.
  eapply ok_mono.
  { apply (ok_fmap_inv (λ r, (r.1.1, r.1.2)) _ (λ '(data', mid),
      within a b data data' ∧ a ≤ mid ∧ mid < b ∧
      (∀ k, a ≤ k → k < mid → (rk data' k < rk data' mid)%Z) ∧
      (∀ k, mid < k → k < b → (rk data' mid ≤ rk data' k)%Z))).
    rewrite partition_func_unroll.
    apply ok_bind. eapply ok_mono; [apply (Swap_ok data a pivot a b); lia|].
    intros data0 (Hw0 & _).
    pose proof (within_length _ _ _ _ Hw0) as Hl0.
    apply ok_bind. eapply ok_mono.
    { apply (partition_loop_ok _ data0 a b); try lia; intros; lia. }
    intros [d mid] (Hw & Hm1 & Hm2 & Hm3 & Hm4).
    pose proof (within_length _ _ _ _ Hw) as Hl.
    assert (rk d a = rk data0 a) as Hpa by (eapply within_rk_outside; [done|lia]).
    apply ok_bind. eapply ok_mono; [apply (Swap_ok d mid a a b); lia|].
    intros data' (Hw' & Hrk). simpl. split; [|split; [done|split; [done|split]]].
    - eapply within_trans; [done|]. eapply within_trans; [|done].
      eapply within_weaken; [..|done]; lia.
    - intros k ??. rewrite !Hrk. repeat case_decide; try lia; rewrite <-?Hpa in *;
        apply Hm3; lia.
    - intros k ??. rewrite !Hrk. repeat case_decide; try lia; rewrite <-?Hpa in *;
        apply Hm4; lia. }
  intros [[d mid] flag]. done.
Qed.

(** *** Partitioning into the elements equal to the pivot and the others *)

Lemma partitionEqual_loop_ok fuel data a b i j :
  a < i → i ≤ j + 1 → j < b → b ≤ length data → j + 1 - i < fuel →
  (∀ k, a < k → k < i → (rk data k ≤ rk data a)%Z) →
  (∀ k, j < k → k < b → (rk data a < rk data k)%Z) →
  ok (partitionEqual_loop less fuel data a i j) (λ '(data', mid),
    within (a + 1) b data data' ∧ a < mid ∧ mid ≤ b ∧
    (∀ k, a < k → k < mid → (rk data' k ≤ rk data a)%Z) ∧
    (∀ k, mid ≤ k → k < b → (rk data a < rk data' k)%Z)).
Proof.
  revert data i j. induction fuel as [|fuel IH]; intros data i j Hai Hij Hjb Hb Hfuel H1 H2;
    [lia|simpl].
  apply ok_bind. eapply ok_mono.
  { apply (skip_up_ok _ _ (λ k, negb (bool_decide (rk data a < rk data k)%Z))).
    intros k ??. rewrite Less_ok by lia. done. }
  intros i' (Hi1 & Hi2 & Hi3 & Hi4). simpl.
  apply ok_bind. eapply ok_mono.
  { apply (skip_down_ok _ _ (λ k, bool_decide (rk data a < rk data k)%Z)); [lia|].
    intros k ??. apply Less_ok; lia. }
  intros j' (Hj1 & Hj2 & Hj3 & Hj4). simpl.
  assert (∀ k, a < k → k < i' → (rk data k ≤ rk data a)%Z) as H1'.
  { intros k ??. destruct (decide (k < i)); [by apply H1|].
    specialize (Hi3 k ltac:(lia) ltac:(lia)).
    apply negb_true_iff, bool_decide_eq_false in Hi3. lia. }
  assert (∀ k, j' < k → k < b → (rk data a < rk data k)%Z) as H2'.
  { intros k ??. destruct (decide (j < k)); [by apply H2|].
    specialize (Hj3 k ltac:(lia) ltac:(lia)). by apply bool_decide_eq_true in Hj3. }
  destruct (decide (j' < i')) as [Hbreak|Hbreak].
  - simpl. split; [apply within_refl|]. split; [lia|]. split; [lia|]. split; [done|].
    intros k ??. apply H2'; lia.
  - assert (i' < i + (j + 1 - i)) as Hlt by lia.
    specialize (Hi4 Hlt). apply negb_false_iff, bool_decide_eq_true in Hi4.
    assert (j - (j + 1 - i') < j') as Hlt' by lia.
    specialize (Hj4 Hlt'). apply bool_decide_eq_false in Hj4.
    assert (i' < j') as Hij' by (destruct (decide (i' = j')); [subst; lia|lia]).
    apply ok_bind. eapply ok_mono; [apply (Swap_ok data i' j' (a + 1) b); lia|].
    intros data1 (Hw & Hrk).
    pose proof (within_length _ _ _ _ Hw) as Hl.
    assert (rk data1 a = rk data a) as Hpa.
    { rewrite Hrk. repeat case_decide; try lia; done. }
    eapply ok_mono; [apply IH; try lia|].
    + intros k ??. rewrite Hpa, Hrk. repeat case_decide; try lia. apply H1'; lia.
    + intros k ??. rewrite Hpa, Hrk. repeat case_decide; try lia. apply H2'; lia.
    + intros [data2 mid] (Hw2 & Hm1 & Hm2 & Hm3 & Hm4).
      rewrite Hpa in *. split; [by eapply within_trans|]. done.
Qed.

Lemma partitionEqual_func_ok data a b pivot :
  a ≤ pivot → pivot < b → b ≤ length data →
  (∀ k, a ≤ k → k < b → (rk data pivot ≤ rk data k)%Z) →
  ok (partitionEqual_func less data a b pivot) (λ '(data', mid),
    within a b data data' ∧ a < mid ∧ mid ≤ b ∧
    (∀ k, a ≤ k → k < mid → rk data' k = rk data pivot) ∧
    (∀ k, mid ≤ k → k < b → (rk data pivot < rk data' k)%Z)).
Proof.
  intros Hap Hpb Hb Hmin. unfold partitionEqual_func.
  apply ok_bind. eapply ok_mono; [apply (Swap_ok data a pivot a b); lia|].
  intros data0 (Hw0 & Hrk0).
  pose proof (within_length _ _ _ _ Hw0) as Hl0.
  assert (rk data0 a = rk data pivot) as Hpa.
  { rewrite Hrk0. by rewrite decide_True. }
  eapply ok_mono.
  { apply (partitionEqual_loop_ok _ data0 a b); try lia; intros; lia. }
  intros [d mid] (Hw & Hm1 & Hm2 & Hm3 & Hm4).
  rewrite Hpa in *. split; [|split; [done|split; [done|split; [|done]]]].
  - eapply within_trans; [done|]. eapply within_weaken; [..|done]; lia.
  - assert (within a b data d) as Hwd.
    { eapply within_trans; [done|]. eapply within_weaken; [..|done]; lia. }
    intros k ??.
    pose proof (within_bound (λ r, rk data pivot ≤ r)%Z a b data d Hwd Hb Hmin k
                  ltac:(lia) ltac:(lia)) as Hge.
    destruct (decide (k = a)) as [->|].
    + rewrite (within_rk_outside _ _ _ _ _ Hw) by lia. done.
    + specialize (Hm3 k ltac:(lia) ltac:(lia)). simpl in Hge. lia.
Qed.


(** *** Heap sort *)

Lemma siftDown_func_S fuel data root hi first :
  siftDown_func less (S fuel) data root hi first =
  if decide (hi ≤ 2 * root + 1) then Some data
  else
    child ← (if decide (2 * root + 1 + 1 < hi) then
               lt ← Less less data (first + (2 * root + 1)) (first + (2 * root + 1) + 1);
               Some (if lt : bool then 2 * root + 1 + 1 else 2 * root + 1)
             else Some (2 * root + 1));
    lt ← Less less data (first + root) (first + child);
    if negb lt then Some data
    else data ← Swap data (first + root) (first + child);
         siftDown_func less fuel data child hi first.
Proof. reflexivity. Qed.

Lemma siftDown_func_ok fuel data root hi first lo :
  lo ≤ root → first + hi ≤ length data → hi - root < fuel →
  (∀ i c, lo ≤ i → i ≠ root → c < hi → child c i →
     (rk data (first + c) ≤ rk data (first + i))%Z) →
  (∀ g c, lo ≤ g → child root g → c < hi → child c root →
     (rk data (first + c) ≤ rk data (first + g))%Z) →
  ok (siftDown_func less fuel data root hi first) (λ data',
    within first (first + hi) data data' ∧ heap data' first lo hi).
Proof.
  revert data root.
  induction fuel as [|fuel IH]; intros data root Hlo Hlen Hfuel Hother Hparent; [lia|].
  rewrite siftDown_func_S. destruct (decide (hi ≤ 2 * root + 1)) as [Hleaf|Hinner].
  { simpl. split; [apply within_refl|]. intros i c Hi Hc Hch.
    destruct (decide (i = root)) as [->|]; [unfold child in Hch; lia|].
    by apply Hother. }
  apply ok_bind.
  apply (ok_intro _ _
    (if decide (2 * root + 1 + 1 < hi)
     then (if bool_decide (rk data (first + (2 * root + 1)) < rk data (first + (2 * root + 1) + 1))%Z
           then 2 * root + 1 + 1 else 2 * root + 1)
     else 2 * root + 1)).
  { destruct (decide (2 * root + 1 + 1 < hi)); [|done].
    rewrite Less_ok by lia. done. }
  set (big := if decide (2 * root + 1 + 1 < hi) then _ else _).
  assert (child big root ∧ big < hi ∧
          ∀ c, c < hi → child c root → (rk data (first + c) ≤ rk data (first + big))%Z)
    as (Hbig1 & Hbig2 & Hbig3).
  { subst big. unfold child.
    destruct (decide (2 * root + 1 + 1 < hi)); [case_bool_decide|].
    - split; [lia|]. split; [lia|]. intros c ? [->| ->];
        replace (first + (2 * root + 1) + 1) with (first + (2 * root + 2)) in * by lia;
        replace (first + (2 * root + 1 + 1)) with (first + (2 * root + 2)) by lia; lia.
    - split; [lia|]. split; [lia|]. intros c ? [->| ->];
        replace (first + (2 * root + 1) + 1) with (first + (2 * root + 2)) in * by lia; lia.
    - split; [lia|]. split; [lia|]. intros c ? [->| ->]; lia. }
  clearbody big.
  rewrite Less_ok by lia. simpl.
  destruct (bool_decide (rk data (first + root) < rk data (first + big))%Z) eqn:Hlt; simpl.
  - apply bool_decide_eq_true in Hlt.
    apply ok_bind.
    eapply ok_mono; [apply (Swap_ok data (first + root) (first + big) first (first + hi)); lia|].
    intros data1 (Hw & Hrk).
    pose proof (within_length _ _ _ _ Hw) as Hl.
    assert (root < big) as Hrb by (unfold child in Hbig1; lia).
    eapply ok_mono; [apply (IH data1 big); try lia|].
    + intros i c Hi Hne Hc Hch. rewrite !Hrk.
      destruct (decide (i = root)) as [->|Hir].
      * rewrite (decide_False (P := first + c = first + root))
          by (unfold child in Hch; lia).
        rewrite (decide_True (P := first + root = first + root)) by done.
        destruct (decide (first + c = first + big)); [lia|]. by apply Hbig3.
      * rewrite (decide_False (P := first + i = first + root)) by lia.
        rewrite (decide_False (P := first + i = first + big)) by lia.
        destruct (decide (first + c = first + root)) as [Hcr|].
        { assert (c = root) as -> by lia. trans (rk data (first + big))%Z; [|].
          - done.
          - apply Hparent; auto. }
        destruct (decide (first + c = first + big)) as [Hcb|].
        { assert (c = big) as -> by lia. unfold child in *. lia. }
        by apply Hother.
    + intros g c Hg Hgb Hc Hch. rewrite !Hrk.
      assert (g = root) as -> by (unfold child in *; lia).
      rewrite (decide_True (P := first + root = first + root)) by done.
      rewrite (decide_False (P := first + c = first + root)) by (unfold child in *; lia).
      rewrite (decide_False (P := first + c = first + big)) by (unfold child in *; lia).
      apply Hother; [lia|lia|done|done].
    + intros data2 (Hw2 & Hheap). split; [by eapply within_trans|done].
  - apply bool_decide_eq_false in Hlt. simpl. split; [apply within_refl|].
    intros i c Hi Hc Hch.
    destruct (decide (i = root)) as [->|]; [|by apply Hother].
    specialize (Hbig3 c Hc Hch). lia.
Qed.

Lemma heap_max data first hi k :
  heap data first 0 hi → k < hi → (rk data (first + k) ≤ rk data (first + 0))%Z.
Proof.
  intros Hheap. induction k as [k IH] using lt_wf_ind. intros Hk.
  destruct (decide (k = 0)) as [->|]; [done|].
  trans (rk data (first + (k - 1) / 2)).
  - apply Hheap; [lia|done|]. unfold child.
    pose proof (Nat.div_mod_eq (k - 1) 2) as Hdm.
    pose proof (Nat.mod_upper_bound (k - 1) 2 ltac:(lia)). lia.
  - pose proof (Nat.div_mod_eq (k - 1) 2) as Hdm. apply IH; lia.
Qed.

Lemma heapSort_func_ok data a b :
  a ≤ b → b ≤ length data →
  ok (heapSort_func less data a b) (λ data',
    within a b data data' ∧ sorted_range data' a b).
Proof.
  intros Hab Hb. unfold heapSort_func.
  set (hi := b - a).
  apply ok_bind. eapply ok_mono.
  { apply (for_down_ok (λ k d, within a b data d ∧ heap d a k hi)).
    - split; [apply within_refl|]. intros i c Hi Hc Hch. exfalso.
      pose proof (Nat.div_mod_eq (hi - 1) 2) as Hdm.
      pose proof (Nat.mod_upper_bound (hi - 1) 2 ltac:(lia)).
      unfold child in Hch. lia.
    - intros k d Hk (Hw & Hheap).
      pose proof (within_length _ _ _ _ Hw) as Hl.
      eapply ok_mono.
      { apply (siftDown_func_ok _ d k hi a k); try lia.
        - intros i c ?? Hc Hch. apply Hheap; [lia|done|done].
        - intros g c ? Hch. unfold child in Hch. lia. }
      intros d' (Hw' & Hheap'). split; [|done].
      eapply within_trans; [done|]. eapply within_weaken; [..|done]; lia. }
  intros data1 (Hw1 & Hheap1).
  eapply ok_mono.
  { apply (for_down_ok (λ k d,
      within a b data1 d ∧ heap d a 0 k ∧ sorted_range d (a + k) b ∧
      (∀ p q, p < k → k ≤ q → q < hi → (rk d (a + p) ≤ rk d (a + q))%Z))).
    - split; [apply within_refl|]. split; [done|]. split.
      + intros p q ???. lia.
      + intros p q ???. lia.
    - intros k d Hk (Hw & Hheap & Hsorted & Hcross).
      pose proof (within_length _ _ _ _ Hw) as Hl.
      pose proof (within_length _ _ _ _ Hw1) as Hl1.
      apply ok_bind.
      eapply ok_mono; [apply (Swap_ok d a (a + k) a b); lia|].
      intros d1 (Hwd1 & Hrk).
      pose proof (within_length _ _ _ _ Hwd1) as Hld1.
      assert (∀ p, p < S k → (rk d (a + p) ≤ rk d (a + 0))%Z) as Hmax.
      { intros p Hp. by apply (heap_max d a (S k)). }
      replace (a + 0) with a in Hmax by lia.
      (* what holds after the swap, before the heap is repaired *)
      assert (sorted_range d1 (a + k) b) as Hsorted1.
      { intros p q ???. rewrite !Hrk.
        destruct (decide (k = 0)) as [->|Hk0].
        - replace (a + 0) with a in * by lia.
          destruct (decide (p = a)) as [->|]; destruct (decide (q = a)) as [->|];
            try lia.
          + replace q with (a + (q - a)) by lia.
            replace a with (a + 0) at 1 by lia. apply Hcross; lia.
          + apply Hsorted; lia.
        - destruct (decide (p = a)); [lia|]. destruct (decide (q = a)); [lia|].
          destruct (decide (q = a + k)) as [->|].
          + assert (p = a + k) as -> by lia. rewrite decide_True by done. done.
          + destruct (decide (p = a + k)) as [->|]; [|apply Hsorted; lia].
            replace q with (a + (q - a)) by lia.
            replace a with (a + 0) at 1 by lia. apply Hcross; lia. }
      assert (∀ p q, p < k → k ≤ q → q < hi → (rk d1 (a + p) ≤ rk d1 (a + q))%Z) as Hcross1.
      { intros p q ???. rewrite !Hrk.
        destruct (decide (a + q = a)); [lia|].
        destruct (decide (a + p = a + k)); [lia|].
        destruct (decide (a + q = a + k)) as [Hq|].
        - destruct (decide (a + p = a)); [apply Hmax; lia|apply Hmax; lia].
        - destruct (decide (a + p = a)); apply Hcross; lia. }
      eapply ok_mono.
      { apply (siftDown_func_ok _ d1 0 k a 0); try lia.
        - intros i c ? Hi Hc Hch. rewrite !Hrk.
          rewrite (decide_False (P := a + c = a)) by (unfold child in Hch; lia).
          rewrite (decide_False (P := a + i = a)) by lia.
          rewrite (decide_False (P := a + c = a + k)) by lia.
          rewrite (decide_False (P := a + i = a + k)) by (unfold child in Hch; lia).
          apply Hheap; [lia|lia|done].
        - intros g c ? Hch. unfold child in Hch. lia. }
      intros d2 (Hwd2 & Hheap2). split; [|split; [done|split]].
      + eapply within_trans; [done|]. eapply within_trans; [done|].
        eapply within_weaken; [..|done]; lia.
      + intros p q ???. rewrite !(within_rk_outside _ _ _ _ _ Hwd2) by lia.
        apply Hsorted1; lia.
      + intros p q ???. rewrite (within_rk_outside _ _ _ _ (a + q) Hwd2) by lia.
        revert p H. change (∀ p, p < k → (λ r, r ≤ rk d1 (a + q))%Z (rk d2 (a + p))).
        intros p Hp.
        apply (within_bound (λ r, r ≤ rk d1 (a + q))%Z a (a + k) d1 d2 Hwd2); try lia.
        intros j ??. replace j with (a + (j - a)) by lia. apply Hcross1; lia. }
  intros d (Hw & _ & Hsorted & _). split.
  - by eapply within_trans.
  - by replace (a + 0) with a in Hsorted by lia.
Qed.


(** *** The helpers of the quicksort loop *)

Lemma reverseRange_loop_ok fuel (data : list A) a b i j :
  a ≤ i → j < b → b ≤ length data → j - i < fuel →
  ok (reverseRange_loop fuel data i j) (within a b data).
Proof.
  revert data i j. induction fuel as [|fuel IH]; intros data i j Hi Hj Hb Hfuel; [lia|].
  simpl. destruct (decide (i < j)); [|apply within_refl].
  apply ok_bind. eapply ok_mono; [apply (Swap_ok data i j a b); lia|].
  intros data1 (Hw & _). pose proof (within_length _ _ _ _ Hw).
  eapply ok_mono; [apply (IH data1); lia|].
  intros data2 Hw2. by eapply within_trans.
Qed.

Lemma reverseRange_func_ok (data : list A) a b :
  a < b → b ≤ length data → ok (reverseRange_func data a b) (within a b data).
Proof. intros. unfold reverseRange_func. apply reverseRange_loop_ok; lia. Qed.

Lemma pow2_size_nat (p : positive) : (2 ^ Z.of_nat (Pos.size_nat p) ≤ 2 * Z.pos p)%Z.
Proof.
  induction p as [p IH|p IH|]; cbn [Pos.size_nat].
  - rewrite Nat2Z.inj_succ, Z.pow_succ_r by lia. lia.
  - rewrite Nat2Z.inj_succ, Z.pow_succ_r by lia. lia.
  - done.
Qed.

Lemma nextPowerOfTwo_other length r :
  1 ≤ length →
  Z.to_nat (Z.land r (nextPowerOfTwo length - 1)) < 2 * length.
Proof.
  intros Hlen. unfold nextPowerOfTwo, bits_Len.
  rewrite Z.shiftl_1_l.
  replace (2 ^ Z.of_nat (N.size_nat (N.of_nat length)) - 1)%Z
    with (Z.ones (Z.of_nat (N.size_nat (N.of_nat length))))
    by (rewrite Z.ones_equiv; lia).
  rewrite Z.land_ones by lia.
  destruct (N.of_nat length) as [|p] eqn:Hp; [lia|].
  cbn [N.size_nat].
  pose proof (pow2_size_nat p) as Hpow.
  pose proof (Z.mod_pos_bound r (2 ^ Z.of_nat (Pos.size_nat p))%Z ltac:(lia)) as Hmod.
  assert (Z.pos p = Z.of_nat length) as Hpl by lia.
  lia.
Qed.

Lemma breakPatterns_func_ok (data : list A) a b :
  a ≤ b → b ≤ length data → ok (breakPatterns_func data a b) (within a b data).
Proof.
  intros Hab Hb. unfold breakPatterns_func.
  destruct (decide (8 ≤ b - a)) as [Hlen|]; [|apply within_refl].
  apply ok_fmap. eapply ok_mono.
  { apply (for_up_ok (λ _ (s : Z * list A), within a b data s.2)); [apply within_refl|].
    intros k [random d] _ Hk Hw. simpl in Hw.
    pose proof (within_length _ _ _ _ Hw) as Hl.
    pose proof (nextPowerOfTwo_other (b - a) (xorshift_Next random) ltac:(lia)) as Hother.
    pose proof (Nat.div_mod_eq (b - a) 4) as Hdm.
    pose proof (Nat.mod_upper_bound (b - a) 4 ltac:(lia)).
    apply ok_bind. cbv zeta.
    set (r := Z.to_nat (Z.land (xorshift_Next random) (nextPowerOfTwo (b - a) - 1))) in *.
    set (other := if decide (b - a ≤ r) then r - (b - a) else r).
    assert (other < b - a) as Ho by (subst other; destruct (decide (b - a ≤ r)); lia).
    clearbody other.
    eapply ok_mono; [apply (Swap_ok d _ _ a b); lia|].
    intros d' (Hw' & _). simpl. by eapply within_trans. }
  intros [random d]. done.
Qed.

Lemma order2_func_ok data x y swaps lo hi :
  lo ≤ x → x < hi → lo ≤ y → y < hi → hi ≤ length data →
  ok (order2_func less data x y swaps) (λ '(x', y', _),
    lo ≤ x' ∧ x' < hi ∧ lo ≤ y' ∧ y' < hi).
Proof.
  intros. unfold order2_func. rewrite Less_ok by lia. simpl.
  case_bool_decide; simpl; lia.
Qed.

Lemma median_func_ok data x y z swaps lo hi :
  lo ≤ x → x < hi → lo ≤ y → y < hi → lo ≤ z → z < hi → hi ≤ length data →
  ok (median_func less data x y z swaps) (λ '(m, _), lo ≤ m ∧ m < hi).
Proof.
  intros. unfold median_func.
  apply ok_bind. eapply ok_mono; [by apply (order2_func_ok _ _ _ _ lo hi)|].
  intros [[x1 y1] s1] (?&?&?&?).
  apply ok_bind. eapply ok_mono; [by apply (order2_func_ok _ _ _ _ lo hi)|].
  intros [[y2 z2] s2] (?&?&?&?).
  apply ok_bind. eapply ok_mono; [by apply (order2_func_ok _ _ _ _ lo hi)|].
  intros [[x3 y3] s3] (?&?&?&?). simpl. lia.
Qed.

Lemma choosePivot_func_ok data a b :
  a < b → b ≤ length data →
  ok (choosePivot_func less data a b) (λ '(pivot, _), a ≤ pivot ∧ pivot < b).
Proof.
  intros Hab Hb. unfold choosePivot_func.
  pose proof (Nat.div_mod_eq (b - a) 4) as Hdm.
  pose proof (Nat.mod_upper_bound (b - a) 4 ltac:(lia)) as Hmod.
  apply ok_bind.
  eapply (ok_mono _ (λ '(j, _), a ≤ j ∧ j < b)).
  - destruct (decide (8 ≤ b - a)) as [H8|H8]; [|apply ok_Some; cbv beta iota; lia].
    apply ok_bind.
    eapply (ok_mono _ (λ '(i, j, k, _), (a ≤ i ∧ i < b) ∧ (a ≤ j ∧ j < b) ∧ (a ≤ k ∧ k < b))).
    + destruct (decide (shortestNinther ≤ b - a)) as [H50|H50];
        [|apply ok_Some; cbv beta iota; lia].
      unfold shortestNinther in H50. unfold medianAdjacent_func.
      apply ok_bind. eapply ok_mono; [apply (median_func_ok _ _ _ _ _ a b); lia|].
      intros [i s1] Hi.
      apply ok_bind. eapply ok_mono; [apply (median_func_ok _ _ _ _ _ a b); lia|].
      intros [j s2] Hj.
      apply ok_bind. eapply ok_mono; [apply (median_func_ok _ _ _ _ _ a b); lia|].
      intros [k s3] Hk. simpl. done.
    + intros [[[i j] k] s] (Hi & Hj & Hk).
      apply (median_func_ok _ _ _ _ _ a b); lia.
  - intros [j s] Hj. simpl. repeat case_decide; done.
Qed.

Lemma lower_within a b d d' :
  within a b d d' → b ≤ length d → lower d a b → lower d' a b.
Proof.
  intros Hw Hb Hlow Ha k Hk1 Hk2.
  rewrite (within_rk_outside _ _ _ _ (a - 1) Hw) by lia.
  apply (within_bound (λ r, rk d (a - 1) ≤ r)%Z a b d d' Hw Hb); [|done|done].
  intros j ??. by apply Hlow.
Qed.

Lemma sorted_range_within lo hi d d' a b :
  within lo hi d d' → b ≤ lo ∨ hi ≤ a → sorted_range d a b → sorted_range d' a b.
Proof.
  intros Hw Hout Hs i j ???.
  rewrite !(within_rk_outside _ _ _ _ _ Hw) by lia. by apply Hs.
Qed.

Lemma sorted_range_extend data a i i' :
  a < i → i ≤ i' → sorted_range data a i →
  (∀ k, i ≤ k → k < i' → (rk data (k - 1) ≤ rk data k)%Z) →
  sorted_range data a i'.
Proof.
  intros Hai Hii Hs Hadj. induction Hii as [|i' Hii IH]; [done|].
  intros p q Hp Hpq Hq.
  destruct (decide (q < i')) as [|Hqi]; [apply IH; [|lia..]|].
  - intros k ??. apply Hadj; lia.
  - assert (q = i') as -> by lia.
    destruct (decide (p = i')) as [->|]; [done|].
    trans (rk data (i' - 1)).
    + apply IH; [|lia..]. intros k ??. apply Hadj; lia.
    + apply Hadj; lia.
Qed.

Lemma shift_left_ok data a i j :
  a ≤ j → j ≤ i → i < length data →
  lower data a (i + 1) →
  sorted_range data a j →
  sorted_range data j (i + 1) →
  (∀ p q, a ≤ p → p < j → j < q → q ≤ i → (rk data p ≤ rk data q)%Z) →
  ok (shift_left less data j) (λ data',
    within a (i + 1) data data' ∧ sorted_range data' a (i + 1)).
Proof.
  revert data. induction j as [|j IH]; intros data Haj Hji Hi Hlow Hs1 Hs2 Hs3; simpl.
  - split; [apply within_refl|]. intros p q ???. apply Hs2; lia.
  - rewrite Less_ok by lia. simpl.
    destruct (bool_decide (rk data (S j) < rk data j)%Z) eqn:Hlt.
    + apply bool_decide_eq_true in Hlt.
      assert (a < S j) as Ha.
      { destruct (decide (a < S j)); [done|]. assert (a = S j) as Heq by lia.
        specialize (Hlow ltac:(lia) (S j) ltac:(lia) ltac:(lia)).
        replace (a - 1) with j in Hlow by lia. lia. }
      apply ok_bind.
      eapply ok_mono; [apply (Swap_ok data (S j) j a (i + 1)); lia|].
      intros data1 (Hw & Hrk).
      pose proof (within_length _ _ _ _ Hw) as Hl.
      eapply ok_mono; [apply IH; [lia|lia|lia|..]|].
      * eapply lower_within; [done|lia|done].
      * intros p q ???. rewrite !Hrk. repeat case_decide; try lia. apply Hs1; lia.
      * intros p q ???. rewrite !Hrk. repeat case_decide; try lia.
        -- apply Hs3; lia.
        -- apply Hs2; lia.
        -- apply Hs2; lia.
      * intros p q ????. rewrite !Hrk. repeat case_decide; try lia.
        -- apply Hs1; lia.
        -- apply Hs3; lia.
      * intros data2 (Hw2 & Hs). split; [|done]. by eapply within_trans.
    + apply bool_decide_eq_false in Hlt. split; [apply within_refl|]. intros p q ???.
      destruct (decide (q ≤ j)); [apply Hs1; lia|].
      destruct (decide (S j ≤ p)); [apply Hs2; lia|].
      destruct (decide (q = S j)) as [->|].
      * trans (rk data j); [apply Hs1; lia|lia].
      * apply Hs3; lia.
Qed.

Lemma shift_right_ok n data lo b j :
  lo < j → j + n ≤ b → b ≤ length data →
  ok (shift_right less n data j) (within lo b data).
Proof.
  revert data j. induction n as [|n IH]; intros data j Hlo Hn Hb; simpl;
    [apply within_refl|].
  rewrite Less_ok by lia. simpl. case_bool_decide; [|apply within_refl].
  apply ok_bind. eapply ok_mono; [apply (Swap_ok data j (j - 1) lo b); lia|].
  intros data1 (Hw & _). pose proof (within_length _ _ _ _ Hw).
  eapply ok_mono; [apply (IH data1); lia|].
  intros data2 Hw2. by eapply within_trans.
Qed.


Lemma lower_weaken data a b b' : b' ≤ b → lower data a b → lower data a b'.
Proof. intros Hb Hlow Ha k ??. apply Hlow; lia. Qed.

Lemma sorted_range_single data a b : b ≤ a + 1 → sorted_range data a b.
Proof. intros Hb p q ???. by replace q with p by lia. Qed.

Lemma partialInsertionSort_loop_S steps data a b i :
  partialInsertionSort_loop less (S steps) data a b i =
  (i ← skip_up (b - i) (λ i, negb <$> Less less data i (i - 1)) i;
   if decide (i = b) then Some (data, true)
   else if decide (b - a < shortestShifting) then Some (data, false)
   else
     data ← Swap data i (i - 1);
     data ← (if decide (2 ≤ i - a) then shift_left less data (i - 1) else Some data);
     data ← (if decide (2 ≤ b - i) then shift_right less (b - (i + 1)) data (i + 1)
             else Some data);
     partialInsertionSort_loop less steps data a b i).
Proof. reflexivity. Qed.

Lemma partialInsertionSort_loop_ok steps data a b i :
  a < i → i ≤ b → b ≤ length data →
  sorted_range data a i → lower data a b →
  ok (partialInsertionSort_loop less steps data a b i) (λ '(data', done),
    within a b data data' ∧ (done = true → sorted_range data' a b)).
Proof.
  revert data i. induction steps as [|steps IH]; intros data i Hai Hib Hb Hs Hlow.
  { simpl. split; [apply within_refl|done]. }
  rewrite partialInsertionSort_loop_S.
  apply ok_bind. eapply ok_mono.
  { apply (skip_up_ok _ _ (λ k, negb (bool_decide (rk data k < rk data (k - 1))%Z))).
    intros k ??. rewrite Less_ok by lia. done. }
  intros i' (Hi1 & Hi2 & Hi3 & Hi4).
  assert (sorted_range data a i') as Hs'.
  { apply (sorted_range_extend data a i i'); [done|done|done|].
    intros k ??. specialize (Hi3 k ltac:(lia) ltac:(lia)).
    apply negb_true_iff, bool_decide_eq_false in Hi3. lia. }
  clear Hi3 Hi4.
  destruct (decide (i' = b)) as [->|Hne].
  { apply ok_Some. cbv beta iota. split; [apply within_refl|done]. }
  destruct (decide (b - a < shortestShifting)) as [|Hlong].
  { apply ok_Some. cbv beta iota. split; [apply within_refl|done]. }
  apply ok_bind. eapply ok_mono; [apply (Swap_ok data i' (i' - 1) a b); lia|].
  intros data1 (Hw1 & Hrk1).
  pose proof (within_length _ _ _ _ Hw1) as Hl1.
  apply ok_bind.
  eapply (ok_mono _ (λ d2, within a b data1 d2 ∧ sorted_range d2 a i')).
  { destruct (decide (2 ≤ i' - a)) as [H2|H2].
    - eapply ok_mono.
      { apply (shift_left_ok data1 a (i' - 1) (i' - 1)); try lia.
        - eapply lower_weaken; [|eapply lower_within; [exact Hw1|lia|done]]. lia.
        - intros p q ???. rewrite !Hrk1. repeat case_decide; try lia. apply Hs'; lia.
        - apply sorted_range_single. lia. }
      replace (i' - 1 + 1) with i' by lia.
      intros d2 (Hw2 & Hs2). split; [|done].
      eapply within_weaken; [..|done]; lia.
    - apply ok_Some. split; [apply within_refl|]. apply sorted_range_single. lia. }
  intros d2 (Hw2 & Hs2).
  pose proof (within_length _ _ _ _ Hw2) as Hl2.
  apply ok_bind.
  eapply (ok_mono _ (within i' b d2)).
  { destruct (decide (2 ≤ b - i')); [|apply within_refl].
    apply shift_right_ok; lia. }
  intros d3 Hw3.
  pose proof (within_length _ _ _ _ Hw3) as Hl3.
  assert (within a b data d3) as Hw.
  { eapply within_trans; [done|]. eapply within_trans; [done|].
    eapply within_weaken; [..|done]; lia. }
  eapply ok_mono.
  { apply (IH d3 i'); try lia.
    - apply (sorted_range_within i' b d2 d3); [exact Hw3|lia|exact Hs2].
    - apply (lower_within a b data d3); [exact Hw|lia|exact Hlow]. }
  intros [d4 done] (Hw4 & Hs4). split; [|done]. by apply (within_trans a b data d3 d4).
Qed.

Lemma partialInsertionSort_func_ok data a b :
  a < b → b ≤ length data → lower data a b →
  ok (partialInsertionSort_func less data a b) (λ '(data', done),
    within a b data data' ∧ (done = true → sorted_range data' a b)).
Proof.
  intros. unfold partialInsertionSort_func.
  apply partialInsertionSort_loop_ok; try lia; [|done].
  apply sorted_range_single. lia.
Qed.

(** *** The quicksort loop *)

Lemma sorted_join data a mid b :
  sorted_range data a mid → sorted_range data (mid + 1) b →
  (∀ k, a ≤ k → k < mid → (rk data k ≤ rk data mid)%Z) →
  (∀ k, mid < k → k < b → (rk data mid ≤ rk data k)%Z) →
  sorted_range data a b.
Proof.
  intros HL HR Hlo Hhi p q Hp Hpq Hq.
  destruct (decide (q < mid)); [apply HL; lia|].
  destruct (decide (mid < p)); [apply HR; lia|].
  destruct (decide (p = mid)) as [->|]; destruct (decide (q = mid)) as [->|].
  - done.
  - apply Hhi; lia.
  - apply Hlo; lia.
  - trans (rk data mid); [apply Hlo|apply Hhi]; lia.
Qed.

Lemma pdqsort_func_S fuel data a b limit wasBalanced wasPartitioned :
  pdqsort_func less (S fuel) data a b limit wasBalanced wasPartitioned =
  if decide (b - a ≤ maxInsertion) then insertionSort_func less data a b
  else if decide (limit = 0) then heapSort_func less data a b
  else
    '(data, limit) ←
      (if negb wasBalanced then
         data ← breakPatterns_func data a b; Some (data, limit - 1)
       else Some (data, limit));
    '(pivot, hint) ← choosePivot_func less data a b;
    '(data, pivot, hint) ←
      (if decide (hint = decreasingHint) then
         data ← reverseRange_func data a b;
         Some (data, (b - 1) - (pivot - a), increasingHint)
       else Some (data, pivot, hint));
    '(data, done) ←
      (if wasBalanced && wasPartitioned && bool_decide (hint = increasingHint) then
         partialInsertionSort_func less data a b
       else Some (data, false));
    if done : bool then Some data
    else
      equal ← (if decide (0 < a) then negb <$> Less less data (a - 1) pivot
               else Some false);
      if equal : bool then
        '(data, mid) ← partitionEqual_func less data a b pivot;
        pdqsort_func less fuel data mid b limit wasBalanced wasPartitioned
      else
        '(data, mid, alreadyPartitioned) ← partition_func less data a b pivot;
        if decide (mid - a < b - mid) then
          data ← pdqsort_func less fuel data a mid limit true true;
          pdqsort_func less fuel data (mid + 1) b limit
            (bool_decide ((b - a) / 8 ≤ mid - a)) alreadyPartitioned
        else
          data ← pdqsort_func less fuel data (mid + 1) b limit true true;
          pdqsort_func less fuel data a mid limit
            (bool_decide ((b - a) / 8 ≤ b - mid)) alreadyPartitioned.
Proof. reflexivity. Qed.

Theorem pdqsort_func_ok fuel data a b limit wasBalanced wasPartitioned :
  a ≤ b → b ≤ length data → b - a < fuel → lower data a b →
  ok (pdqsort_func less fuel data a b limit wasBalanced wasPartitioned) (λ data',
    within a b data data' ∧ sorted_range data' a b).
Proof.
  revert data a b limit wasBalanced wasPartitioned.
  induction fuel as [|fuel IH]; intros data a b limit wb wp Hab Hb Hfuel Hlow; [lia|].
  rewrite pdqsort_func_S. unfold maxInsertion.
  destruct (decide (b - a ≤ 12)) as [|Hlen]; [by apply insertionSort_func_ok|].
  destruct (decide (limit = 0)) as [|_]; [by apply heapSort_func_ok|].
  apply ok_bind.
  eapply (ok_mono _ (λ '(d1, _), within a b data d1)).
  { destruct (negb wb); [|apply ok_Some, within_refl].
    apply ok_bind. eapply ok_mono; [apply breakPatterns_func_ok; lia|]. done. }
  intros [d1 limit1] Hw1.
  pose proof (within_length _ _ _ _ Hw1) as Hl1.
  apply ok_bind. eapply ok_mono; [apply choosePivot_func_ok; lia|].
  intros [pivot0 hint0] Hp0.
  apply ok_bind.
  eapply (ok_mono _ (λ '(d2, pivot, _), within a b d1 d2 ∧ a ≤ pivot ∧ pivot < b)).
  { destruct (decide (hint0 = decreasingHint)).
    - apply ok_bind. eapply ok_mono; [apply reverseRange_func_ok; lia|].
      intros d2 Hw2. apply ok_Some. cbv beta iota. split; [done|lia].
    - apply ok_Some. cbv beta iota. split; [apply within_refl|lia]. }
  intros [[d2 pivot] hint] (Hw2 & Hp1 & Hp2).
  pose proof (within_length _ _ _ _ Hw2) as Hl2.
  assert (lower d2 a b) as Hlow2.
  { eapply lower_within; [done|lia|]. eapply lower_within; [done|lia|done]. }
  apply ok_bind.
  eapply (ok_mono _ (λ '(d3, done),
    within a b d2 d3 ∧ (done = true → sorted_range d3 a b))).
  { destruct (wb && wp && bool_decide (hint = increasingHint)).
    - apply partialInsertionSort_func_ok; [lia|lia|done].
    - apply ok_Some. cbv beta iota. split; [apply within_refl|done]. }
  intros [d3 done] (Hw3 & Hdone).
  pose proof (within_length _ _ _ _ Hw3) as Hl3.
  assert (within a b data d3) as Hw.
  { eapply within_trans; [done|]. by eapply within_trans. }
  assert (lower d3 a b) as Hlow3 by (eapply lower_within; [exact Hw3|lia|done]).
  destruct done; [apply ok_Some; split; [done|by apply Hdone]|].
  clear Hdone.
  apply ok_bind.
  apply (ok_intro _ _
    (if decide (0 < a) then negb (bool_decide (rk d3 (a - 1) < rk d3 pivot)%Z) else false)).
  { destruct (decide (0 < a)); [|done]. rewrite Less_ok by lia. done. }
  destruct (if decide (0 < a) then _ else _) eqn:Hequal.
  - (* the pivot is a smallest element of the range *)
    destruct (decide (0 < a)) as [Ha|]; [|done].
    apply negb_true_iff, bool_decide_eq_false in Hequal.
    apply ok_bind. eapply ok_mono.
    { apply (partitionEqual_func_ok d3 a b pivot); try lia.
      intros k ??. specialize (Hlow3 Ha k ltac:(lia) ltac:(lia)). lia. }
    intros [d4 mid] (Hw4 & Hm1 & Hm2 & Hm3 & Hm4).
    pose proof (within_length _ _ _ _ Hw4) as Hl4.
    eapply ok_mono.
    { apply (IH d4 mid b); try lia.
      intros _ k ??. rewrite (Hm3 (mid - 1)) by lia.
      specialize (Hm4 k ltac:(lia) ltac:(lia)). lia. }
    intros d5 (Hw5 & Hs5). split.
    + eapply within_trans; [done|]. eapply within_trans; [done|].
      eapply within_weaken; [..|done]; lia.
    + intros p q Hp Hpq Hq.
      destruct (decide (mid ≤ p)); [apply Hs5; lia|].
      rewrite (within_rk_outside _ _ _ _ p Hw5) by lia.
      rewrite (Hm3 p) by lia.
      destruct (decide (q < mid)).
      * rewrite (within_rk_outside _ _ _ _ q Hw5) by lia. rewrite (Hm3 q) by lia. done.
      * pose proof (within_bound (λ r, rk d3 pivot < r)%Z mid b d4 d5 Hw5 ltac:(lia)
                      ltac:(intros; apply Hm4; lia) q ltac:(lia) ltac:(lia)) as Hgt.
        simpl in Hgt. lia.
  - clear Hequal.
    apply ok_bind. eapply ok_mono; [apply (partition_func_ok d3 a b pivot); lia|].
    intros [[d4 mid] ap] (Hw4 & Hm1 & Hm2 & Hm3 & Hm4).
    pose proof (within_length _ _ _ _ Hw4) as Hl4.
    assert (lower d4 a b) as Hlow4 by (eapply lower_within; [exact Hw4|lia|done]).
    destruct (decide (mid - a < b - mid)) as [Hside|Hside].
    + apply ok_bind. eapply ok_mono.
      { apply (IH d4 a mid); try lia. eapply lower_weaken; [|done]. lia. }
      intros d5 (Hw5 & Hs5).
      pose proof (within_length _ _ _ _ Hw5) as Hl5.
      assert (∀ k, a ≤ k → k < mid → (rk d5 k < rk d4 mid)%Z) as Hlo5.
      { apply (within_bound (λ r, r < rk d4 mid)%Z a mid d4 d5 Hw5); [lia|].
        intros k ??. by apply Hm3. }
      eapply ok_mono.
      { apply (IH d5 (mid + 1) b); try lia.
        intros _ k ??. replace (mid + 1 - 1) with mid by lia.
        rewrite !(within_rk_outside _ _ _ _ _ Hw5) by lia. apply Hm4; lia. }
      intros d6 (Hw6 & Hs6). split.
      * eapply within_trans; [done|]. eapply within_trans; [done|].
        eapply within_trans; eapply within_weaken; [..|done| | |done]; lia.
      * apply (sorted_join d6 a mid b).
        -- apply (sorted_range_within (mid + 1) b d5 d6); [exact Hw6|lia|exact Hs5].
        -- done.
        -- intros k ??. rewrite !(within_rk_outside _ _ _ _ _ Hw6) by lia.
           rewrite (within_rk_outside _ _ _ _ mid Hw5) by lia.
           specialize (Hlo5 k ltac:(lia) ltac:(lia)). lia.
        -- rewrite (within_rk_outside _ _ _ _ mid Hw6) by lia.
           rewrite (within_rk_outside _ _ _ _ mid Hw5) by lia.
           intros k ??.
           apply (within_bound (λ r, rk d4 mid ≤ r)%Z (mid + 1) b d5 d6 Hw6); try lia.
           intros j ??. rewrite (within_rk_outside _ _ _ _ j Hw5) by lia.
           apply Hm4; lia.
    + apply ok_bind. eapply ok_mono; [apply (IH d4 (mid + 1) b); try lia|].
      { intros _ k ??. replace (mid + 1 - 1) with mid by lia. apply Hm4; lia. }
      intros d5 (Hw5 & Hs5).
      pose proof (within_length _ _ _ _ Hw5) as Hl5.
      assert (∀ k, mid < k → k < b → (rk d4 mid ≤ rk d5 k)%Z) as Hhi5.
      { intros k ??.
        apply (within_bound (λ r, rk d4 mid ≤ r)%Z (mid + 1) b d4 d5 Hw5); try lia.
        intros j ??. apply Hm4; lia. }
      eapply ok_mono.
      { apply (IH d5 a mid); try lia.
        intros Ha k ??. rewrite !(within_rk_outside _ _ _ _ _ Hw5) by lia.
        apply Hlow4; lia. }
      intros d6 (Hw6 & Hs6). split.
      * eapply within_trans; [done|]. eapply within_trans; [done|].
        eapply within_trans; eapply within_weaken; [..|done| | |done]; lia.
      * apply (sorted_join d6 a mid b).
        -- done.
        -- apply (sorted_range_within a mid d5 d6); [exact Hw6|lia|exact Hs5].
        -- rewrite (within_rk_outside _ _ _ _ mid Hw6) by lia.
           rewrite (within_rk_outside _ _ _ _ mid Hw5) by lia.
           intros k ??.
           apply (within_bound (λ r, r ≤ rk d4 mid)%Z a mid d5 d6 Hw6); try lia.
           intros j ??. rewrite (within_rk_outside _ _ _ _ j Hw5) by lia.
           specialize (Hm3 j ltac:(lia) ltac:(lia)). lia.
        -- intros k ??. rewrite !(within_rk_outside _ _ _ _ _ Hw6) by lia.
           rewrite (within_rk_outside _ _ _ _ mid Hw5) by lia.
           apply Hhi5; lia.
Qed.

(** [sort.Slice] returns, and what it returns is the slice rearranged in
    nondecreasing rank. *)
Theorem Slice_ok (x : list A) :
  ok (Slice less x) (λ x',
    x' ≡ₚ x ∧ ∀ i j, i ≤ j → j < length x' → (rk x' i ≤ rk x' j)%Z).
Proof.
  unfold Slice. eapply ok_mono.
  { apply (pdqsort_func_ok _ x 0 (length x)); try lia. intros ?. lia. }
  intros x' (Hw & Hs). split; [apply Hw|].
  intros i j ??. apply Hs; try lia. by rewrite <-(within_length _ _ _ _ Hw).
Qed.

End sorting.

(** *** Short slices are sorted by insertion, which keeps ties in order *)

Section stability.
Context {A : Type} (rank : A → Z) (less : A → A → bool).
Context (Hless : ∀ x y, less x y = bool_decide (rank x < rank y)%Z).

Lemma swap_adjacent (data : list A) j x y :
  data !! j = Some y → data !! S j = Some x →
  data = take j data ++ y :: x :: drop (S (S j)) data ∧
  <[S j:=y]> (<[j:=x]> data) = take j data ++ x :: y :: drop (S (S j)) data.
Proof.
  revert data. induction j as [|j IH]; intros [|z data] Hj HSj; simplify_eq/=.
  - destruct data as [|z' data]; simplify_eq/=. done.
  - destruct (IH data Hj HSj) as [H1 H2]. split; f_equal; done.
Qed.

Lemma ofRank_swap_adjacent t (l1 l2 : list A) x y :
  rank x ≠ rank y →
  ofRank rank t (l1 ++ x :: y :: l2) = ofRank rank t (l1 ++ y :: x :: l2).
Proof.
  intros Hne. unfold ofRank. rewrite !filter_app. f_equal.
  rewrite !filter_cons. repeat case_decide; try done. congruence.
Qed.

Lemma Swap_adjacent_ofRank (data data' : list A) j t :
  Less less data (S j) j = Some true →
  Swap data (S j) j = Some data' →
  ofRank rank t data' = ofRank rank t data.
Proof.
  unfold Less, Swap. intros HL HS.
  destruct (data !! S j) as [x|] eqn:Hx; [|done].
  destruct (data !! j) as [y|] eqn:Hy; [|done].
  simpl in *. injection HL as HL. injection HS as <-.
  rewrite Hless in HL. apply bool_decide_eq_true in HL.
  destruct (swap_adjacent data j x y Hy Hx) as [H1 H2].
  rewrite H2. rewrite H1 at 3.
  apply ofRank_swap_adjacent. lia.
Qed.

Lemma insertionSort_shift_stable (data data' : list A) a j t :
  insertionSort_shift less data a j = Some data' →
  ofRank rank t data' = ofRank rank t data.
Proof.
  revert data. induction j as [|j IH]; intros data; simpl; [by intros [= ->]|].
  destruct (decide (a < S j)); [|by intros [= ->]].
  destruct (Less less data (S j) j) as [[|]|] eqn:HL; simpl; [|by intros [= ->]|done].
  destruct (Swap data (S j) j) as [data1|] eqn:HS; simpl; [|done].
  intros Hrec. rewrite (IH _ Hrec). by eapply Swap_adjacent_ofRank.
Qed.

Lemma insertionSort_loop_stable n i (data data' : list A) a t :
  for_up n i (λ i data, insertionSort_shift less data a i) data = Some data' →
  ofRank rank t data' = ofRank rank t data.
Proof.
  revert data i. induction n as [|n IH]; intros data i; simpl; [by intros [= ->]|].
  destruct (insertionSort_shift less data a i) as [data1|] eqn:Hshift; simpl; [|done].
  intros Hrec. rewrite (IH _ _ Hrec). by eapply insertionSort_shift_stable.
Qed.

Lemma insertionSort_func_stable (data data' : list A) a b t :
  insertionSort_func less data a b = Some data' →
  ofRank rank t data' = ofRank rank t data.
Proof. apply insertionSort_loop_stable. Qed.

(** A slice of at most twelve elements is sorted by insertion. *)
Lemma Slice_short (x : list A) :
  length x ≤ maxInsertion → Slice less x = insertionSort_func less x 0 (length x).
Proof.
  intros Hlen. unfold Slice. rewrite pdqsort_func_S.
  rewrite decide_True by lia. done.
Qed.

Lemma Slice_short_stable (x x' : list A) t :
  length x ≤ maxInsertion → Slice less x = Some x' →
  ofRank rank t x' = ofRank rank t x.
Proof.
  intros Hlen. rewrite Slice_short by done. apply insertionSort_func_stable.
Qed.

End stability.

Local Close Scope nat_scope.

(** ** The filter and sort of the analyzer *)

Section filter_sort.
Import analyzer.

Lemma createdAfter_rank x y :
  createdAfter x y = bool_decide (newestRank x < newestRank y).
Proof. unfold createdAfter, newestRank. apply bool_decide_ext. lia. Qed.

Lemma newestFirst_of_ranks (l : list MergeRequest) :
  (∀ i j, (i ≤ j)%nat → (j < length l)%nat → rk newestRank l i ≤ rk newestRank l j) →
  newestFirst l.
Proof.
  intros Hs i j x y Hij Hx Hy.
  pose proof (lookup_lt_Some _ _ _ Hy) as Hj.
  specialize (Hs i j Hij Hj). unfold rk, newestRank in Hs.
  rewrite Hx, Hy in Hs. simpl in Hs. lia.
Qed.

Lemma tiesInOrder_of_ranks (out input : list MergeRequest) :
  (∀ t, ofRank newestRank t out = ofRank newestRank t input) → tiesInOrder out input.
Proof.
  intros H t. specialize (H (- t)). unfold ofRank, newestRank in H.
  unfold createdAt.
  rewrite (list_filter_iff (λ mr, mr_CreatedAt mr = t) (λ mr, - mr_CreatedAt mr = - t))
    by (intros; lia).
  rewrite (list_filter_iff (λ mr, mr_CreatedAt mr = t) (λ mr, - mr_CreatedAt mr = - t) input)
    by (intros; lia).
  done.
Qed.

(** What [sort.Slice] with [createdAfter] does to any slice of merge
    requests. *)
Lemma Slice_createdAfter (l : list MergeRequest) :
  ∃ out, sort.Slice createdAfter l = Some out ∧ out ≡ₚ l ∧ newestFirst out ∧
         ((length l ≤ sort.maxInsertion)%nat → tiesInOrder out l).
Proof.
  destruct (ok_inv _ _ (Slice_ok newestRank createdAfter createdAfter_rank l))
    as (out & Hout & Hperm & Hsorted).
  exists out. split; [done|]. split; [done|]. split.
  - by apply newestFirst_of_ranks.
  - intros Hlen. apply tiesInOrder_of_ranks. intros t.
    by apply (Slice_short_stable newestRank createdAfter createdAfter_rank).
Qed.

(** C3. Branch filter accuracy: [filterAndSortConflictingMRs] returns, and
    its result holds exactly the merge requests of the input whose source
    branch is "release", whose target branch is "master" and whose
    [HasConflicts] flag is set, each as many times as the input holds it:
    nothing is added and nothing is missing. *)
Theorem filterAndSortConflictingMRs_exact (mrs : list MergeRequest) :
  ∃ out, filterAndSortConflictingMRs mrs = Some out ∧
    out ≡ₚ List.filter releaseToMasterConflict mrs ∧
    ∀ mr, mr ∈ out ↔
      mr ∈ mrs ∧ mr_SourceBranch mr = "release" ∧ mr_TargetBranch mr = "master" ∧
      mr_HasConflicts mr = true.
Proof.
  unfold filterAndSortConflictingMRs.
  destruct (Slice_createdAfter (List.filter releaseToMasterConflict mrs))
    as (out & Hout & Hperm & _).
  exists out. split; [done|]. split; [done|].
  intros mr. rewrite Hperm, list_elem_of_In, filter_In, <-list_elem_of_In.
  unfold releaseToMasterConflict. rewrite !andb_true_iff, !bool_decide_eq_true.
  tauto.
Qed.

(** The claim C2 as it is written fails on thirteen conflicting merge
    requests of which the first twelve have the same creation timestamp and
    the last a later one.  A slice of more than twelve elements is not
    sorted by insertion: [choosePivot_func] takes the median of the elements
    3, 6 and 9, which is the element 6; [partialInsertionSort_func] finds the
    last element out of order and gives up, the slice being shorter than 50;
    [partition_func] swaps the element 0 with the pivot, then the element 1
    with the last one, and puts the pivot back at index 1.  The two ranges
    left are short and already in order, so the result is
    [12; 6; 2; 3; 4; 5; 0; 7; 8; 9; 10; 11; 1]: the merge requests 0 and 1
    are now behind merge requests of their own timestamp that they
    preceded. *)
Lemma sort_not_stable_thirteen : ¬ sortsNewestFirstStably thirteenMRs.
Proof.
  intros (out & Hout & _ & Hties).
  vm_compute in Hout. injection Hout as <-.
  specialize (Hties 1). vm_compute in Hties. discriminate Hties.
Qed.

(** C2, amended. Sort order: [filterAndSortConflictingMRs] returns a list
    whose creation timestamps never increase; merge requests of equal
    timestamp keep the relative order of the input when at most twelve
    merge requests pass the filter (such a slice is sorted by insertion).
    The same holds of the sort that ends
    [filterAndSortRealConflictingMRs], for the merge requests its filter
    kept. *)
Theorem filterAndSort_newestFirst (mrs : list MergeRequest) :
  (∃ out, filterAndSortConflictingMRs mrs = Some out ∧
     newestFirst out ∧
     ((length (List.filter releaseToMasterConflict mrs) ≤ 12)%nat →
      tiesInOrder out (List.filter releaseToMasterConflict mrs))) ∧
  (∀ W (c : gitlab.Client W) projectID w kept w',
     filterReal c projectID mrs [] w = Some (kept, w') →
     ∃ out, filterAndSortRealConflictingMRs c projectID mrs w = Some (out, w') ∧
       newestFirst out ∧ out ≡ₚ kept ∧
       ((length kept ≤ 12)%nat → tiesInOrder out kept)).
Proof.
  split.
  - unfold filterAndSortConflictingMRs.
    destruct (Slice_createdAfter (List.filter releaseToMasterConflict mrs))
      as (out & Hout & _ & Hsorted & Hties).
    by exists out.
  - intros W c projectID w kept w' Hkept.
    destruct (Slice_createdAfter kept) as (out & Hout & Hperm & Hsorted & Hties).
    exists out. split; [|done].
    unfold filterAndSortRealConflictingMRs, mbind, M_bind. rewrite Hkept.
    unfold liftOption. by rewrite Hout.
Qed.

End filter_sort.

(** ** Calls that reach GitLab: running a computation *)

Section monad.
Context {W : Type}.

Lemma bind_Some {A B} (m : M W A) (k : A → M W B) w x w1 :
  m w = Some (x, w1) → (m ≫= k) w = k x w1.
Proof. unfold mbind, M_bind. by intros ->. Qed.

Lemma bind_inv {A B} (m : M W A) (k : A → M W B) w r :
  (m ≫= k) w = Some r → ∃ x w1, m w = Some (x, w1) ∧ k x w1 = Some r.
Proof.
  unfold mbind, M_bind. destruct (m w) as [[x w1]|]; [|done]. eauto.
Qed.

Lemma bind_is_Some {A B} (m : M W A) (k : A → M W B) w :
  is_Some (m w) → (∀ x w1, is_Some (k x w1)) → is_Some ((m ≫= k) w).
Proof.
  intros [[x w1] Hm] Hk. unfold mbind, M_bind. rewrite Hm. apply Hk.
Qed.
End monad.

(** ** The scanner *)

Section scanner_props.
Import scanner.
Context {W : Type}.
Implicit Types (rs : RepositoryScanner W) (w : W).

Lemma includeMap_lookup groups id :
  included (includeMap groups) id = bool_decide (id ∈ groups).
Proof.
  unfold included, includeMap.
  assert (∀ m : gmap Z bool, (∀ k v, m !! k = Some v → v = true) →
    default false (foldl (λ m g, <[g:=true]> m) m groups !! id) =
    bool_decide (id ∈ groups ∨ is_Some (m !! id))) as Hgen.
  { induction groups as [|g groups IH]; intros m Hm; simpl.
    - destruct (m !! id) as [v|] eqn:Hv.
      + by rewrite (Hm _ _ Hv).
      + done.
    - rewrite IH.
      + apply bool_decide_ext. rewrite elem_of_cons, lookup_insert_is_Some.
        destruct (decide (g = id)); intuition congruence.
      + intros k v. rewrite lookup_insert. destruct (decide (g = k)); [intros; congruence|]. apply Hm. }
  rewrite Hgen by (intros k v; by rewrite lookup_empty).
  apply bool_decide_ext. rewrite lookup_empty. split; [|by left].
  intros [?|[? ?]]; done.
Qed.

Lemma filterRepositories_passes rs repos :
  filterRepositories rs repos = filter (passes (includeGroups rs)) repos.
Proof.
  unfold filterRepositories, passes. case_bool_decide as Hlen.
  - assert (includeGroups rs = []) as -> by (destruct (includeGroups rs); [done|]; unfold len in Hlen; simpl in Hlen; lia).
    symmetry. induction repos as [|r repos IH]; [done|].
    rewrite filter_cons_True by (by left). by rewrite IH.
  - assert (includeGroups rs ≠ []) as Hne by (intros Heq; apply Hlen; by rewrite Heq).
    induction repos as [|r repos IH]; [done|]. simpl.
    rewrite includeMap_lookup, filter_cons, IH.
    case_bool_decide; case_decide; intuition congruence.
Qed.


(** *** The pagination of [ListRepositories] *)

Lemma ListRepositories_loop_S fuel (c : gitlab.Client W) allRepos page w :
  gitlab.ListRepositories_loop (S fuel) c allRepos page w =
  match (gitlab.getProjectsPage c page gitlab.perPage w).1 with
  | gitlab.RequestFailed err =>
      Some (inl ("failed to list repositories (page " +:+ pretty page +:+ "): " +:+ err),
            (gitlab.getProjectsPage c page gitlab.perPage w).2)
  | gitlab.DecodeFailed err =>
      Some (inl ("failed to decode repositories response: " +:+ err),
            (gitlab.getProjectsPage c page gitlab.perPage w).2)
  | gitlab.PageOK repos =>
      if bool_decide (len repos < gitlab.perPage) then
        Some (inr (allRepos ++ repos), (gitlab.getProjectsPage c page gitlab.perPage w).2)
      else gitlab.ListRepositories_loop fuel c (allRepos ++ repos) (wrap64 (page + 1))
             (gitlab.getProjectsPage c page gitlab.perPage w).2
  end.
Proof.
  cbn [gitlab.ListRepositories_loop]. unfold mbind, M_bind, liftCall.
  destruct (gitlab.getProjectsPage c page gitlab.perPage w) as [[err|err|repos] w1];
    simpl; try done.
  by case_bool_decide.
Qed.

Lemma ListRepositories_loop_pages (c : gitlab.Client W) full last fuel (k : nat) acc w :
  served c (full ++ [last]) →
  Forall (λ page, gitlab.perPage ≤ len page) full →
  len last < gitlab.perPage →
  len (full ++ [last]) ≤ max_int →
  (k ≤ length full)%nat → (length full - k < fuel)%nat →
  ∃ w1, gitlab.ListRepositories_loop fuel c acc (Z.of_nat k + 1) w =
          Some (inr (acc ++ concat (drop k (full ++ [last]))), w1).
Proof.
  intros Hserved Hfull Hlast Hmax.
  revert k acc w. induction fuel as [|fuel IH]; intros k acc w Hk Hfuel; [lia|].
  rewrite ListRepositories_loop_S.
  destruct (decide (k = length full)) as [->|Hne].
  - rewrite (Hserved (length full) last w)
      by (rewrite lookup_app_r, Nat.sub_diag by lia; done).
    rewrite bool_decide_true by done.
    rewrite drop_app_length. simpl. rewrite app_nil_r. eauto.
  - assert (k < length full)%nat as Hlt by lia.
    destruct (lookup_lt_is_Some_2 full k Hlt) as [page Hpage].
    rewrite (Hserved k page w) by (by rewrite lookup_app_l).
    rewrite bool_decide_false
      by (rewrite Forall_lookup in Hfull; specialize (Hfull k page Hpage); simpl in Hfull; lia).
    rewrite wrap64_id.
    2:{ unfold len in Hmax. rewrite length_app in Hmax. simpl in Hmax.
        unfold min_int, max_int in *. lia. }
    replace (Z.of_nat k + 1 + 1) with (Z.of_nat (S k) + 1) by lia.
    destruct (IH (S k) (acc ++ page) (gitlab.getProjectsPage c (Z.of_nat k + 1) gitlab.perPage w).2
                ltac:(lia) ltac:(lia)) as [w1 Hw1].
    exists w1. rewrite Hw1. do 2 f_equal. f_equal.
    rewrite <-app_assoc. f_equal.
    rewrite (drop_S (full ++ [last]) page k) by (by rewrite lookup_app_l).
    done.
Qed.

Lemma ListRepositories_pages (c : gitlab.Client W) pages fuel w :
  served c pages → paginated pages → len pages ≤ max_int →
  (length pages ≤ fuel)%nat →
  ∃ w1, gitlab.ListRepositories fuel c w = Some (inr (concat pages), w1).
Proof.
  intros Hserved (full & last & -> & Hfull & Hlast) Hmax Hfuel.
  rewrite length_app in Hfuel. simpl in Hfuel.
  destruct (ListRepositories_loop_pages c full last fuel 0 [] w) as [w1 Hw1];
    try done; try lia.
  exists w1. unfold gitlab.ListRepositories. exact Hw1.
Qed.

(** *** The classification of one repository *)

Lemma processRepository_eq fuel rs repo w res w1 :
  gitlab.ListMergeRequests fuel (client rs) (repo_ID repo) "release" "master" w
    = Some (res, w1) →
  processRepository fuel rs repo w =
  Some (match res with
        | inl err => withStatus repo StatusError (Some err)
        | inr mrs =>
            if bool_decide (len mrs = 0) then withStatus repo StatusNoMRs None
            else if existsb mr_HasConflicts mrs then withStatus repo StatusConflicts None
            else withStatus repo StatusNoMRs None
        end, w1).
Proof.
  intros Hlist. unfold processRepository. cbn [repo_ID withStatus].
  rewrite (bind_Some _ _ _ _ _ Hlist).
  destruct res as [err|mrs]; [done|].
  case_bool_decide; [done|]. by destruct (existsb mr_HasConflicts mrs).
Qed.

Lemma processRepository_inv fuel rs repo w repo' w1 :
  processRepository fuel rs repo w = Some (repo', w1) →
  ∃ res, gitlab.ListMergeRequests fuel (client rs) (repo_ID repo) "release" "master" w
           = Some (res, w1).
Proof.
  unfold processRepository. cbn [repo_ID withStatus]. intros H.
  apply bind_inv in H as (res & w2 & Hlist & Hrest).
  exists res. rewrite Hlist. do 2 f_equal.
  destruct res as [err|mrs]; [by injection Hrest|].
  revert Hrest. case_bool_decide; [by intros [= _ ->]|].
  destruct (existsb mr_HasConflicts mrs); by intros [= _ ->].
Qed.

Lemma processRepository_post fuel rs repo w repo' w1 :
  processRepository fuel rs repo w = Some (repo', w1) →
  sameRepository repo' repo ∧ errorInvariant repo'.
Proof.
  intros H. destruct (processRepository_inv _ _ _ _ _ _ H) as [res Hres].
  rewrite (processRepository_eq _ _ _ _ _ _ Hres) in H. injection H as <-.
  unfold sameRepository, errorInvariant.
  destruct res as [err|mrs]; [done|].
  case_bool_decide; [done|]. by destruct (existsb mr_HasConflicts mrs).
Qed.

Lemma processAll_cons fuel rs repo rest w :
  processAll fuel rs (repo :: rest) w =
  match processRepository fuel rs repo w with
  | Some (processed, w1) =>
      match processAll fuel rs rest w1 with
      | Some (others, w2) => Some (processed :: others, w2)
      | None => None
      end
  | None => None
  end.
Proof.
  cbn [processAll]. unfold mbind, M_bind.
  destruct (processRepository fuel rs repo w) as [[p w1]|]; [|done].
  by destruct (processAll fuel rs rest w1) as [[o w2]|].
Qed.

Lemma processAll_post fuel rs repos w out w1 :
  processAll fuel rs repos w = Some (out, w1) →
  Forall2 sameRepository out repos ∧ Forall errorInvariant out.
Proof.
  revert w out w1. induction repos as [|repo rest IH]; intros w out w1.
  - intros [= <- _]. split; constructor.
  - rewrite processAll_cons.
    destruct (processRepository fuel rs repo w) as [[p w2]|] eqn:Hp; [|done].
    destruct (processAll fuel rs rest w2) as [[o w3]|] eqn:Ho; [|done].
    intros [= <- _].
    destruct (processRepository_post _ _ _ _ _ _ Hp) as [Hsame Hinv].
    destruct (IH _ _ _ Ho) as [Hsames Hinvs].
    split; by constructor.
Qed.

Lemma processAll_is_Some fuel rs repos w :
  (∀ id w', is_Some (gitlab.ListMergeRequests fuel (client rs) id "release" "master" w')) →
  is_Some (processAll fuel rs repos w).
Proof.
  intros Hlist. revert w. induction repos as [|repo rest IH]; intros w; [by eexists|].
  rewrite processAll_cons.
  destruct (Hlist (repo_ID repo) w) as [[res w1] Hres].
  rewrite (processRepository_eq _ _ _ _ _ _ Hres).
  destruct (IH w1) as [[o w2] ->]. by eexists.
Qed.

Lemma processAll_scannedBy fuel rs repos w out w1 :
  processAll fuel rs repos w = Some (out, w1) → scannedBy fuel rs repos w out w1.
Proof.
  revert w out w1. induction repos as [|repo rest IH]; intros w out w1.
  - intros [= <- <-]. constructor.
  - rewrite processAll_cons.
    destruct (processRepository fuel rs repo w) as [[p w2]|] eqn:Hp; [|done].
    destruct (processAll fuel rs rest w2) as [[o w3]|] eqn:Ho; [|done].
    intros [= <- <-].
    destruct (processRepository_inv _ _ _ _ _ _ Hp) as [res Hres].
    econstructor; [exact Hres|exact Hp|by apply IH].
Qed.

Lemma ScanRepositories_eq fuel rs w :
  ScanRepositories fuel rs w =
  match gitlab.ListRepositories fuel (client rs) w with
  | Some (inl err, w1) => Some (inl ("failed to retrieve repositories: " +:+ err), w1)
  | Some (inr repos, w1) =>
      match processAll fuel rs (filterRepositories rs repos) w1 with
      | Some (out, w2) => Some (inr out, w2)
      | None => None
      end
  | None => None
  end.
Proof.
  unfold ScanRepositories, mbind, M_bind.
  by destruct (gitlab.ListRepositories fuel (client rs) w) as [[[err|repos] w1]|].
Qed.

End scanner_props.

(** ** The analyzer *)

Section analyzer_props.
Import analyzer.
Context {W : Type}.
Implicit Types (c : gitlab.Client W) (w : W).

Lemma hasActualChanges_eq c projectID mrID w :
  hasActualChanges c projectID mrID w =
  Some (match (gitlab.GetMergeRequestChanges c projectID mrID w).1 with
        | inl _ => true
        | inr changesCount => bool_decide (0 < changesCount)
        end, (gitlab.GetMergeRequestChanges c projectID mrID w).2).
Proof.
  unfold hasActualChanges, mbind, M_bind, liftCall.
  by destruct (gitlab.GetMergeRequestChanges c projectID mrID w) as [[err|n] w1].
Qed.

Lemma filterReal_cons c projectID mr rest acc w :
  filterReal c projectID (mr :: rest) acc w =
  if releaseToMasterConflict mr then
    match (gitlab.GetMergeRequestChanges c projectID (mr_ID mr) w).1 with
    | inl _ => filterReal c projectID rest (acc ++ [mr])
                 (gitlab.GetMergeRequestChanges c projectID (mr_ID mr) w).2
    | inr n =>
        if bool_decide (0 < n) then
          filterReal c projectID rest (acc ++ [mr])
            (gitlab.GetMergeRequestChanges c projectID (mr_ID mr) w).2
        else filterReal c projectID rest acc
               (gitlab.GetMergeRequestChanges c projectID (mr_ID mr) w).2
    end
  else filterReal c projectID rest acc w.
Proof.
  cbn [filterReal]. destruct (releaseToMasterConflict mr); [|done].
  unfold mbind, M_bind. rewrite hasActualChanges_eq.
  destruct (gitlab.GetMergeRequestChanges c projectID (mr_ID mr) w) as [[err|n] w1];
    simpl; [done|]. by case_bool_decide.
Qed.

Lemma filterReal_keptBy c projectID mrs acc w :
  ∃ kept w', keptBy c projectID mrs w kept w' ∧
    filterReal c projectID mrs acc w = Some (acc ++ kept, w').
Proof.
  revert acc w. induction mrs as [|mr rest IH]; intros acc w.
  - exists [], w. split; [constructor|]. by rewrite app_nil_r.
  - rewrite filterReal_cons.
    destruct (releaseToMasterConflict mr) eqn:Hq.
    + destruct (gitlab.GetMergeRequestChanges c projectID (mr_ID mr) w)
        as [[err|n] w1] eqn:Hlookup; simpl.
      * destruct (IH (acc ++ [mr]) w1) as (kept & w' & Hk & Hf).
        exists (mr :: kept), w'. split; [by eapply keptBy_failed|].
        by rewrite Hf, <-app_assoc.
      * case_bool_decide.
        -- destruct (IH (acc ++ [mr]) w1) as (kept & w' & Hk & Hf).
           exists (mr :: kept), w'. split; [by eapply keptBy_positive|].
           by rewrite Hf, <-app_assoc.
        -- destruct (IH acc w1) as (kept & w' & Hk & Hf).
           exists kept, w'. split; [eapply keptBy_empty; [done..|lia|done]|done].
    + destruct (IH acc w) as (kept & w' & Hk & Hf).
      exists kept, w'. split; [by constructor|done].
Qed.

Lemma keptBy_functional c projectID mrs w kept1 w1 kept2 w2 :
  keptBy c projectID mrs w kept1 w1 → keptBy c projectID mrs w kept2 w2 →
  kept1 = kept2 ∧ w1 = w2.
Proof.
  intros H1. revert kept2 w2.
  induction H1 as [w|mr rest w kept w' Hq H1 IH|mr rest w err wa kept w' Hq Hl H1 IH
                  |mr rest w n wa kept w' Hq Hl Hn H1 IH|mr rest w n wa kept w' Hq Hl Hn H1 IH];
    intros kept2 w2 H2; inversion H2; simplify_eq; try done; try congruence;
    repeat match goal with
           | Ha : ?x = (_, _), Hb : ?x = (_, _) |- _ => rewrite Ha in Hb; simplify_eq
           end;
    try lia; (edestruct IH as [? ?]; [eassumption|by subst]).
Qed.

Lemma keptBy_sublist c projectID mrs w kept w' :
  keptBy c projectID mrs w kept w' →
  kept `sublist_of` List.filter releaseToMasterConflict mrs.
Proof.
  induction 1 as [w|mr rest w kept w' Hq H1 IH|mr rest w err wa kept w' Hq Hl H1 IH
                 |mr rest w n wa kept w' Hq Hl Hn H1 IH|mr rest w n wa kept w' Hq Hl Hn H1 IH];
    simpl; rewrite ?Hq; try done.
  - by constructor.
  - by constructor.
  - by constructor.
Qed.

(** When the answer of a change-count lookup depends on the merge request
    only, the merge requests kept are those of the input that are
    conflicting release-to-master merge requests and whose answer lets them
    through. *)
Lemma keptBy_stateless c projectID mrs w kept w' (answer : Z → error + Z) :
  (∀ mrID w0, (gitlab.GetMergeRequestChanges c projectID mrID w0).1 = answer mrID) →
  keptBy c projectID mrs w kept w' →
  kept = List.filter (λ mr, releaseToMasterConflict mr && survives (answer (mr_ID mr))) mrs.
Proof.
  intros Hanswer.
  induction 1 as [w|mr rest w kept w' Hq H1 IH|mr rest w err wa kept w' Hq Hl H1 IH
                 |mr rest w n wa kept w' Hq Hl Hn H1 IH|mr rest w n wa kept w' Hq Hl Hn H1 IH];
    simpl; rewrite ?Hq; simpl; try done;
    pose proof (Hanswer (mr_ID mr) w) as Ha; rewrite Hl in Ha; simpl in Ha;
    rewrite <-Ha; simpl.
  - by f_equal.
  - rewrite bool_decide_true by done. by f_equal.
  - rewrite bool_decide_false by lia. done.
Qed.

Lemma filterAndSortReal_spec c projectID mrs w :
  ∃ kept conflicts w',
    keptBy c projectID mrs w kept w' ∧
    filterAndSortRealConflictingMRs c projectID mrs w = Some (conflicts, w') ∧
    conflicts ≡ₚ kept ∧ newestFirst conflicts.
Proof.
  destruct (filterReal_keptBy c projectID mrs [] w) as (kept & w' & Hk & Hf).
  destruct (Slice_createdAfter kept) as (out & Hout & Hperm & Hsorted & _).
  exists kept, out, w'. split; [done|]. split; [|done].
  unfold filterAndSortRealConflictingMRs, mbind, M_bind. rewrite Hf. simpl.
  unfold liftOption. by rewrite Hout.
Qed.

Lemma analyzeRepository_fetched fuel c repo w mrs w1 :
  gitlab.ListMergeRequests fuel c (repo_ID repo) "release" "master" w
    = Some (inr mrs, w1) →
  ∃ kept w2, keptBy c (repo_ID repo) mrs w1 kept w2 ∧
    analyzeRepository fuel c repo w =
      Some (inr (setStatus repo (analyzedStatus mrs kept)), w2).
Proof.
  intros Hlist.
  destruct (filterAndSortReal_spec c (repo_ID repo) mrs w1)
    as (kept & conflicts & w2 & Hk & Hf & Hperm & _).
  exists kept, w2. split; [done|].
  unfold analyzeRepository. rewrite (bind_Some _ _ _ _ _ Hlist).
  rewrite (bind_Some _ _ _ _ _ Hf).
  apply Permutation_length in Hperm.
  unfold analyzedStatus, len.
  destruct kept as [|k kept]; destruct conflicts as [|x conflicts];
    simpl in Hperm; try discriminate Hperm.
  - rewrite (bool_decide_false (0 < Z.of_nat (length (@nil MergeRequest)))) by (simpl; lia).
    destruct mrs as [|mr mrs].
    + by rewrite bool_decide_false by (simpl; lia).
    + by rewrite bool_decide_true by (simpl; lia).
  - by rewrite bool_decide_true by (simpl; lia).
Qed.

Lemma analyzeRepository_failed fuel c repo w err w1 :
  gitlab.ListMergeRequests fuel c (repo_ID repo) "release" "master" w
    = Some (inl err, w1) →
  analyzeRepository fuel c repo w =
    Some (inl ("failed to fetch merge requests for repository " +:+ repo_Name repo
               +:+ ": " +:+ err), w1).
Proof.
  intros Hlist. unfold analyzeRepository. by rewrite (bind_Some _ _ _ _ _ Hlist).
Qed.

Lemma analyzeAll_analyzedBy fuel c repos acc w res w' :
  analyzeAll fuel c repos acc w = Some (res, w') ↔
  ∃ out, res = acc ++ out ∧ analyzedBy fuel c repos w out w'.
Proof.
  revert acc w. induction repos as [|repo rest IH]; intros acc w.
  - simpl. split.
    + intros [= <- <-]. exists []. split; [by rewrite app_nil_r|constructor].
    + intros (out & -> & Hout). inversion Hout; subst. by rewrite app_nil_r.
  - cbn [analyzeAll]. unfold mbind, M_bind.
    destruct (analyzeOne fuel c repo w) as [[r w1]|] eqn:Hone.
    + rewrite IH. split.
      * intros (out & -> & Hout). exists (r :: out).
        split; [by rewrite <-app_assoc|]. by econstructor.
      * intros (out & -> & Hout). inversion Hout; simplify_eq.
        eexists. split; [|done]. by rewrite <-app_assoc.
    + split; [done|]. intros (out & -> & Hout). inversion Hout; simplify_eq.
Qed.


Lemma analyzedStatus_not_error mrs kept : analyzedStatus mrs kept ≠ StatusError.
Proof. unfold analyzedStatus. destruct kept, mrs; done. Qed.

Lemma analyzeOne_error fuel c repo w :
  repo_Status repo = StatusError → analyzeOne fuel c repo w = Some (repo, w).
Proof. intros Hst. unfold analyzeOne. by rewrite bool_decide_true. Qed.

Lemma analyzeOne_failed fuel c repo w err w1 :
  repo_Status repo ≠ StatusError →
  gitlab.ListMergeRequests fuel c (repo_ID repo) "release" "master" w
    = Some (inl err, w1) →
  analyzeOne fuel c repo w =
    Some (setStatusError repo
            ("failed to fetch merge requests for repository " +:+ repo_Name repo
             +:+ ": " +:+ err), w1).
Proof.
  intros Hst Hlist. unfold analyzeOne. rewrite bool_decide_false by done.
  by rewrite (bind_Some _ _ _ _ _ (analyzeRepository_failed _ _ _ _ _ _ Hlist)).
Qed.

Lemma analyzeOne_fetched fuel c repo w mrs w1 :
  repo_Status repo ≠ StatusError →
  gitlab.ListMergeRequests fuel c (repo_ID repo) "release" "master" w
    = Some (inr mrs, w1) →
  ∃ kept w2, keptBy c (repo_ID repo) mrs w1 kept w2 ∧
    analyzeOne fuel c repo w = Some (setStatus repo (analyzedStatus mrs kept), w2).
Proof.
  intros Hst Hlist.
  destruct (analyzeRepository_fetched _ _ _ _ _ _ Hlist) as (kept & w2 & Hk & Ha).
  exists kept, w2. split; [done|].
  unfold analyzeOne. rewrite bool_decide_false by done.
  by rewrite (bind_Some _ _ _ _ _ Ha).
Qed.

Lemma analyzeOne_cases fuel c repo w r w1 :
  analyzeOne fuel c repo w = Some (r, w1) →
  (repo_Status repo = StatusError ∧ r = repo) ∨
  (repo_Status repo ≠ StatusError ∧
   ((∃ err, r = setStatusError repo err) ∨
    (∃ st, st ≠ StatusError ∧ r = setStatus repo st))).
Proof.
  intros Hone. destruct (decide (repo_Status repo = StatusError)) as [Hst|Hst].
  - left. rewrite analyzeOne_error in Hone by done. by injection Hone as <-.
  - right. split; [done|].
    assert (∃ res w0, gitlab.ListMergeRequests fuel c (repo_ID repo) "release" "master" w
              = Some (res, w0)) as (res & w0 & Hlist).
    { unfold analyzeOne in Hone. rewrite bool_decide_false in Hone by done.
      apply bind_inv in Hone as (x & w2 & Hrepo & _).
      unfold analyzeRepository in Hrepo.
      apply bind_inv in Hrepo as (res & w0 & Hlist & _). eauto. }
    destruct res as [err|mrs].
    + rewrite (analyzeOne_failed _ _ _ _ _ _ Hst Hlist) in Hone.
      injection Hone as <-. left. eauto.
    + destruct (analyzeOne_fetched _ _ _ _ _ _ Hst Hlist) as (kept & w2 & _ & Heq).
      rewrite Heq in Hone. injection Hone as <-. right.
      eexists. split; [apply analyzedStatus_not_error|done].
Qed.

Lemma analyzeOne_invariant fuel c repo w r w1 :
  analyzeOne fuel c repo w = Some (r, w1) → errorInvariant repo → errorInvariant r.
Proof.
  intros Hone Hinv.
  destruct (analyzeOne_cases _ _ _ _ _ _ Hone)
    as [[_ ->]|[Hst [[err ->]|(st & Hne & ->)]]]; [done|done|].
  unfold errorInvariant in *. simpl. split; [done|].
  intros Herr. destruct Hinv as [_ Hinv]. by specialize (Hinv Herr).
Qed.

Lemma analyzedBy_invariant fuel c repos w out w' :
  analyzedBy fuel c repos w out w' →
  Forall errorInvariant repos → Forall errorInvariant out.
Proof.
  induction 1 as [|repo rest w r w1 out w' Hone Hrest IH]; [done|].
  intros Hall. apply Forall_cons in Hall as [Hrepo Hall].
  constructor; [by eapply analyzeOne_invariant|by apply IH].
Qed.

Lemma analyzedBy_length fuel c repos w out w' :
  analyzedBy fuel c repos w out w' → length out = length repos.
Proof. induction 1; simpl; congruence. Qed.

Lemma AnalyzeMRs_analyzedBy fuel c repos w res w' :
  AnalyzeMRs fuel (Some c) repos w = Some (res, w') ↔
  ∃ out, res = inr out ∧ analyzedBy fuel c repos w out w'.
Proof.
  unfold AnalyzeMRs, mbind, M_bind.
  destruct (analyzeAll fuel c repos [] w) as [[out w1]|] eqn:Hall.
  - apply analyzeAll_analyzedBy in Hall as (out' & -> & Hout). simpl. split.
    + intros [= <- <-]. eauto.
    + intros (out2 & -> & Hout2).
      assert (analyzeAll fuel c repos [] w = Some ([] ++ out2, w')) as Heq
        by (apply analyzeAll_analyzedBy; eauto).
      assert (analyzeAll fuel c repos [] w = Some ([] ++ out', w1)) as Heq'
        by (apply analyzeAll_analyzedBy; eauto).
      rewrite Heq in Heq'. by simplify_eq/=.
  - split; [done|]. intros (out & -> & Hout).
    assert (analyzeAll fuel c repos [] w = Some ([] ++ out, w')) as Heq
      by (apply analyzeAll_analyzedBy; eauto).
    congruence.
Qed.

(** *** The map of [GetConflictingMRs] *)

Lemma conflictsOne_skip fuel client m repo w :
  repo_Status repo ≠ StatusConflicts → conflictsOne fuel client m repo w = Some (m, w).
Proof. intros Hst. unfold conflictsOne. by rewrite bool_decide_false. Qed.

Lemma conflictsOne_failed fuel c m repo w err w1 :
  repo_Status repo = StatusConflicts →
  gitlab.ListMergeRequests fuel c (repo_ID repo) "release" "master" w
    = Some (inl err, w1) →
  conflictsOne fuel (Some c) m repo w = Some (m, w1).
Proof.
  intros Hst Hlist. unfold conflictsOne. rewrite bool_decide_true by done.
  by rewrite (bind_Some _ _ _ _ _ Hlist).
Qed.

Lemma conflictsOne_fetched fuel c m repo w mrs w1 :
  repo_Status repo = StatusConflicts →
  gitlab.ListMergeRequests fuel c (repo_ID repo) "release" "master" w
    = Some (inr mrs, w1) →
  ∃ kept conflicts w2,
    keptBy c (repo_ID repo) mrs w1 kept w2 ∧
    filterAndSortRealConflictingMRs c (repo_ID repo) mrs w1 = Some (conflicts, w2) ∧
    conflicts ≡ₚ kept ∧ newestFirst conflicts ∧
    conflictsOne fuel (Some c) m repo w =
      Some (match conflicts with
            | [] => m
            | _ :: _ => <[repo_ID repo := conflicts]> m
            end, w2).
Proof.
  intros Hst Hlist.
  destruct (filterAndSortReal_spec c (repo_ID repo) mrs w1)
    as (kept & conflicts & w2 & Hk & Hf & Hperm & Hsorted).
  exists kept, conflicts, w2. do 4 (split; [done|]).
  unfold conflictsOne. rewrite bool_decide_true by done.
  rewrite (bind_Some _ _ _ _ _ Hlist), (bind_Some _ _ _ _ _ Hf).
  destruct conflicts as [|x conflicts].
  - by rewrite bool_decide_false by (unfold len; simpl; lia).
  - by rewrite bool_decide_true by (unfold len; simpl; lia).
Qed.

(** What one turn of the loop does to the map, in terms of [contributes]. *)
Lemma conflictsOne_cases fuel client m repo w m1 w1 :
  conflictsOne fuel client m repo w = Some (m1, w1) →
  (contributes fuel client repo w ∧
   ∃ conflicts, conflicts ≠ [] ∧ m1 = <[repo_ID repo := conflicts]> m) ∨
  (¬ contributes fuel client repo w ∧ m1 = m).
Proof.
  intros Hone.
  destruct (decide (repo_Status repo = StatusConflicts)) as [Hst|Hst].
  2:{ right. rewrite conflictsOne_skip in Hone by done. injection Hone as <- <-.
      split; [|done]. by intros [? _]. }
  destruct client as [c|].
  2:{ unfold conflictsOne in Hone. by rewrite bool_decide_true in Hone by done. }
  assert (∃ res w0, gitlab.ListMergeRequests fuel c (repo_ID repo) "release" "master" w
            = Some (res, w0)) as (res & w0 & Hlist).
  { unfold conflictsOne in Hone. rewrite bool_decide_true in Hone by done.
    apply bind_inv in Hone as (res & w0 & Hlist & _). eauto. }
  destruct res as [err|mrs].
  - right. rewrite (conflictsOne_failed _ _ _ _ _ _ _ Hst Hlist) in Hone.
    injection Hone as <- <-. split; [|done].
    intros (_ & c' & mrs & w2 & kept & w3 & [= <-] & Hlist' & _). congruence.
  - destruct (conflictsOne_fetched fuel c m repo w mrs w0 Hst Hlist)
      as (kept & conflicts & w2 & Hk & _ & Hperm & _ & Heq).
    rewrite Heq in Hone. injection Hone as <- <-.
    destruct conflicts as [|x conflicts].
    + right. split; [|done]. apply Permutation_nil_l in Hperm. subst kept.
      intros (_ & c' & mrs' & w3 & kept' & w4 & [= <-] & Hlist' & Hk' & Hne).
      rewrite Hlist in Hlist'. simplify_eq.
      destruct (keptBy_functional _ _ _ _ _ _ _ _ Hk Hk') as [<- _]. done.
    + left. split.
      * split; [done|]. exists c, mrs, w0, kept, w2. do 3 (split; [done|]).
        intros ->. by apply Permutation_nil_r in Hperm.
      * eexists. split; [|done]. done.
Qed.

Lemma conflictsOne_world fuel client m m' repo w m1 w1 :
  conflictsOne fuel client m repo w = Some (m1, w1) →
  ∃ m1', conflictsOne fuel client m' repo w = Some (m1', w1).
Proof.
  unfold conflictsOne. case_bool_decide; [|intros [= _ <-]; eauto].
  destruct client as [c|]; [|done]. unfold mbind, M_bind.
  destruct (gitlab.ListMergeRequests _ _ _ _ _ _) as [[[err|mrs] w0]|]; [|..|done].
  - intros [= _ <-]. eauto.
  - destruct (filterAndSortRealConflictingMRs _ _ _ _) as [[conflicts w2]|]; [|done].
    case_bool_decide; intros [= _ <-]; eauto.
Qed.

Lemma collectedBy_nonempty fuel client repos m w m' w' :
  collectedBy fuel client repos m w m' w' →
  (∀ k v, m !! k = Some v → v ≠ []) → ∀ k v, m' !! k = Some v → v ≠ [].
Proof.
  induction 1 as [|repo rest m w m1 w1 m' w' Hone Hrest IH]; [done|].
  intros Hm. apply IH.
  destruct (conflictsOne_cases _ _ _ _ _ _ _ Hone)
    as [(_ & conflicts & Hne & ->)|(_ & ->)]; [|done].
  intros k v. rewrite lookup_insert. case_decide; [congruence|]. apply Hm.
Qed.

Lemma collectedBy_keys fuel client repos m w m' w' :
  collectedBy fuel client repos m w m' w' →
  ∀ k, is_Some (m' !! k) ↔
    is_Some (m !! k) ∨
    ∃ repo wi, reachedBy fuel client repos w repo wi ∧ repo_ID repo = k ∧
               contributes fuel client repo wi.
Proof.
  induction 1 as [m w|repo rest m w m1 w1 m' w' Hone Hrest IH]; intros k.
  - split; [by left|]. intros [?|(repo & wi & Hr & _)]; [done|]. inversion Hr.
  - rewrite IH.
    destruct (conflictsOne_world _ _ _ ∅ _ _ _ _ Hone) as [m0 Hone0].
    destruct (conflictsOne_cases _ _ _ _ _ _ _ Hone)
      as [(Hc & conflicts & Hne & ->)|(Hc & ->)].
    + rewrite lookup_insert_is_Some. split.
      * intros [[<-|[_ ?]]|(r & wi & Hr & Hk & Hcr)].
        -- right. exists repo, w. split; [constructor|done].
        -- by left.
        -- right. exists r, wi. split; [by econstructor|done].
      * intros [?|(r & wi & Hr & Hk & Hcr)].
        -- left. destruct (decide (repo_ID repo = k)); [by left|by right].
        -- inversion Hr; simplify_eq.
           ++ left. by left.
           ++ right. eauto.
    + split.
      * intros [?|(r & wi & Hr & Hk & Hcr)]; [by left|].
        right. exists r, wi. split; [by econstructor|done].
      * intros [?|(r & wi & Hr & Hk & Hcr)]; [by left|].
        inversion Hr; simplify_eq; [done|]. right. eauto.
Qed.

Lemma conflictsAll_collectedBy fuel client repos m w m' w' :
  conflictsAll fuel client repos m w = Some (m', w') ↔
  collectedBy fuel client repos m w m' w'.
Proof.
  revert m w. induction repos as [|repo rest IH]; intros m w.
  - simpl. split.
    + intros [= <- <-]. constructor.
    + intros Hc. inversion Hc; by subst.
  - cbn [conflictsAll]. unfold mbind, M_bind.
    destruct (conflictsOne fuel client m repo w) as [[m1 w1]|] eqn:Hone.
    + rewrite IH. split; [by econstructor|].
      intros Hc. inversion Hc; simplify_eq. done.
    + split; [done|]. intros Hc. inversion Hc; simplify_eq.
Qed.

Lemma GetConflictingMRs_collectedBy fuel client repos w res w' :
  GetConflictingMRs fuel client repos w = Some (res, w') ↔
  ∃ m, res = (m, None) ∧ collectedBy fuel client repos ∅ w m w'.
Proof.
  unfold GetConflictingMRs, mbind, M_bind.
  destruct (conflictsAll fuel client repos ∅ w) as [[m w1]|] eqn:Hall.
  - apply conflictsAll_collectedBy in Hall. simpl. split.
    + intros [= <- <-]. eauto.
    + intros (m2 & -> & Hm2). apply conflictsAll_collectedBy in Hall, Hm2.
      rewrite Hall in Hm2. by simplify_eq.
  - split; [done|]. intros (m & -> & Hm). apply conflictsAll_collectedBy in Hm.
    congruence.
Qed.

Lemma reachedBy_elem_of fuel client repos w repo wi :
  reachedBy fuel client repos w repo wi → repo ∈ repos.
Proof. induction 1; [left|by right]. Qed.

Lemma reachedBy_unique fuel client repos w r1 w1 r2 w2 :
  NoDup (repo_ID <$> repos) →
  reachedBy fuel client repos w r1 w1 → reachedBy fuel client repos w r2 w2 →
  repo_ID r1 = repo_ID r2 → r1 = r2 ∧ w1 = w2.
Proof.
  intros Hnd H1. revert r2 w2.
  induction H1 as [repo rest w|repo rest w m1 wn r wi Hone Hr IH]; intros r2 w2 H2 Hid;
    rewrite fmap_cons in Hnd; apply NoDup_cons in Hnd as [Hnotin Hnd];
    inversion H2; simplify_eq.
  - done.
  - exfalso. apply Hnotin. rewrite Hid. apply list_elem_of_fmap. exists r2.
    split; [done|]. by eapply reachedBy_elem_of.
  - exfalso. apply Hnotin. rewrite <-Hid. apply list_elem_of_fmap. exists r.
    split; [done|]. by eapply reachedBy_elem_of.
  - by apply IH.
Qed.

End analyzer_props.

(** ** The claims about the scanner *)

Section scanner_claims.
Import scanner.

(** C4. Scanner classification: when the listing of the merge requests
    from release to master of a repository returns, [processRepository]
    returns the repository with the status [StatusError] and the error
    stored if the listing failed, [StatusNoMRs] if it is empty,
    [StatusConflicts] if one of its merge requests has [HasConflicts] set,
    and [StatusNoMRs] otherwise.  The scan is not aborted: the loop goes on
    with the repositories that follow, whatever the result of the listing.
    [ScanRepositories] is that loop over the repositories that passed the
    whitelist, started in the world the listing of the repositories left;
    when every listing of merge requests returns it returns a list, never
    an error, and every entry of the list is what [processRepository]
    returned for the repository at the same place, from the listing of its
    merge requests in the world the repositories before it left. *)
Theorem processRepository_classification {W} fuel (rs : RepositoryScanner W)
    repo w res w1 :
  gitlab.ListMergeRequests fuel (client rs) (repo_ID repo) "release" "master" w
    = Some (res, w1) →
  ∃ repo',
    processRepository fuel rs repo w = Some (repo', w1) ∧
    sameRepository repo' repo ∧
    match res with
    | inl err => repo_Status repo' = StatusError ∧ repo_Error repo' = Some err
    | inr mrs =>
        repo_Error repo' = None ∧
        (mrs = [] → repo_Status repo' = StatusNoMRs) ∧
        ((∃ mr, mr ∈ mrs ∧ mr_HasConflicts mr = true) →
         repo_Status repo' = StatusConflicts) ∧
        (mrs ≠ [] → (∀ mr, mr ∈ mrs → mr_HasConflicts mr = false) →
         repo_Status repo' = StatusNoMRs)
    end ∧
    (∀ rest,
       processAll fuel rs (repo :: rest) w =
       match processAll fuel rs rest w1 with
       | Some (others, w2) => Some (repo' :: others, w2)
       | None => None
       end) ∧
    processAll fuel rs [] w1 = Some ([], w1) ∧
    (∀ w0 repos w0',
       gitlab.ListRepositories fuel (client rs) w0 = Some (inr repos, w0') →
       ScanRepositories fuel rs w0 =
         match processAll fuel rs (filterRepositories rs repos) w0' with
         | Some (out, w2) => Some (inr out, w2)
         | None => None
         end ∧
       (∀ result w2,
          ScanRepositories fuel rs w0 = Some (result, w2) →
          ∃ out, result = inr out ∧ scannedBy fuel rs (filterRepositories rs repos) w0' out w2) ∧
       ((∀ id w', is_Some (gitlab.ListMergeRequests fuel (client rs) id
                             "release" "master" w')) →
        ∃ out w2, ScanRepositories fuel rs w0 = Some (inr out, w2))).
Proof.
  intros Hlist. pose proof (processRepository_eq _ _ _ _ _ _ Hlist) as Heq.
  eexists. split; [exact Heq|].
  destruct (processRepository_post _ _ _ _ _ _ Heq) as [Hsame _].
  split; [exact Hsame|]. split; [|split; [|split]].
  - destruct res as [err|mrs]; [done|].
    case_bool_decide as Hlen.
    + assert (mrs = []) as ->
        by (destruct mrs; [done|]; unfold len in Hlen; simpl in Hlen; lia).
      split; [done|]. split; [done|]. split; [|done].
      intros (mr & Hin & _). by apply not_elem_of_nil in Hin.
    + assert (mrs ≠ []) as Hne by (intros ->; by apply Hlen).
      destruct (existsb mr_HasConflicts mrs) eqn:Hex.
      * split; [done|]. split; [done|]. split; [done|].
        intros _ Hnone. apply existsb_exists in Hex as (mr & Hin & Hc).
        apply list_elem_of_In in Hin. rewrite (Hnone mr Hin) in Hc. done.
      * split; [done|]. split; [done|]. split; [|done].
        intros (mr & Hin & Hc). apply list_elem_of_In in Hin.
        assert (existsb mr_HasConflicts mrs = true) as Hex'
          by (apply existsb_exists; eauto).
        congruence.
  - intros rest. rewrite processAll_cons, Heq. done.
  - reflexivity.
  - intros w0 repos w0' Hrepos.
    pose proof (ScanRepositories_eq fuel rs w0) as Hscan. rewrite Hrepos in Hscan.
    split; [exact Hscan|]. split.
    + intros result w2 Hresult. rewrite Hscan in Hresult.
      destruct (processAll fuel rs (filterRepositories rs repos) w0')
        as [[out w3]|] eqn:Hall; [|done].
      injection Hresult as <- <-. exists out. split; [done|].
      by apply processAll_scannedBy.
    + intros Hreturns. rewrite Hscan.
      destruct (processAll_is_Some fuel rs (filterRepositories rs repos) w0' Hreturns)
        as [[out w2] ->].
      by eexists _, _.
Qed.

(** C6. Completeness: when the server splits the repositories into pages
    of which all but the last hold at least the page size of 100 and the
    last holds fewer, [ListRepositories] returns the pages put end to end;
    [ScanRepositories] then returns the repositories whose namespace passes
    the whitelist (all of them when the whitelist is empty), as many as in
    the source, with the same identity and in the same order; and it
    returns as soon as every listing of merge requests does. *)
Theorem ScanRepositories_complete {W} fuel (rs : RepositoryScanner W) pages w :
  served (client rs) pages → paginated pages → len pages ≤ max_int →
  (length pages ≤ fuel)%nat →
  (∃ w1, gitlab.ListRepositories fuel (client rs) w = Some (inr (concat pages), w1)) ∧
  (∀ result w2, ScanRepositories fuel rs w = Some (result, w2) →
     ∃ out, result = inr out ∧
       Forall2 sameRepository out (filter (passes (includeGroups rs)) (concat pages))) ∧
  ((∀ id w', is_Some (gitlab.ListMergeRequests fuel (client rs) id "release" "master" w')) →
   is_Some (ScanRepositories fuel rs w)).
Proof.
  intros Hserved Hpages Hmax Hfuel.
  destruct (ListRepositories_pages (client rs) pages fuel w Hserved Hpages Hmax Hfuel)
    as [w1 Hrepos].
  split; [eauto|]. split.
  - intros result w2. rewrite ScanRepositories_eq, Hrepos.
    destruct (processAll fuel rs _ w1) as [[out w3]|] eqn:Hall; [|done].
    intros [= <- <-]. exists out. split; [done|].
    rewrite <-filterRepositories_passes.
    by destruct (processAll_post _ _ _ _ _ _ Hall).
  - intros Hlist. rewrite ScanRepositories_eq, Hrepos.
    destruct (processAll_is_Some fuel rs (filterRepositories rs (concat pages)) w1 Hlist)
      as [[out w3] ->].
    by eexists.
Qed.

End scanner_claims.

(** ** The claims about the analyzer *)

Section analyzer_claims.
Import analyzer.

(** C5. Analyzer classification: for a repository that is not in error and
    whose listing succeeds, the filtering loop of
    [filterAndSortRealConflictingMRs] returns exactly the merge requests
    described by [keptBy], in the order of the listing (a conflicting
    release-to-master merge request passes exactly when its change-count
    lookup fails or returns a positive count), and the function returns
    them sorted newest first: a merge request survives the filter exactly
    when it is one of them.  When the answers of the lookups do not change
    with the world, the survivors are the merge requests of the listing
    that are conflicting release-to-master merge requests and whose lookup
    failed or returned a positive count.  The repository gets the status
    [StatusConflicts] if one survived, [StatusAccessible] if none survived
    but the listing held a merge request, [StatusNoMRs] if the listing was
    empty.  That is the entry [AnalyzeMRs] returns for it. *)
Theorem AnalyzeMRs_classification {W} fuel (c : gitlab.Client W) repo w mrs w1 :
  repo_Status repo ≠ StatusError →
  gitlab.ListMergeRequests fuel c (repo_ID repo) "release" "master" w
    = Some (inr mrs, w1) →
  ∃ kept survivors w2 analyzedRepo,
    keptBy c (repo_ID repo) mrs w1 kept w2 ∧
    filterReal c (repo_ID repo) mrs [] w1 = Some (kept, w2) ∧
    filterAndSortRealConflictingMRs c (repo_ID repo) mrs w1 = Some (survivors, w2) ∧
    survivors ≡ₚ kept ∧ newestFirst survivors ∧
    (∀ mr, mr ∈ survivors ↔ mr ∈ kept) ∧
    kept `sublist_of` List.filter releaseToMasterConflict mrs ∧
    (∀ answer : Z → error + Z,
       (∀ mrID w0,
          (gitlab.GetMergeRequestChanges c (repo_ID repo) mrID w0).1 = answer mrID) →
       kept = List.filter
                (λ mr, releaseToMasterConflict mr && survives (answer (mr_ID mr))) mrs ∧
       ∀ mr, mr ∈ survivors ↔
             mr ∈ mrs ∧ releaseToMasterConflict mr = true ∧
             match answer (mr_ID mr) with
             | inl _ => True
             | inr changesCount => 0 < changesCount
             end) ∧
    analyzeOne fuel c repo w = Some (analyzedRepo, w2) ∧
    sameRepository analyzedRepo repo ∧
    (survivors ≠ [] → repo_Status analyzedRepo = StatusConflicts) ∧
    (survivors = [] → mrs ≠ [] → repo_Status analyzedRepo = StatusAccessible) ∧
    (mrs = [] → repo_Status analyzedRepo = StatusNoMRs) ∧
    (kept ≠ [] → repo_Status analyzedRepo = StatusConflicts) ∧
    (kept = [] → mrs ≠ [] → repo_Status analyzedRepo = StatusAccessible) ∧
    (∀ rest out w', analyzedBy fuel c rest w2 out w' →
       AnalyzeMRs fuel (Some c) (repo :: rest) w = Some (inr (analyzedRepo :: out), w')).
Proof.
  intros Hst Hlist.
  destruct (analyzeOne_fetched _ _ _ _ _ _ Hst Hlist) as (kept & w2 & Hk & Hone).
  destruct (filterAndSortReal_spec c (repo_ID repo) mrs w1)
    as (kept' & survivors & w2' & Hk' & Hsort & Hperm & Hnewest).
  destruct (keptBy_functional _ _ _ _ _ _ _ _ Hk' Hk) as [-> ->].
  destruct (filterReal_keptBy c (repo_ID repo) mrs [] w1) as (kept' & w2' & Hk2 & Hloop).
  destruct (keptBy_functional _ _ _ _ _ _ _ _ Hk2 Hk) as [-> ->].
  assert (∀ mr, mr ∈ survivors ↔ mr ∈ kept) as Hmem
    by (intros mr; by rewrite Hperm).
  assert (survivors = [] ↔ kept = []) as Hnil.
  { split; intros ->.
    - by apply Permutation_nil_l in Hperm.
    - by apply Permutation_nil_r in Hperm. }
  exists kept, survivors, w2, (setStatus repo (analyzedStatus mrs kept)).
  split; [done|]. split; [exact Hloop|]. split; [exact Hsort|].
  split; [exact Hperm|]. split; [exact Hnewest|]. split; [exact Hmem|].
  split; [by eapply keptBy_sublist|].
  split.
  { intros answer Hanswer.
    pose proof (keptBy_stateless _ _ _ _ _ _ answer Hanswer Hk) as Hfilter.
    split; [exact Hfilter|]. intros mr. rewrite Hmem, Hfilter.
    rewrite list_elem_of_In, filter_In, <-list_elem_of_In, andb_true_iff.
    unfold survives. destruct (answer (mr_ID mr)) as [err|n].
    - split; intros (? & ? & ?); split_and!; done.
    - rewrite bool_decide_eq_true. split; intros (? & ? & ?); split_and!; done. }
  split; [done|]. split; [done|].
  assert (kept ≠ [] → repo_Status (setStatus repo (analyzedStatus mrs kept)) = StatusConflicts)
    as Hsome by (by destruct kept).
  assert (kept = [] → mrs ≠ [] →
          repo_Status (setStatus repo (analyzedStatus mrs kept)) = StatusAccessible)
    as Hnone by (intros ->; by destruct mrs).
  split; [intros Hne; apply Hsome; by rewrite <-Hnil|].
  split; [intros Hs; apply Hnone; by apply Hnil|].
  split; [intros ->; inversion Hk; subst; done|].
  split; [exact Hsome|]. split; [exact Hnone|].
  intros rest out w' Hrest. apply AnalyzeMRs_analyzedBy.
  eexists. split; [done|]. by econstructor.
Qed.

(** [AnalyzeMRs] relies on the Scanner for the error field: it changes the
    status of a repository whose listing succeeds and leaves its error as
    it was.  On a repository that comes in with a status other than
    [StatusError] and still with an error, which the Scanner never returns,
    the property does not hold after the pass either. *)
Lemma AnalyzeMRs_keeps_stale_error :
  ¬ analyzeYieldsInvariant 1 sampleClient [staleRepository] 0%nat.
Proof.
  intros Hclaim. specialize (Hclaim _ _ eq_refl).
  apply Forall_cons in Hclaim as [[_ Hinv] _].
  simpl in Hinv. by specialize (Hinv ltac:(done)).
Qed.

(** C7. Every repository classified by the Scanner has the status
    [StatusError] exactly when it carries an error, and so has every
    repository returned by [ScanRepositories]; [AnalyzeMRs] keeps the
    property: the repositories it returns have it when the repositories it
    was given have it.  So it holds after every pass of [AnalyzeMRs] over
    what [ScanRepositories] returned, whatever the client and the world of
    the pass. *)
Theorem errorInvariant_kept {W} fuel :
  (∀ (rs : scanner.RepositoryScanner W) repo w repo' w',
     scanner.processRepository fuel rs repo w = Some (repo', w') →
     errorInvariant repo') ∧
  (∀ (rs : scanner.RepositoryScanner W) w out w',
     scanner.ScanRepositories fuel rs w = Some (inr out, w') →
     Forall errorInvariant out) ∧
  (∀ (client : option (gitlab.Client W)) repos w out w',
     Forall errorInvariant repos →
     AnalyzeMRs fuel client repos w = Some (inr out, w') →
     Forall errorInvariant out) ∧
  (∀ (rs : scanner.RepositoryScanner W) (client : option (gitlab.Client W))
     fuel' w scanned w1 w2 analyzed w3,
     scanner.ScanRepositories fuel rs w = Some (inr scanned, w1) →
     AnalyzeMRs fuel' client scanned w2 = Some (inr analyzed, w3) →
     Forall errorInvariant scanned ∧ Forall errorInvariant analyzed).
Proof.
  assert (∀ (rs : scanner.RepositoryScanner W) w out w',
            scanner.ScanRepositories fuel rs w = Some (inr out, w') →
            Forall errorInvariant out) as Hscan.
  { intros rs w out w'. rewrite ScanRepositories_eq.
    destruct (gitlab.ListRepositories fuel (scanner.client rs) w)
      as [[[err|repos] w1]|]; [done| |done].
    destruct (scanner.processAll fuel rs _ w1) as [[o w2]|] eqn:Hall; [|done].
    intros [= <- <-]. by destruct (processAll_post _ _ _ _ _ _ Hall). }
  assert (∀ fuel' (client : option (gitlab.Client W)) repos w out w',
            Forall errorInvariant repos →
            AnalyzeMRs fuel' client repos w = Some (inr out, w') →
            Forall errorInvariant out) as Hpass.
  { intros fuel' [c|] repos w out w' Hall; [|done].
    intros H. apply AnalyzeMRs_analyzedBy in H as (out' & [= <-] & Hby).
    by eapply analyzedBy_invariant. }
  split; [|split; [|split]].
  - intros rs repo w repo' w' H. by destruct (processRepository_post _ _ _ _ _ _ H).
  - exact Hscan.
  - apply Hpass.
  - intros rs client fuel' w scanned w1 w2 analyzed w3 Hscanned Hanalyzed.
    pose proof (Hscan _ _ _ _ Hscanned) as Hinv.
    split; [exact Hinv|]. by eapply Hpass.
Qed.

(** C8. Errors of [AnalyzeMRs]: without a client it returns an error at
    once and the world is untouched; with a client, a repository whose
    status is [StatusError] is returned as it is without a query, a
    repository whose listing fails is returned with the status
    [StatusError] and the new error, and the call returns no error but the
    repositories analysed one after the other, each in its turn whatever
    happened to the ones before. *)
Theorem AnalyzeMRs_errors {W} fuel (c : gitlab.Client W) :
  (∀ repos (w : W),
     AnalyzeMRs fuel None repos w = Some (inl "gitlab client cannot be nil", w)) ∧
  (∀ repo w,
     repo_Status repo = StatusError → analyzeOne fuel c repo w = Some (repo, w)) ∧
  (∀ repo w err w1,
     repo_Status repo ≠ StatusError →
     gitlab.ListMergeRequests fuel c (repo_ID repo) "release" "master" w
       = Some (inl err, w1) →
     ∃ analyzedRepo,
       analyzeOne fuel c repo w = Some (analyzedRepo, w1) ∧
       sameRepository analyzedRepo repo ∧
       repo_Status analyzedRepo = StatusError ∧
       repo_Error analyzedRepo =
         Some ("failed to fetch merge requests for repository " +:+ repo_Name repo
               +:+ ": " +:+ err)) ∧
  (∀ repos w result w',
     AnalyzeMRs fuel (Some c) repos w = Some (result, w') ↔
     ∃ out, result = inr out ∧ analyzedBy fuel c repos w out w') ∧
  (∀ repos w out w',
     analyzedBy fuel c repos w out w' → length out = length repos).
Proof.
  split; [done|]. split; [|split; [|split]].
  - intros repo w Hst. by apply analyzeOne_error.
  - intros repo w err w1 Hst Hlist. eexists.
    split; [by apply analyzeOne_failed|]. done.
  - intros repos w result w'. apply AnalyzeMRs_analyzedBy.
  - intros repos w out w'. apply analyzedBy_length.
Qed.

(** C9. [GetConflictingMRs] queries only the repositories whose status is
    [StatusConflicts]; for such a repository whose listing fails the map
    is left as it is and nothing is reported; for one whose listing
    succeeds the merge requests that pass the filter, newest first, are
    stored under the repository ID when there is one; the call returns the
    map so collected and no error. *)
Theorem GetConflictingMRs_skips_failures {W} fuel (c : gitlab.Client W) :
  (∀ client m repo (w : W),
     repo_Status repo ≠ StatusConflicts →
     conflictsOne fuel client m repo w = Some (m, w)) ∧
  (∀ m repo w err w1,
     repo_Status repo = StatusConflicts →
     gitlab.ListMergeRequests fuel c (repo_ID repo) "release" "master" w
       = Some (inl err, w1) →
     conflictsOne fuel (Some c) m repo w = Some (m, w1)) ∧
  (∀ m repo w mrs w1,
     repo_Status repo = StatusConflicts →
     gitlab.ListMergeRequests fuel c (repo_ID repo) "release" "master" w
       = Some (inr mrs, w1) →
     ∃ kept conflicts w2,
       keptBy c (repo_ID repo) mrs w1 kept w2 ∧
       conflicts ≡ₚ kept ∧ newestFirst conflicts ∧
       conflictsOne fuel (Some c) m repo w =
         Some (match conflicts with
               | [] => m
               | _ :: _ => <[repo_ID repo := conflicts]> m
               end, w2)) ∧
  (∀ client repos (w : W) result w',
     GetConflictingMRs fuel client repos w = Some (result, w') ↔
     ∃ m, result = (m, None) ∧ collectedBy fuel client repos ∅ w m w').
Proof.
  split; [|split; [|split]].
  - intros client m repo w Hst. by apply conflictsOne_skip.
  - intros m repo w err w1 Hst Hlist. by eapply conflictsOne_failed.
  - intros m repo w mrs w1 Hst Hlist.
    destruct (conflictsOne_fetched fuel c m repo w mrs w1 Hst Hlist)
      as (kept & conflicts & w2 & Hk & _ & Hperm & Hsorted & Heq).
    by exists kept, conflicts, w2.
  - intros client repos w result w'. apply GetConflictingMRs_collectedBy.
Qed.

(** C10. The map returned by [GetConflictingMRs] holds no empty list; a
    repository ID is a key of it exactly when the loop reaches a
    repository with that ID whose status is [StatusConflicts], whose
    listing succeeds and of which at least one merge request passes the
    filter; so, when the IDs of the repositories are distinct, a
    repository that does not meet these conditions is absent from the
    map. *)
Theorem GetConflictingMRs_keys {W} fuel (client : option (gitlab.Client W))
    repos w m err w' :
  GetConflictingMRs fuel client repos w = Some ((m, err), w') →
  (∀ k v, m !! k = Some v → v ≠ []) ∧
  (∀ k, is_Some (m !! k) ↔
     ∃ repo wi, reachedBy fuel client repos w repo wi ∧ repo_ID repo = k ∧
                contributes fuel client repo wi) ∧
  (NoDup (repo_ID <$> repos) →
   ∀ repo wi, reachedBy fuel client repos w repo wi →
     ¬ contributes fuel client repo wi → m !! repo_ID repo = None).
Proof.
  intros H. apply GetConflictingMRs_collectedBy in H as (m' & Heq & Hby).
  injection Heq as <- _.
  assert (∀ k, is_Some (m !! k) ↔
     ∃ repo wi, reachedBy fuel client repos w repo wi ∧ repo_ID repo = k ∧
                contributes fuel client repo wi) as Hkeys.
  { intros k. rewrite (collectedBy_keys _ _ _ _ _ _ _ Hby k), lookup_empty.
    split; [intros [[? ?]|?]; done|by right]. }
  split; [|split; [done|]].
  - apply (collectedBy_nonempty _ _ _ _ _ _ _ Hby). intros k v. by rewrite lookup_empty.
  - intros Hnd repo wi Hreach Hno.
    destruct (m !! repo_ID repo) as [v|] eqn:Hv; [|done]. exfalso.
    destruct (proj1 (Hkeys (repo_ID repo)) ltac:(by eexists))
      as (repo' & wi' & Hreach' & Hid & Hc).
    destruct (reachedBy_unique _ _ _ _ _ _ _ _ Hnd Hreach' Hreach Hid) as [-> ->].
    done.
Qed.

End analyzer_claims.

(** ** The theorems at work on the sample server *)

Section samples.
Import scanner analyzer.

Lemma AddRepository_summary_consistency_witness :
  TotalRepositories (AddRepositories (emptyReport "2024-01-01T00-00-00") sampleCalls) = 2 ∧
  RepositoriesWithConflicts (AddRepositories (emptyReport "2024-01-01T00-00-00") sampleCalls) = 1 ∧
  TotalConflictingMRs (AddRepositories (emptyReport "2024-01-01T00-00-00") sampleCalls) = 1.
Proof.
  destruct (AddRepository_summary_consistency "2024-01-01T00-00-00" sampleCalls)
    as (H1 & H2 & H3).
  - by vm_compute.
  - by vm_compute.
  - rewrite H1, H2, H3. by vm_compute.
Defined.

Lemma filterAndSort_newestFirst_witness :
  ∃ out, filterAndSortConflictingMRs sampleMRs = Some out ∧ newestFirst out ∧
         tiesInOrder out (List.filter releaseToMasterConflict sampleMRs).
Proof.
  destruct (filterAndSort_newestFirst sampleMRs) as [(out & Hout & Hsorted & Hties) _].
  exists out. split; [exact Hout|]. split; [exact Hsorted|].
  apply Hties. simpl. lia.
Defined.

Lemma processRepository_classification_witness :
  ∃ repo' out w2,
    processRepository 1 (sampleScanner []) (sampleRepository 3 10) 0%nat
      = Some (repo', 1%nat) ∧
    repo_Status repo' = StatusError ∧
    ScanRepositories 1 (sampleScanner []) 0%nat = Some (inr out, w2) ∧
    scannedBy 1 (sampleScanner []) sampleRepositories 1%nat out w2.
Proof.
  destruct (processRepository_classification 1 (sampleScanner [])
              (sampleRepository 3 10) 0%nat
              (inl "failed to list merge requests for project 3 (page 1): API error 500: down")
              1%nat)
    as (repo' & Hrun & _ & [Hst _] & _ & _ & Hscan).
  - by vm_compute.
  - destruct (Hscan 0%nat sampleRepositories 1%nat) as (_ & Hentries & Hreturns);
      [by vm_compute|].
    destruct Hreturns as (out & w2 & Hout).
    + intros id w'. unfold gitlab.ListMergeRequests. cbn.
      destruct (bool_decide (id = 3)); [by eexists|].
      destruct (bool_decide (id = 2)); by eexists.
    + destruct (Hentries _ _ Hout) as (out' & [= <-] & Hby).
      exists repo', out, w2. split; [exact Hrun|]. split; [exact Hst|].
      split; [exact Hout|exact Hby].
Defined.

Lemma AnalyzeMRs_classification_witness :
  ∃ survivors analyzedRepo w2,
    filterAndSortRealConflictingMRs sampleClient 2 sampleMRs 1%nat = Some (survivors, w2) ∧
    survivors ≠ [] ∧
    analyzeOne 1 sampleClient (sampleRepository 2 20) 0%nat = Some (analyzedRepo, w2) ∧
    repo_Status analyzedRepo = StatusConflicts.
Proof.
  destruct (AnalyzeMRs_classification 1 sampleClient (sampleRepository 2 20) 0%nat
              sampleMRs 1%nat)
    as (kept & survivors & w2 & analyzedRepo & _ & _ & Hsort & _ & _ & _ & _ & _ & Hone & _
        & Hconflicts & _).
  - by vm_compute.
  - by vm_compute.
  - assert (survivors ≠ []) as Hne.
    { intros ->. revert Hsort. by vm_compute. }
    exists survivors, analyzedRepo, w2. split; [exact Hsort|]. split; [exact Hne|].
    split; [exact Hone|]. by apply Hconflicts.
Defined.

Lemma ScanRepositories_complete_witness :
  ∃ w1, gitlab.ListRepositories 1 sampleClient 0%nat
          = Some (inr (concat [sampleRepositories]), w1).
Proof.
  apply (ScanRepositories_complete 1 (sampleScanner [10]) [sampleRepositories] 0%nat).
  - intros [|k] page w Hpage; simpl in Hpage; [|by destruct k].
    injection Hpage as <-. reflexivity.
  - exists [], sampleRepositories. split; [reflexivity|]. split; [constructor|].
    by vm_compute.
  - by vm_compute.
  - simpl. lia.
Defined.

Lemma errorInvariant_kept_witness :
  ∃ scanned w1 analyzed w2,
    ScanRepositories 1 (sampleScanner []) 0%nat = Some (inr scanned, w1) ∧
    AnalyzeMRs 1 (Some sampleClient) scanned w1 = Some (inr analyzed, w2) ∧
    Forall errorInvariant scanned ∧ Forall errorInvariant analyzed.
Proof.
  eexists _, _, _, _. split; [by vm_compute|]. split; [by vm_compute|].
  eapply (proj2 (proj2 (proj2 (errorInvariant_kept (W:=nat) 1)))
            (sampleScanner []) (Some sampleClient) 1%nat 0%nat _ _ 4%nat); by vm_compute.
Defined.

Lemma AnalyzeMRs_errors_witness :
  ∃ analyzedRepo,
    analyzeOne 1 sampleClient (sampleRepository 3 10) 0%nat = Some (analyzedRepo, 1%nat) ∧
    repo_Status analyzedRepo = StatusError.
Proof.
  destruct (AnalyzeMRs_errors 1 sampleClient) as (_ & _ & Hfail & _).
  destruct (Hfail (sampleRepository 3 10) 0%nat
              "failed to list merge requests for project 3 (page 1): API error 500: down"
              1%nat)
    as (analyzedRepo & Hone & _ & Hst & _).
  - by vm_compute.
  - by vm_compute.
  - exists analyzedRepo. split; [exact Hone|exact Hst].
Defined.

Lemma GetConflictingMRs_skips_failures_witness :
  conflictsOne 1 (Some sampleClient) ∅ (conflictsRepository 3) 0%nat = Some (∅, 1%nat).
Proof.
  destruct (GetConflictingMRs_skips_failures 1 sampleClient) as (_ & Hfail & _).
  apply (Hfail ∅ (conflictsRepository 3) 0%nat
           "failed to list merge requests for project 3 (page 1): API error 500: down").
  - reflexivity.
  - by vm_compute.
Defined.

Lemma GetConflictingMRs_keys_witness :
  ∃ m w',
    GetConflictingMRs 1 (Some sampleClient) [conflictsRepository 2; conflictsRepository 3]
      0%nat = Some ((m, None), w') ∧
    ∀ k v, m !! k = Some v → v ≠ [].
Proof.
  pose proof (GetConflictingMRs_keys 1 (Some sampleClient)
                [conflictsRepository 2; conflictsRepository 3] 0%nat) as Hkeys.
  eexists _, _. split; [by vm_compute|].
  edestruct Hkeys as (Hne & _); [by vm_compute|exact Hne].
Defined.

(** The unit tests and the scenarios of the repository, run on the model. *)

Example unit_test_filterAndSortConflictingMRs :
  option_map (List.map mr_ID) (filterAndSortConflictingMRs unitTestMRs) = Some [5; 1].
Proof. by vm_compute. Qed.

Example unit_test_filterAndSortConflictingMRs_empty :
  filterAndSortConflictingMRs [] = Some [].
Proof. by vm_compute. Qed.

Example unit_test_AddRepository :
  GetSummaryStats (AddRepositories (emptyReport "") sampleCalls) = (2, 1, 1).
Proof. by vm_compute. Qed.

Example unit_test_AnalyzeMRs_NilClient :
  AnalyzeMRs 1 None [sampleRepository 1 10] 0%nat
    = Some (inl "gitlab client cannot be nil", 0%nat).
Proof. by vm_compute. Qed.

Example scenario_scan_statuses :
  option_map (λ r, match r.1 with
                   | inr repos => List.map repo_Status repos
                   | inl _ => []
                   end)
    (ScanRepositories 1 (sampleScanner []) 0%nat)
  = Some [StatusNoMRs; StatusConflicts; StatusError].
Proof. by vm_compute. Qed.

Example scenario_whitelist :
  option_map (λ r, match r.1 with
                   | inr repos => List.map repo_ID repos
                   | inl _ => []
                   end)
    (ScanRepositories 1 (sampleScanner [10]) 0%nat)
  = Some [1; 3].
Proof. by vm_compute. Qed.

Example thirteen_pivot :
  sort.choosePivot_func createdAfter thirteenMRs 0 13 = Some (6%nat, sort.increasingHint).
Proof. by vm_compute. Qed.

Example thirteen_not_nearly_sorted :
  option_map snd (sort.partialInsertionSort_func createdAfter thirteenMRs 0 13)
  = Some false.
Proof. by vm_compute. Qed.

Example thirteen_partition :
  option_map (λ r, (List.map mr_ID r.1.1, r.1.2, r.2))
    (sort.partition_func createdAfter thirteenMRs 0 13 6)
  = Some ([12; 6; 2; 3; 4; 5; 0; 7; 8; 9; 10; 11; 1], 1%nat, false).
Proof. by vm_compute. Qed.

Example thirteen_sorted :
  option_map (List.map mr_ID) (filterAndSortConflictingMRs thirteenMRs)
  = Some [12; 6; 2; 3; 4; 5; 0; 7; 8; 9; 10; 11; 1].
Proof. by vm_compute. Qed.

End samples.

(** ** The report: entries and counters *)

Section report_entries.

Lemma AddRepositories_Repositories r calls :
  Repositories (AddRepositories r calls) = Repositories r ++ (entryOfCall <$> calls).
Proof.
  induction calls as [|c calls IH] using rev_ind.
  - simpl. by rewrite app_nil_r.
  - rewrite AddRepositories_snoc, Repositories_applyCall, IH, fmap_app, app_assoc. done.
Qed.

Lemma AddRepositories_Timestamp r calls :
  Timestamp (AddRepositories r calls) = Timestamp r.
Proof.
  induction calls as [|c calls IH] using rev_ind; [done|].
  rewrite AddRepositories_snoc. unfold applyCall, AddRepository.
  by case_bool_decide.
Qed.

End report_entries.

(** ** [buildReport] *)

Section buildReport_props.

Lemma buildReport_AddRepositories now repos m :
  main.buildReport now repos m = AddRepositories (emptyReport now) (callOf m <$> repos).
Proof.
  unfold main.buildReport, AddRepositories, emptyReport.
  generalize (mkReport now 0 0 0 []).
  induction repos as [|repo repos IH]; intros r; [done|]. simpl. by rewrite IH.
Qed.

Lemma buildReport_Repositories now repos m :
  Repositories (main.buildReport now repos m) = entryOf m <$> repos.
Proof.
  rewrite buildReport_AddRepositories, AddRepositories_Repositories. simpl.
  rewrite <-list_fmap_compose. done.
Qed.

(** X1. Report inclusion: the report of [buildReport] has exactly one
    entry per repository, in the order of the repositories and whatever
    their status; the entry holds the repository, its status, the message
    of its error (empty without an error) and the merge requests the map
    holds under its identifier (none when the key is missing). *)
Theorem buildReport_entries (now : string) (repositories : list Repository)
    (conflictingMRs : gmap Z (list MergeRequest)) :
  Repositories (main.buildReport now repositories conflictingMRs) =
    entryOf conflictingMRs <$> repositories ∧
  Timestamp (main.buildReport now repositories conflictingMRs) = now.
Proof.
  split; [apply buildReport_Repositories|].
  by rewrite buildReport_AddRepositories, AddRepositories_Timestamp.
Qed.

(** X2. The summary of [buildReport]: when the number of repositories and
    the number of merge requests to count are values of an [int], the three
    counters are the number of repositories, the number of them in the
    status [StatusConflicts], and the number of merge requests the map holds
    for those. *)
Theorem buildReport_summary (now : string) (repositories : list Repository)
    (conflictingMRs : gmap Z (list MergeRequest)) :
  len repositories ≤ max_int →
  sumConflictingMRs (entryOf conflictingMRs <$> repositories) ≤ max_int →
  GetSummaryStats (main.buildReport now repositories conflictingMRs) =
    (len repositories,
     len (filter (λ repo, repo_Status repo = StatusConflicts) repositories),
     foldr (λ repo acc, len (main.mrsOf conflictingMRs repo) + acc) 0
       (filter (λ repo, repo_Status repo = StatusConflicts) repositories)).
Proof.
  intros Hn Hsum.
  pose proof (AddRepositories_counters_wrap now (callOf conflictingMRs <$> repositories))
    as (H1 & H2 & H3).
  rewrite <-buildReport_AddRepositories in H1, H2, H3.
  rewrite buildReport_Repositories in H1, H2, H3.
  pose proof (countConflictEntries_le (entryOf conflictingMRs <$> repositories)) as Hle.
  pose proof (sumConflictingMRs_nonneg (entryOf conflictingMRs <$> repositories)) as Hs0.
  assert (countEntries (entryOf conflictingMRs <$> repositories) = len repositories) as Hcount.
  { unfold countEntries, len. by rewrite length_fmap. }
  assert (conflictEntries (entryOf conflictingMRs <$> repositories) =
          entryOf conflictingMRs <$>
            filter (λ repo, repo_Status repo = StatusConflicts) repositories) as Hce.
  { unfold conflictEntries. clear.
    induction repositories as [|repo repos IH]; [done|].
    rewrite fmap_cons, !filter_cons. simpl. rewrite IH.
    by destruct (decide (repo_Status repo = StatusConflicts)). }
  unfold GetSummaryStats. rewrite H1, H2, H3.
  rewrite !wrap64_id by (unfold min_int, max_int in *; lia).
  rewrite Hcount. unfold countConflictEntries, sumConflictingMRs. rewrite Hce.
  f_equal; [f_equal|].
  - unfold len. by rewrite length_fmap.
  - generalize (filter (λ repo, repo_Status repo = StatusConflicts) repositories).
    intros l. induction l as [|repo l IH]; [done|].
    rewrite fmap_cons. cbn [foldr]. by rewrite IH.
Qed.

End buildReport_props.

(** ** The analyzer: identity of the repositories, values of the map *)

Section analyzer_more.
Import analyzer.
Context {W : Type}.
Implicit Types (c : gitlab.Client W) (w : W).

Lemma analyzeOne_same fuel c repo w r w1 :
  analyzeOne fuel c repo w = Some (r, w1) →
  sameRepository r repo ∧ (repo_Status repo = StatusError → r = repo ∧ w1 = w).
Proof.
  intros Hone. split.
  - destruct (analyzeOne_cases _ _ _ _ _ _ Hone)
      as [[_ ->]|[_ [[err ->]|(st & _ & ->)]]]; done.
  - intros Hst. rewrite analyzeOne_error in Hone by done. by injection Hone as <- <-.
Qed.

Lemma analyzedBy_same fuel c repos w out w' :
  analyzedBy fuel c repos w out w' →
  Forall2 (λ r repo, sameRepository r repo ∧ (repo_Status repo = StatusError → r = repo))
    out repos.
Proof.
  induction 1 as [|repo rest w r w1 out w' Hone Hrest IH]; constructor; [|done].
  destruct (analyzeOne_same _ _ _ _ _ _ Hone) as [Hsame Herr].
  split; [done|]. intros Hst. by destruct (Herr Hst).
Qed.

(** X3. [AnalyzeMRs] returns the repositories it was given, one for one
    and in their order: each keeps its identifier, name, URL and namespace,
    and a repository that came in with the status [StatusError] comes out
    unchanged. *)
Theorem AnalyzeMRs_same_repositories fuel c (repositories : list Repository) w out w' :
  AnalyzeMRs fuel (Some c) repositories w = Some (inr out, w') →
  Forall2 (λ r repo, sameRepository r repo ∧ (repo_Status repo = StatusError → r = repo))
    out repositories ∧
  repo_ID <$> out = repo_ID <$> repositories.
Proof.
  intros Hrun. apply AnalyzeMRs_analyzedBy in Hrun as (out' & [= <-] & Hby).
  pose proof (analyzedBy_same _ _ _ _ _ _ Hby) as Hsame. split; [done|].
  clear Hby. induction Hsame as [|r repo out repos [(Hid & _) _] _ IH]; [done|].
  rewrite !fmap_cons. by rewrite Hid, IH.
Qed.

(** X30. The analyzer only narrows the conflicts of the scanner: when
    the listing of the merge requests of a repository returns the same
    merge requests to the scanner and to the analyzer, a repository the
    analyzer leaves in [StatusConflicts] was in [StatusConflicts] after the
    scan, and a repository without merge requests is in [StatusNoMRs] after
    both; the analyzer may take a repository out of [StatusConflicts], when
    no conflicting merge request passes its filter, and then leaves it in
    [StatusAccessible], the status the scanner never gives. *)
Theorem analyzer_narrows_scanner fuel (rs : scanner.RepositoryScanner W) c
    (repo : Repository) (mrs : list MergeRequest) w w1 scanned w2 wa wa1 analyzed wa2 :
  gitlab.ListMergeRequests fuel (scanner.client rs) (repo_ID repo) "release" "master" w
    = Some (inr mrs, w1) →
  gitlab.ListMergeRequests fuel c (repo_ID repo) "release" "master" wa
    = Some (inr mrs, wa1) →
  scanner.processRepository fuel rs repo w = Some (scanned, w2) →
  analyzeOne fuel c scanned wa = Some (analyzed, wa2) →
  (repo_Status analyzed = StatusConflicts → repo_Status scanned = StatusConflicts) ∧
  (mrs = [] → repo_Status scanned = StatusNoMRs ∧ repo_Status analyzed = StatusNoMRs) ∧
  (repo_Status scanned = StatusConflicts → repo_Status analyzed ≠ StatusConflicts →
   repo_Status analyzed = StatusAccessible).
Proof.
  intros Hscan Hfetch Hprocess Hanalyze.
  rewrite (processRepository_eq _ _ _ _ _ _ Hscan) in Hprocess.
  injection Hprocess as <- <-.
  set (scanned := if bool_decide (len mrs = 0) then scanner.withStatus repo StatusNoMRs None
                  else if existsb mr_HasConflicts mrs
                       then scanner.withStatus repo StatusConflicts None
                       else scanner.withStatus repo StatusNoMRs None) in *.
  assert (repo_ID scanned = repo_ID repo) as Hid
    by (unfold scanned; repeat case_match; done).
  assert (repo_Status scanned ≠ StatusError) as Hne
    by (unfold scanned; repeat case_match; done).
  rewrite <-Hid in Hfetch.
  destruct (analyzeOne_fetched _ _ _ _ _ _ Hne Hfetch) as (kept & wk & Hkept & Hone).
  rewrite Hone in Hanalyze. injection Hanalyze as <- <-.
  apply keptBy_sublist in Hkept. cbn [repo_Status setStatus].
  split_and!.
  - destruct kept as [|mr kept]; [by destruct mrs|]. intros _.
    assert (mr ∈ List.filter releaseToMasterConflict mrs) as Hmr
      by (eapply elem_of_sublist; [left|exact Hkept]).
    apply list_elem_of_In, filter_In in Hmr as [Hin Hrtm].
    unfold releaseToMasterConflict in Hrtm. apply andb_prop in Hrtm as [_ Hconflicts].
    assert (existsb mr_HasConflicts mrs = true) as Hex
      by (apply existsb_exists; eauto).
    unfold scanned. rewrite Hex.
    rewrite bool_decide_false; [done|].
    destruct mrs; [done|]. unfold len. simpl. lia.
  - intros ->. unfold scanned. rewrite bool_decide_true by done.
    apply sublist_nil_r in Hkept as ->. done.
  - intros Hs Ha. destruct kept as [|mr kept]; [|done].
    destruct mrs as [|mr mrs]; [|done].
    unfold scanned in Hs. by rewrite bool_decide_true in Hs.
Qed.

Lemma conflictsOne_value fuel client m repo w m1 w1 :
  conflictsOne fuel client m repo w = Some (m1, w1) →
  m1 = m ∨
  (repo_Status repo = StatusConflicts ∧
   ∃ conflicts, conflictList conflicts ∧ m1 = <[repo_ID repo := conflicts]> m).
Proof.
  intros Hone.
  destruct (decide (repo_Status repo = StatusConflicts)) as [Hst|Hst].
  2:{ left. rewrite conflictsOne_skip in Hone by done. by injection Hone as <- <-. }
  destruct client as [c|].
  2:{ unfold conflictsOne in Hone. by rewrite bool_decide_true in Hone by done. }
  assert (∃ res w0, gitlab.ListMergeRequests fuel c (repo_ID repo) "release" "master" w
            = Some (res, w0)) as (res & w0 & Hlist).
  { unfold conflictsOne in Hone. rewrite bool_decide_true in Hone by done.
    apply bind_inv in Hone as (res & w0 & Hlist & _). eauto. }
  destruct res as [err|mrs].
  - left. rewrite (conflictsOne_failed _ _ _ _ _ _ _ Hst Hlist) in Hone.
    by injection Hone as <- <-.
  - destruct (conflictsOne_fetched fuel c m repo w mrs w0 Hst Hlist)
      as (kept & conflicts & w2 & Hk & _ & Hperm & Hsorted & Heq).
    rewrite Heq in Hone. injection Hone as <- <-.
    destruct conflicts as [|x conflicts]; [by left|].
    right. split; [done|]. eexists. split; [|done]. split; [done|].
    apply keptBy_sublist in Hk.
    rewrite Hperm. apply Forall_forall. intros mr Hmr.
    pose proof (elem_of_sublist _ _ _ Hmr Hk) as Hin.
    apply list_elem_of_In, filter_In in Hin. apply Hin.
Qed.

Lemma collectedBy_values fuel client repos m w m' w' :
  collectedBy fuel client repos m w m' w' →
  ∀ k v, m' !! k = Some v →
    m !! k = Some v ∨
    (conflictList v ∧
     ∃ repo, repo ∈ repos ∧ repo_ID repo = k ∧ repo_Status repo = StatusConflicts).
Proof.
  induction 1 as [m w|repo rest m w m1 w1 m' w' Hone Hrest IH]; intros k v Hv; [by left|].
  destruct (IH k v Hv) as [Hm1|(Hgood & r & Hr & Hid & Hst)].
  2:{ right. split; [done|]. exists r. split; [by right|done]. }
  destruct (conflictsOne_value _ _ _ _ _ _ _ Hone) as [->|(Hst & conflicts & Hgood & ->)];
    [by left|].
  rewrite lookup_insert in Hm1. case_decide as Hk; [|by left].
  injection Hm1 as <-. right. split; [done|]. exists repo. split; [left|done].
Qed.

(** X4. What the map of [GetConflictingMRs] holds: every list is sorted
    newest first, holds only conflicting merge requests from release to
    master, and is filed under the identifier of one of the repositories
    given with the status [StatusConflicts]. *)
Theorem GetConflictingMRs_values fuel (client : option (gitlab.Client W))
    (repositories : list Repository) w m err w' :
  GetConflictingMRs fuel client repositories w = Some ((m, err), w') →
  ∀ k v, m !! k = Some v →
    conflictList v ∧
    ∃ repo, repo ∈ repositories ∧ repo_ID repo = k ∧ repo_Status repo = StatusConflicts.
Proof.
  intros Hrun k v Hv.
  apply GetConflictingMRs_collectedBy in Hrun as (m' & [= <- _] & Hby).
  destruct (collectedBy_values _ _ _ _ _ _ _ Hby k v Hv) as [Hempty|Hgood]; [|done].
  by rewrite lookup_empty in Hempty.
Qed.

Lemma listedMRs_sum es :
  Forall (λ e, rr_Status e ≠ StatusConflicts → rr_ConflictingMRs e = []) es →
  sumConflictingMRs es = listedMRs es.
Proof.
  unfold sumConflictingMRs, listedMRs, conflictEntries.
  induction 1 as [|e es He _ IH]; [done|].
  rewrite filter_cons. destruct (decide (rr_Status e = StatusConflicts)) as [Hst|Hst];
    cbn [foldr]; rewrite IH; [done|].
  rewrite (He Hst). done.
Qed.

(** X5. The report of the conflicts: when the repositories have distinct
    identifiers and the map is the one [GetConflictingMRs] returned for
    them, every entry of the report of [buildReport] lists merge requests
    only if its status is [StatusConflicts], and lists them newest first,
    all of them conflicting merge requests from release to master; so
    [TotalConflictingMRs] counts every merge request the report lists, as
    long as that number and the number of repositories are values of an
    [int]. *)
Theorem buildReport_of_conflicts fuel (client : option (gitlab.Client W))
    (repositories : list Repository) w m err w' (now : string) :
  NoDup (repo_ID <$> repositories) →
  GetConflictingMRs fuel client repositories w = Some ((m, err), w') →
  Forall (λ e, (rr_Status e ≠ StatusConflicts → rr_ConflictingMRs e = []) ∧
               conflictList (rr_ConflictingMRs e))
    (Repositories (main.buildReport now repositories m)) ∧
  (len repositories ≤ max_int →
   listedMRs (Repositories (main.buildReport now repositories m)) ≤ max_int →
   TotalConflictingMRs (main.buildReport now repositories m) =
     listedMRs (Repositories (main.buildReport now repositories m))).
Proof.
  intros Hnd Hrun.
  pose proof (GetConflictingMRs_values _ _ _ _ _ _ _ Hrun) as Hvalues.
  assert (Forall (λ e, (rr_Status e ≠ StatusConflicts → rr_ConflictingMRs e = []) ∧
                       conflictList (rr_ConflictingMRs e))
            (entryOf m <$> repositories)) as Hentries.
  { apply Forall_fmap, Forall_forall. intros repo Hrepo. simpl. unfold main.mrsOf.
    destruct (m !! repo_ID repo) as [v|] eqn:Hv.
    - destruct (Hvalues _ _ Hv) as (Hgood & r & Hr & Hid & Hst). split; [|done].
      intros Hne. exfalso. apply Hne.
      assert (r = repo) as <-; [|done].
      apply list_elem_of_lookup in Hr as [i Hi]. apply list_elem_of_lookup in Hrepo as [j Hj].
      assert (i = j) as ->; [|congruence].
      eapply NoDup_lookup; [exact Hnd|..]; rewrite list_lookup_fmap.
      + by rewrite Hi.
      + rewrite Hj. simpl. by rewrite Hid.
    - split; [done|]. split; [|constructor].
      intros i j x y _ Hx. by rewrite lookup_nil in Hx. }
  rewrite buildReport_Repositories. split; [done|].
  intros Hn Hsum.
  rewrite <-listedMRs_sum in * by (eapply Forall_impl; [exact Hentries|]; by intros e [? _]).
  pose proof (AddRepositories_counters_wrap now (callOf m <$> repositories)) as (_ & _ & H3).
  rewrite <-buildReport_AddRepositories in H3. rewrite buildReport_Repositories in H3.
  rewrite H3. apply wrap64_id.
  pose proof (sumConflictingMRs_nonneg (entryOf m <$> repositories)).
  unfold min_int, max_int in *. lia.
Qed.

End analyzer_more.

(** ** The scanner: the whitelist, the count, the failure of the listing *)

Section scanner_more.
Import scanner.
Context {W : Type}.
Implicit Types (rs : RepositoryScanner W) (w : W).

(** X6. The whitelist filter keeps the order of the repositories and
    drops the others; filtering twice changes nothing; filtering the pages
    one by one or the whole listing gives the same repositories; and
    without a whitelist every repository is kept. *)
Theorem filterRepositories_algebra rs (repos more : list Repository) :
  filterRepositories rs repos `sublist_of` repos ∧
  filterRepositories rs (filterRepositories rs repos) = filterRepositories rs repos ∧
  filterRepositories rs (repos ++ more) =
    filterRepositories rs repos ++ filterRepositories rs more ∧
  (∀ repo, repo ∈ filterRepositories rs repos ↔
           repo ∈ repos ∧ passes (includeGroups rs) repo) ∧
  filterRepositories (NewRepositoryScanner (client rs) []) repos = repos.
Proof.
  split_and!; [rewrite ?filterRepositories_passes..|reflexivity].
  - apply sublist_filter.
  - apply list_filter_filter_l. done.
  - apply filter_app.
  - intros repo. rewrite list_elem_of_filter. tauto.
Qed.

(** X7. Only the set of the whitelisted groups matters: two scanners whose
    whitelists hold the same identifiers, in any order and any number of
    times, keep the same repositories. *)
Theorem filterRepositories_whitelist_set rs rs' (repos : list Repository) :
  (∀ groupID, groupID ∈ includeGroups rs ↔ groupID ∈ includeGroups rs') →
  filterRepositories rs repos = filterRepositories rs' repos.
Proof.
  intros Hsame. rewrite !filterRepositories_passes.
  apply list_filter_iff. intros repo. unfold passes.
  assert (includeGroups rs = [] ↔ includeGroups rs' = []) as Hnil.
  { split; intros Heq.
    - destruct (includeGroups rs') as [|g l]; [done|].
      assert (g ∈ includeGroups rs) as Hg by (apply Hsame; left).
      rewrite Heq in Hg. by apply elem_of_nil in Hg.
    - destruct (includeGroups rs) as [|g l]; [done|].
      assert (g ∈ includeGroups rs') as Hg by (apply Hsame; left).
      rewrite Heq in Hg. by apply elem_of_nil in Hg. }
  rewrite Hnil, Hsame. done.
Qed.

Lemma GetRepositoryCount_eq fuel rs w :
  GetRepositoryCount fuel rs w =
  match gitlab.ListRepositories fuel (client rs) w with
  | Some (inl err, w1) => Some (inl ("failed to count repositories: " +:+ err), w1)
  | Some (inr repos, w1) => Some (inr (len (filterRepositories rs repos)), w1)
  | None => None
  end.
Proof.
  unfold GetRepositoryCount, mbind, M_bind.
  by destruct (gitlab.ListRepositories fuel (client rs) w) as [[[err|repos] w1]|].
Qed.

(** X8. [GetRepositoryCount] and [ScanRepositories] agree: started in the
    same world, the count is the number of repositories the scan returns,
    and the count fails exactly when the scan does, on the failure of the
    listing; the count sends the requests of the listing and no other, so
    it leaves the world the listing left. *)
Theorem GetRepositoryCount_agrees fuel rs w res w1 :
  gitlab.ListRepositories fuel (client rs) w = Some (res, w1) →
  match res with
  | inl err =>
      GetRepositoryCount fuel rs w =
        Some (inl ("failed to count repositories: " +:+ err), w1) ∧
      ScanRepositories fuel rs w =
        Some (inl ("failed to retrieve repositories: " +:+ err), w1)
  | inr repos =>
      GetRepositoryCount fuel rs w =
        Some (inr (len (filter (passes (includeGroups rs)) repos)), w1) ∧
      ∀ result w2, ScanRepositories fuel rs w = Some (result, w2) →
        ∃ out, result = inr out ∧
               GetRepositoryCount fuel rs w = Some (inr (len out), w1)
  end.
Proof.
  intros Hlist. rewrite GetRepositoryCount_eq, ScanRepositories_eq, Hlist.
  destruct res as [err|repos]; [done|].
  rewrite <-filterRepositories_passes. split; [done|].
  intros result w2.
  destruct (processAll fuel rs (filterRepositories rs repos) w1) as [[out w3]|] eqn:Hall;
    [|done].
  intros [= <- <-]. exists out. split; [done|].
  apply processAll_post in Hall as [Hsame _].
  unfold len. by rewrite (Forall2_length _ _ _ Hsame).
Qed.

(** X9. The scan fails only on the listing of the repositories: it
    returns an error exactly when [ListRepositories] does, the same one
    behind the prefix of the scanner, and then no merge request was
    queried; the failure of a repository never fails the scan. *)
Theorem ScanRepositories_fails_iff fuel rs w e w' :
  ScanRepositories fuel rs w = Some (inl e, w') ↔
  ∃ err, gitlab.ListRepositories fuel (client rs) w = Some (inl err, w') ∧
         e = "failed to retrieve repositories: " +:+ err.
Proof.
  rewrite ScanRepositories_eq.
  destruct (gitlab.ListRepositories fuel (client rs) w) as [[[err|repos] w1]|].
  - split.
    + intros [= <- <-]. by exists err.
    + intros (err' & [= <- <-] & ->). done.
  - destruct (processAll fuel rs (filterRepositories rs repos) w1) as [[out w2]|].
    + split; [done|]. by intros (err' & ? & _).
    + split; [done|]. by intros (err' & ? & _).
  - split; [done|]. by intros (err' & ? & _).
Qed.

Lemma processAll_status fuel rs repos w out w1 :
  processAll fuel rs repos w = Some (out, w1) →
  Forall (λ repo, scannerStatus (repo_Status repo)) out.
Proof.
  revert w out w1. induction repos as [|repo rest IH]; intros w out w1.
  - intros [= <- _]. constructor.
  - rewrite processAll_cons.
    destruct (processRepository fuel rs repo w) as [[p w2]|] eqn:Hp; [|done].
    destruct (processAll fuel rs rest w2) as [[o w3]|] eqn:Ho; [|done].
    intros [= <- _]. constructor; [|by eapply IH].
    destruct (processRepository_inv _ _ _ _ _ _ Hp) as [res Hres].
    rewrite (processRepository_eq _ _ _ _ _ _ Hres) in Hp. injection Hp as <-.
    unfold scannerStatus. destruct res as [err|mrs]; [by left|].
    case_bool_decide; [by right; left|].
    destruct (existsb mr_HasConflicts mrs); [by right; right|by right; left].
Qed.

(** X10. The scanner never leaves a repository in the status
    [StatusAccessible]: every repository [ScanRepositories] returns is in
    [StatusError], [StatusNoMRs] or [StatusConflicts], whatever status it
    was listed with. *)
Theorem ScanRepositories_statuses fuel rs w out w' :
  ScanRepositories fuel rs w = Some (inr out, w') →
  Forall (λ repo, scannerStatus (repo_Status repo) ∧
                  repo_Status repo ≠ StatusAccessible) out.
Proof.
  rewrite ScanRepositories_eq.
  destruct (gitlab.ListRepositories fuel (client rs) w) as [[[err|repos] w1]|]; [done| |done].
  destruct (processAll fuel rs (filterRepositories rs repos) w1) as [[o w2]|] eqn:Hall;
    [|done].
  intros [= <- <-]. eapply Forall_impl; [by eapply processAll_status|].
  intros repo Hst. split; [done|]. by destruct Hst as [->|[->| ->]].
Qed.

End scanner_more.

(** ** The client: the requests of a listing, its failure, the merge requests *)

Section client_more.
Context {W : Type}.
Implicit Types (c : gitlab.Client W) (w : W).

Lemma page_number (k : nat) n :
  Z.of_nat k + 1 < n → n ≤ max_int → wrap64 (Z.of_nat k + 1 + 1) = Z.of_nat (S k) + 1.
Proof.
  intros Hk Hn. rewrite wrap64_id by (unfold min_int, max_int in *; lia). lia.
Qed.

Lemma ListRepositories_loop_requests c full last fuel (k : nat) acc w :
  served c (full ++ [last]) →
  Forall (λ page, gitlab.perPage ≤ len page) full →
  len last < gitlab.perPage →
  len (full ++ [last]) ≤ max_int →
  (k ≤ length full)%nat → (length full - k < fuel)%nat →
  gitlab.ListRepositories_loop fuel c acc (Z.of_nat k + 1) w =
    Some (inr (acc ++ concat (drop k (full ++ [last]))),
          afterProjectsPages c (S (length full) - k) (Z.of_nat k + 1) w).
Proof.
  intros Hserved Hfull Hlast Hmax.
  revert k acc w. induction fuel as [|fuel IH]; intros k acc w Hk Hfuel; [lia|].
  rewrite ListRepositories_loop_S.
  destruct (decide (k = length full)) as [->|Hne].
  - rewrite (Hserved (length full) last w)
      by (rewrite lookup_app_r, Nat.sub_diag by lia; done).
    rewrite bool_decide_true by done.
    rewrite drop_app_length. simpl. rewrite app_nil_r.
    replace (S (length full) - length full)%nat with 1%nat by lia. done.
  - assert (k < length full)%nat as Hlt by lia.
    destruct (lookup_lt_is_Some_2 full k Hlt) as [page Hpage].
    rewrite (Hserved k page w) by (by rewrite lookup_app_l).
    rewrite bool_decide_false
      by (rewrite Forall_lookup in Hfull; specialize (Hfull k page Hpage); simpl in Hfull; lia).
    rewrite (page_number k (len (full ++ [last])))
      by (try done; unfold len; rewrite length_app; simpl; lia).
    rewrite IH by lia.
    replace (S (length full) - k)%nat with (S (S (length full) - S k)) by lia.
    cbn [afterProjectsPages].
    replace (Z.of_nat k + 1 + 1) with (Z.of_nat (S k) + 1) by lia.
    do 2 f_equal. f_equal.
    rewrite <-app_assoc. f_equal.
    rewrite (drop_S (full ++ [last]) page k) by (by rewrite lookup_app_l).
    done.
Qed.

(** X11. The requests of a listing: when the server splits its
    repositories into pages that end with the first short one,
    [ListRepositories] returns their concatenation after one request per
    page, for the pages 1, 2, ... in this order and with 100 repositories
    asked for per page, and no request after the one for the short page: a
    listing of [n] full pages takes [n + 1] requests, also when the last
    page is empty. *)
Theorem ListRepositories_requests c (pages : list (list Repository)) fuel w :
  served c pages → paginated pages → len pages ≤ max_int →
  (length pages ≤ fuel)%nat →
  gitlab.ListRepositories fuel c w =
    Some (inr (concat pages), afterProjectsPages c (length pages) 1 w).
Proof.
  intros Hserved (full & last & -> & Hfull & Hlast) Hmax Hfuel.
  rewrite length_app in Hfuel. simpl in Hfuel.
  unfold gitlab.ListRepositories.
  pose proof (ListRepositories_loop_requests c full last fuel 0 [] w
                Hserved Hfull Hlast Hmax ltac:(lia) ltac:(lia)) as Hrun.
  change (Z.of_nat 0 + 1) with 1 in Hrun. rewrite Hrun.
  rewrite length_app, drop_0, Nat.sub_0_r. cbn [length app].
  by replace (length full + 1)%nat with (S (length full)) by lia.
Qed.

Lemma ListRepositories_loop_fails c full (bad : gitlab.PageResult Repository)
    fuel (k : nat) acc w :
  served c full →
  Forall (λ page, gitlab.perPage ≤ len page) full →
  (∀ w0, (gitlab.getProjectsPage c (len full + 1) gitlab.perPage w0).1 = bad) →
  len full < max_int →
  (k ≤ length full)%nat → (length full - k < fuel)%nat →
  gitlab.ListRepositories_loop fuel c acc (Z.of_nat k + 1) w =
    match bad with
    | gitlab.RequestFailed err =>
        Some (inl ("failed to list repositories (page " +:+ pretty (len full + 1)
                   +:+ "): " +:+ err),
              afterProjectsPages c (S (length full) - k) (Z.of_nat k + 1) w)
    | gitlab.DecodeFailed err =>
        Some (inl ("failed to decode repositories response: " +:+ err),
              afterProjectsPages c (S (length full) - k) (Z.of_nat k + 1) w)
    | gitlab.PageOK repos =>
        gitlab.ListRepositories_loop fuel c acc (Z.of_nat k + 1) w
    end.
Proof.
  intros Hserved Hfull Hbad Hmax.
  revert k acc w. induction fuel as [|fuel IH]; intros k acc w Hk Hfuel; [lia|].
  destruct bad as [err|err|repos]; [| |done].
  - rewrite ListRepositories_loop_S.
    destruct (decide (k = length full)) as [->|Hne].
    + change (Z.of_nat (length full)) with (len full). rewrite Hbad.
      replace (S (length full) - length full)%nat with 1%nat by lia. done.
    + assert (k < length full)%nat as Hlt by lia.
      destruct (lookup_lt_is_Some_2 full k Hlt) as [page Hpage].
      rewrite (Hserved k page w) by done.
      rewrite bool_decide_false
        by (rewrite Forall_lookup in Hfull; specialize (Hfull k page Hpage); simpl in Hfull; lia).
      rewrite (page_number k (len full + 1)) by (unfold len in *; lia).
      rewrite IH by lia.
      replace (S (length full) - k)%nat with (S (S (length full) - S k)) by lia.
      cbn [afterProjectsPages].
      by replace (Z.of_nat k + 1 + 1) with (Z.of_nat (S k) + 1) by lia.
  - rewrite ListRepositories_loop_S.
    destruct (decide (k = length full)) as [->|Hne].
    + change (Z.of_nat (length full)) with (len full). rewrite Hbad.
      replace (S (length full) - length full)%nat with 1%nat by lia. done.
    + assert (k < length full)%nat as Hlt by lia.
      destruct (lookup_lt_is_Some_2 full k Hlt) as [page Hpage].
      rewrite (Hserved k page w) by done.
      rewrite bool_decide_false
        by (rewrite Forall_lookup in Hfull; specialize (Hfull k page Hpage); simpl in Hfull; lia).
      rewrite (page_number k (len full + 1)) by (unfold len in *; lia).
      rewrite IH by lia.
      replace (S (length full) - k)%nat with (S (S (length full) - S k)) by lia.
      cbn [afterProjectsPages].
      by replace (Z.of_nat k + 1 + 1) with (Z.of_nat (S k) + 1) by lia.
Qed.

(** X12. A listing is all or nothing: when the request for a page fails
    after any number of full pages, [ListRepositories] returns no
    repository at all, but the error of the request with the number of the
    page in front; when the answer of that page does not decode, it
    returns the decoding error.  It stops there: the failed request is the
    last one it sends. *)
Theorem ListRepositories_all_or_nothing c (full : list (list Repository)) fuel w :
  served c full →
  Forall (λ page, gitlab.perPage ≤ len page) full →
  len full < max_int →
  (length full < fuel)%nat →
  (∀ err,
     (∀ w0, (gitlab.getProjectsPage c (len full + 1) gitlab.perPage w0).1
              = gitlab.RequestFailed err) →
     gitlab.ListRepositories fuel c w =
       Some (inl ("failed to list repositories (page " +:+ pretty (len full + 1)
                  +:+ "): " +:+ err),
             afterProjectsPages c (S (length full)) 1 w)) ∧
  (∀ err,
     (∀ w0, (gitlab.getProjectsPage c (len full + 1) gitlab.perPage w0).1
              = gitlab.DecodeFailed err) →
     gitlab.ListRepositories fuel c w =
       Some (inl ("failed to decode repositories response: " +:+ err),
             afterProjectsPages c (S (length full)) 1 w)).
Proof.
  intros Hserved Hfull Hmax Hfuel. unfold gitlab.ListRepositories.
  split; intros err Hbad.
  - pose proof (ListRepositories_loop_fails c full (gitlab.RequestFailed err) fuel 0 [] w
                  Hserved Hfull Hbad Hmax ltac:(lia) ltac:(lia)) as Hrun.
    change (Z.of_nat 0 + 1) with 1 in Hrun. by rewrite Nat.sub_0_r in Hrun.
  - pose proof (ListRepositories_loop_fails c full (gitlab.DecodeFailed err) fuel 0 [] w
                  Hserved Hfull Hbad Hmax ltac:(lia) ltac:(lia)) as Hrun.
    change (Z.of_nat 0 + 1) with 1 in Hrun. by rewrite Nat.sub_0_r in Hrun.
Qed.

Lemma ListMergeRequests_loop_S fuel c projectID sourceBranch targetBranch allMRs page w :
  gitlab.ListMergeRequests_loop (S fuel) c projectID sourceBranch targetBranch allMRs page w =
  match (gitlab.getMergeRequestsPage c projectID sourceBranch targetBranch page
           gitlab.perPage w).1 with
  | gitlab.RequestFailed err =>
      Some (inl ("failed to list merge requests for project " +:+ pretty projectID
                 +:+ " (page " +:+ pretty page +:+ "): " +:+ err),
            (gitlab.getMergeRequestsPage c projectID sourceBranch targetBranch page
               gitlab.perPage w).2)
  | gitlab.DecodeFailed err =>
      Some (inl ("failed to decode merge requests response: " +:+ err),
            (gitlab.getMergeRequestsPage c projectID sourceBranch targetBranch page
               gitlab.perPage w).2)
  | gitlab.PageOK mrs =>
      if bool_decide (len mrs < gitlab.perPage) then
        Some (inr (allMRs ++ mrs),
              (gitlab.getMergeRequestsPage c projectID sourceBranch targetBranch page
                 gitlab.perPage w).2)
      else gitlab.ListMergeRequests_loop fuel c projectID sourceBranch targetBranch
             (allMRs ++ mrs) (wrap64 (page + 1))
             (gitlab.getMergeRequestsPage c projectID sourceBranch targetBranch page
                gitlab.perPage w).2
  end.
Proof.
  cbn [gitlab.ListMergeRequests_loop]. unfold mbind, M_bind, liftCall.
  destruct (gitlab.getMergeRequestsPage c projectID sourceBranch targetBranch page
              gitlab.perPage w) as [[err|err|mrs] w1]; simpl; try done.
  by case_bool_decide.
Qed.

Lemma ListMergeRequests_loop_pages c projectID sourceBranch targetBranch full last
    fuel (k : nat) acc w :
  servedMRs c projectID sourceBranch targetBranch (full ++ [last]) →
  Forall (λ page, gitlab.perPage ≤ len page) full →
  len last < gitlab.perPage →
  len (full ++ [last]) ≤ max_int →
  (k ≤ length full)%nat → (length full - k < fuel)%nat →
  ∃ w1, gitlab.ListMergeRequests_loop fuel c projectID sourceBranch targetBranch acc
          (Z.of_nat k + 1) w =
        Some (inr (acc ++ concat (drop k (full ++ [last]))), w1).
Proof.
  intros Hserved Hfull Hlast Hmax.
  revert k acc w. induction fuel as [|fuel IH]; intros k acc w Hk Hfuel; [lia|].
  rewrite ListMergeRequests_loop_S.
  destruct (decide (k = length full)) as [->|Hne].
  - rewrite (Hserved (length full) last w)
      by (rewrite lookup_app_r, Nat.sub_diag by lia; done).
    rewrite bool_decide_true by done.
    rewrite drop_app_length. simpl. rewrite app_nil_r. eauto.
  - assert (k < length full)%nat as Hlt by lia.
    destruct (lookup_lt_is_Some_2 full k Hlt) as [page Hpage].
    rewrite (Hserved k page w) by (by rewrite lookup_app_l).
    rewrite bool_decide_false
      by (rewrite Forall_lookup in Hfull; specialize (Hfull k page Hpage); simpl in Hfull; lia).
    rewrite (page_number k (len (full ++ [last])))
      by (try done; unfold len; rewrite length_app; simpl; lia).
    edestruct (IH (S k) (acc ++ page)) as [w1 Hw1]; [lia|lia|].
    exists w1. rewrite Hw1. do 2 f_equal. f_equal.
    rewrite <-app_assoc. f_equal.
    rewrite (drop_S (full ++ [last]) page k) by (by rewrite lookup_app_l).
    done.
Qed.

(** X13. The listing of the merge requests of a project is complete:
    when the server splits the open merge requests of the project, for the
    two branches asked, into full pages followed by a short one,
    [ListMergeRequests] returns all of them, in the order of the pages. *)
Theorem ListMergeRequests_complete c (projectID : Z) (sourceBranch targetBranch : string)
    (full : list (list MergeRequest)) (last : list MergeRequest) fuel w :
  servedMRs c projectID sourceBranch targetBranch (full ++ [last]) →
  Forall (λ page, gitlab.perPage ≤ len page) full →
  len last < gitlab.perPage →
  len (full ++ [last]) ≤ max_int →
  (length full < fuel)%nat →
  ∃ w1, gitlab.ListMergeRequests fuel c projectID sourceBranch targetBranch w =
        Some (inr (concat full ++ last), w1).
Proof.
  intros Hserved Hfull Hlast Hmax Hfuel.
  destruct (ListMergeRequests_loop_pages c projectID sourceBranch targetBranch full last
              fuel 0 [] w) as [w1 Hw1]; try done; try lia.
  exists w1. unfold gitlab.ListMergeRequests.
  change (Z.of_nat 0 + 1) with 1 in Hw1. rewrite Hw1.
  rewrite drop_0, concat_app. simpl. by rewrite app_nil_r.
Qed.

End client_more.

(** ** Strings: prefixes, suffixes and slices *)

Section strings_props.
Import gostrings.

Lemma string_app_nil_l (x : string) : "" +:+ x = x.
Proof. reflexivity. Qed.

Lemma string_app_cons (a : Ascii.ascii) (s x : string) : String a s +:+ x = String a (s +:+ x).
Proof. reflexivity. Qed.

Lemma string_app_nil_r (s : string) : s +:+ "" = s.
Proof. induction s as [|a s IH]; [done|]. by rewrite string_app_cons, IH. Qed.

Lemma string_app_assoc (s1 s2 s3 : string) : (s1 +:+ s2) +:+ s3 = s1 +:+ (s2 +:+ s3).
Proof. induction s1 as [|a s1 IH]; [done|]. by rewrite !string_app_cons, IH. Qed.

Lemma string_length_app (s1 s2 : string) :
  String.length (s1 +:+ s2) = (String.length s1 + String.length s2)%nat.
Proof. induction s1 as [|a s1 IH]; [done|]. rewrite string_app_cons. simpl. by rewrite IH. Qed.

Lemma substring_all (s : string) : String.substring 0 (String.length s) s = s.
Proof. induction s as [|a s IH]; simpl; [done|]. by f_equal. Qed.

Lemma substring_app_l (p x : string) :
  String.substring 0 (String.length p) (p +:+ x) = p.
Proof.
  induction p as [|a p IH]; [by destruct x|].
  rewrite string_app_cons. simpl. by f_equal.
Qed.

Lemma substring_app_r (p x : string) (m : nat) :
  String.substring (String.length p) m (p +:+ x) = String.substring 0 m x.
Proof. induction p as [|a p IH]; [done|]. rewrite string_app_cons. simpl. exact IH. Qed.

Lemma substring_split (s : string) (n : nat) :
  (n ≤ String.length s)%nat →
  s = String.substring 0 n s +:+ String.substring n (String.length s - n) s.
Proof.
  revert n. induction s as [|a s IH]; intros [|n] Hn; simpl in *; try done; try lia.
  - by rewrite string_app_nil_l, substring_all.
  - rewrite string_app_cons. rewrite <-IH by lia. done.
Qed.

Lemma string_app_inj_r (p q x y : string) :
  p +:+ x = q +:+ y → String.length x = String.length y → p = q ∧ x = y.
Proof.
  revert q. induction p as [|a p IH]; intros [|b q] Heq Hlen;
    rewrite ?string_app_cons, ?string_app_nil_l in Heq.
  - done.
  - exfalso. apply (f_equal String.length) in Heq. simpl in Heq.
    rewrite string_length_app in Heq. lia.
  - exfalso. apply (f_equal String.length) in Heq. simpl in Heq.
    rewrite string_length_app in Heq. lia.
  - injection Heq as -> Heq. destruct (IH q Heq Hlen) as [-> ->]. done.
Qed.

Lemma HasSuffix_spec (s suffix : string) :
  HasSuffix s suffix = true ↔ ∃ p, s = p +:+ suffix.
Proof.
  unfold HasSuffix, slice. rewrite andb_true_iff, !bool_decide_eq_true. split.
  - intros [Hlen Heq].
    exists (String.substring 0 (String.length s - String.length suffix) s).
    pose proof (substring_split s (String.length s - String.length suffix) ltac:(lia))
      as Hsplit.
    rewrite Heq in Hsplit. exact Hsplit.
  - intros [p ->]. rewrite string_length_app. split; [lia|].
    replace (String.length p + String.length suffix - String.length suffix)%nat
      with (String.length p) by lia.
    rewrite substring_app_r.
    replace (String.length p + String.length suffix - String.length p)%nat
      with (String.length suffix) by lia.
    apply substring_all.
Qed.

Lemma TrimSuffix_app (p suffix : string) : TrimSuffix (p +:+ suffix) suffix = p.
Proof.
  unfold TrimSuffix.
  rewrite (proj2 (HasSuffix_spec (p +:+ suffix) suffix)) by eauto.
  unfold slice. rewrite string_length_app.
  replace (String.length p + String.length suffix - String.length suffix - 0)%nat
    with (String.length p) by lia.
  apply substring_app_l.
Qed.

Lemma TrimSuffix_other (s suffix : string) :
  HasSuffix s suffix = false → TrimSuffix s suffix = s.
Proof. unfold TrimSuffix. by intros ->. Qed.

Lemma TrimSuffix_cases (s suffix : string) :
  (HasSuffix s suffix = true ∧ s = TrimSuffix s suffix +:+ suffix) ∨
  (HasSuffix s suffix = false ∧ s = TrimSuffix s suffix).
Proof.
  destruct (HasSuffix s suffix) eqn:Hs.
  - left. split; [done|]. apply HasSuffix_spec in Hs as [p ->]. by rewrite TrimSuffix_app.
  - right. by rewrite TrimSuffix_other.
Qed.

Lemma HasSuffix_last (p : string) (a b : Ascii.ascii) (x : string) :
  a ≠ b → HasSuffix (p +:+ String a "") (x +:+ String b "") = false.
Proof.
  intros Hab. apply not_true_is_false. intros [q Hq]%HasSuffix_spec.
  rewrite <-string_app_assoc in Hq.
  apply string_app_inj_r in Hq as [_ [= ?]]; done.
Qed.

End strings_props.

(** ** The client: its base URL *)

Section NewClient_props.
Import gostrings.

Lemma NewClient_strips (baseURL token : string) :
  ∃ tail, tail ∈ [""; "/"; "/api/v4"; "/api/v4/"] ∧
          baseURL = net.baseURL (net.NewClient baseURL token) +:+ tail.
Proof.
  unfold net.NewClient. cbn [net.baseURL].
  destruct (TrimSuffix_cases baseURL "/") as [[_ H1]|[_ H1]];
    destruct (HasSuffix (TrimSuffix baseURL "/") "/api/v4") eqn:H2.
  - destruct (TrimSuffix_cases (TrimSuffix baseURL "/") "/api/v4") as [[_ H3]|[H3 _]];
      [|congruence].
    exists "/api/v4/". split; [set_solver|].
    rewrite H1 at 1. rewrite H3 at 1. by rewrite string_app_assoc.
  - exists "/". split; [set_solver|]. done.
  - destruct (TrimSuffix_cases (TrimSuffix baseURL "/") "/api/v4") as [[_ H3]|[H3 _]];
      [|congruence].
    exists "/api/v4". split; [set_solver|].
    rewrite H1 at 1. by rewrite H3 at 1.
  - exists "". split; [set_solver|]. by rewrite string_app_nil_r.
Qed.

(** X14. The base URL of the client: [NewClient] only strips the end of
    the URL it is given, at most one slash and one [/api/v4] (the URL is the
    base URL of the client followed by nothing, by [/], by [/api/v4] or by
    [/api/v4/]), and it keeps the token.  So the four spellings of a GitLab
    URL give the same client: for a base that ends neither with a slash nor
    with [/api/v4], the base itself and the base followed by [/], by
    [/api/v4] or by [/api/v4/] all give the client of that base, and every
    request goes to the same address. *)
Theorem NewClient_base_URL (baseURL token : string) :
  (∃ tail, tail ∈ [""; "/"; "/api/v4"; "/api/v4/"] ∧
           baseURL = net.baseURL (net.NewClient baseURL token) +:+ tail) ∧
  net.token (net.NewClient baseURL token) = token ∧
  (HasSuffix baseURL "/" = false →
   HasSuffix baseURL "/api/v4" = false →
   Forall (λ tail, net.NewClient (baseURL +:+ tail) token = net.mkClient baseURL token)
     [""; "/"; "/api/v4"; "/api/v4/"]).
Proof.
  split; [apply NewClient_strips|]. split; [done|].
  intros Hslash Hapi. unfold net.NewClient. repeat constructor.
  - rewrite string_app_nil_r, (TrimSuffix_other _ _ Hslash), Hapi. done.
  - rewrite TrimSuffix_app, Hapi. done.
  - rewrite (TrimSuffix_other (baseURL +:+ "/api/v4") "/").
    + rewrite (proj2 (HasSuffix_spec _ _)) by eauto. by rewrite TrimSuffix_app.
    + change "/api/v4" with ("/api/v" +:+ "4"). rewrite <-string_app_assoc.
      by apply (HasSuffix_last (baseURL +:+ "/api/v") _ _ "").
  - change "/api/v4/" with ("/api/v4" +:+ "/"). rewrite <-string_app_assoc, TrimSuffix_app.
    rewrite (proj2 (HasSuffix_spec _ _)) by eauto. by rewrite TrimSuffix_app.
Qed.

End NewClient_props.

(** ** The client: one request *)

Section requests_props.
Context {W : Type} (t : net.Transport W).
Implicit Types (c : net.Client) (w : W).

Lemma makeRequest_inr c (method endpoint : string) w resp w' :
  net.makeRequest t c method endpoint w = (inr resp, w') ↔
  ∃ w1,
    net.waitForTick t w = (None, w1) ∧
    net.NewRequestWithContext t method (net.baseURL c +:+ endpoint) = None ∧
    net.Do t method (net.baseURL c +:+ endpoint)
      [("Authorization", "Bearer " +:+ net.token c);
       ("Content-Type", "application/json")] w1 = (inr resp, w') ∧
    net.StatusCode resp < 400.
Proof.
  - unfold net.makeRequest.
    destruct (net.waitForTick t w) as [[err|] w1].
    { split; [done|]. by intros (w2 & ? & _). }
    destruct (net.NewRequestWithContext t method (net.baseURL c +:+ endpoint)) as [err|].
    { split; [done|]. by intros (w2 & _ & ? & _). }
    destruct (net.Do t method _ _ w1) as [[err|resp1] w2] eqn:Hdo.
    { split; [done|]. intros (w3 & [= <-] & _ & Hdo' & _). congruence. }
    repeat case_bool_decide.
    + split; [done|]. intros (w3 & [= <-] & _ & Hdo' & Hst).
      rewrite Hdo in Hdo'. simplify_eq. lia.
    + split; [done|]. intros (w3 & [= <-] & _ & Hdo' & Hst).
      rewrite Hdo in Hdo'. simplify_eq. lia.
    + split; [done|]. intros (w3 & [= <-] & _ & Hdo' & Hst).
      rewrite Hdo in Hdo'. simplify_eq. lia.
    + split.
      * intros [= <- <-]. exists w1. split_and!; try done. lia.
      * intros (w3 & [= <-] & _ & Hdo' & Hst). rewrite Hdo in Hdo'. by simplify_eq.
Qed.

Lemma makeRequest_status c (method endpoint : string) w w1 resp w2 :
  net.waitForTick t w = (None, w1) →
  net.NewRequestWithContext t method (net.baseURL c +:+ endpoint) = None →
  net.Do t method (net.baseURL c +:+ endpoint)
    [("Authorization", "Bearer " +:+ net.token c);
     ("Content-Type", "application/json")] w1 = (inr resp, w2) →
  net.makeRequest t c method endpoint w =
    (if bool_decide (net.StatusCode resp = 401) then
       inl "authentication failed: invalid token"
     else if bool_decide (net.StatusCode resp = 429) then inl "rate limit exceeded"
     else if bool_decide (400 ≤ net.StatusCode resp) then
       inl ("API error " +:+ pretty (net.StatusCode resp) +:+ ": " +:+ net.Body resp)
     else inr resp, w2).
Proof.
  intros Htick Hnew Hdo. unfold net.makeRequest. rewrite Htick, Hnew, Hdo.
  by repeat case_bool_decide.
Qed.

(** X15. What counts as an answer: [makeRequest] returns a response
    exactly when the tick of the rate limiter came before the end of the
    context, the request could be built for the base URL followed by the
    endpoint, the server answered the request, which carries the token as
    a bearer token, and the status of the answer is below 400; when the
    context is done first, the error is the one of the context and nothing
    is sent.  So [TestConnection] accepts every answer to [/api/v4/user]
    with a status below 400, not only 200. *)
Theorem makeRequest_response c (method endpoint : string) w :
  (∀ resp w',
     net.makeRequest t c method endpoint w = (inr resp, w') ↔
     ∃ w1,
       net.waitForTick t w = (None, w1) ∧
       net.NewRequestWithContext t method (net.baseURL c +:+ endpoint) = None ∧
       net.Do t method (net.baseURL c +:+ endpoint)
         [("Authorization", "Bearer " +:+ net.token c);
          ("Content-Type", "application/json")] w1 = (inr resp, w') ∧
       net.StatusCode resp < 400) ∧
  (∀ err w1,
     net.waitForTick t w = (Some err, w1) →
     net.makeRequest t c method endpoint w = (inl err, w1)) ∧
  (∀ w',
     net.TestConnection t c w = (None, w') ↔
     ∃ w1 resp,
       net.waitForTick t w = (None, w1) ∧
       net.NewRequestWithContext t "GET" (net.baseURL c +:+ "/api/v4/user") = None ∧
       net.Do t "GET" (net.baseURL c +:+ "/api/v4/user")
         [("Authorization", "Bearer " +:+ net.token c);
          ("Content-Type", "application/json")] w1 = (inr resp, w') ∧
       net.StatusCode resp < 400).
Proof.
  split; [intros resp w'; apply makeRequest_inr|]. split.
  - intros err w1 Htick. unfold net.makeRequest. by rewrite Htick.
  - intros w'. unfold net.TestConnection.
    destruct (net.makeRequest t c "GET" "/api/v4/user" w) as [[err|resp] w2] eqn:Hreq.
    + split; [done|]. intros (w1 & resp & Htick & Hnew & Hdo & Hst).
      assert (net.makeRequest t c "GET" "/api/v4/user" w = (inr resp, w')) as Hok.
      { apply makeRequest_inr. eauto. }
      congruence.
    + apply makeRequest_inr in Hreq as (w1 & Htick & Hnew & Hdo & Hst).
      split.
      * intros [= <-]. eauto 10.
      * intros (w1' & resp' & Htick' & _ & Hdo' & _).
        rewrite Htick in Htick'. simplify_eq. rewrite Hdo in Hdo'. by simplify_eq.
Qed.

(** X16. An invalid token stops the scan at its first request: when the
    server answers the request for the first page of repositories with the
    status 401, [ScanRepositories] returns the error of the client behind
    the prefixes of the listing and of the scanner, and sends nothing
    else. *)
Theorem ScanRepositories_unauthorized c (includeGroups : list Z) fuel w w1 resp w2 :
  net.waitForTick t w = (None, w1) →
  net.NewRequestWithContext t "GET"
    (net.baseURL c +:+ "/api/v4/projects?membership=true&page=1&per_page=100") = None →
  net.Do t "GET" (net.baseURL c +:+ "/api/v4/projects?membership=true&page=1&per_page=100")
    [("Authorization", "Bearer " +:+ net.token c);
     ("Content-Type", "application/json")] w1 = (inr resp, w2) →
  net.StatusCode resp = 401 →
  scanner.ScanRepositories (S fuel)
    (scanner.NewRepositoryScanner (net.requests t c) includeGroups) w =
    Some (inl ("failed to retrieve repositories: failed to list repositories (page 1): "
               +:+ "authentication failed: invalid token"), w2).
Proof.
  intros Htick Hnew Hdo Hst.
  rewrite ScanRepositories_eq. unfold gitlab.ListRepositories.
  rewrite ListRepositories_loop_S. cbn [scanner.client scanner.NewRepositoryScanner].
  cbn [gitlab.getProjectsPage net.requests]. unfold net.getProjectsPage.
  change ("/api/v4/projects?membership=true&page=" +:+ pretty 1 +:+ "&per_page="
          +:+ pretty gitlab.perPage)
    with "/api/v4/projects?membership=true&page=1&per_page=100".
  rewrite (makeRequest_status c _ _ w w1 resp w2 Htick Hnew Hdo).
  rewrite bool_decide_true by done. done.
Qed.



End requests_props.

(** ** The test support: substrings *)

Section substrings.
Import gostrings testing.

Lemma substring_length (s : string) (n m : nat) :
  (n + m ≤ String.length s)%nat → String.length (String.substring n m s) = m.
Proof.
  revert n m. induction s as [|a s IH]; intros [|n] [|m] Hlen; simpl in *;
    try done; try lia.
  - rewrite IH by lia. done.
  - apply (IH n 0%nat). lia.
  - apply IH. lia.
Qed.

Lemma substring_occurs (s : string) (i m : nat) :
  (i + m ≤ String.length s)%nat →
  ∃ before after,
    s = before +:+ String.substring i m s +:+ after ∧ String.length before = i.
Proof.
  revert i m. induction s as [|a s IH]; intros [|i] [|m] Hlen; simpl in *; try lia.
  - by exists "", "".
  - by exists "", (String a s).
  - destruct (IH 0%nat m ltac:(lia)) as (before & after & Heq & Hb).
    destruct before; [|done]. exists "", after. split; [|done].
    rewrite string_app_nil_l in *. rewrite string_app_cons. by rewrite <-Heq.
  - destruct (IH i 0%nat ltac:(lia)) as (before & after & Heq & Hb).
    exists (String a before), after. split; [|simpl; by rewrite Hb].
    rewrite string_app_cons. by rewrite <-Heq.
  - destruct (IH i (S m) ltac:(lia)) as (before & after & Heq & Hb).
    exists (String a before), after. split; [|simpl; by rewrite Hb].
    rewrite string_app_cons. by rewrite <-Heq.
Qed.

Lemma substring_middle (before x after : string) :
  String.substring (String.length before) (String.length x) (before +:+ x +:+ after) = x.
Proof. rewrite substring_app_r. apply substring_app_l. Qed.

Lemma slice_occurs (s substr : string) (i : nat) :
  (i + String.length substr ≤ String.length s)%nat →
  slice s i (i + String.length substr) = substr →
  occursIn substr s.
Proof.
  unfold slice. intros Hlen Heq.
  replace (i + String.length substr - i)%nat with (String.length substr) in Heq by lia.
  destruct (substring_occurs s i (String.length substr) Hlen) as (before & after & Hs & _).
  exists before, after. by rewrite Heq in Hs.
Qed.

Lemma findSubstring_loop_true (n : nat) (s substr : string) (i : nat) :
  findSubstring_loop n s substr i = true ↔
  ∃ j, (i ≤ j < i + n)%nat ∧ slice s j (j + String.length substr) = substr.
Proof.
  revert i. induction n as [|n IH]; intros i; simpl.
  - split; [done|]. intros (j & ? & _). lia.
  - case_bool_decide as Hi.
    + split; [|done]. intros _. exists i. split; [lia|done].
    + rewrite IH. split.
      * intros (j & ? & ?). exists j. split; [lia|done].
      * intros (j & ? & Hj). exists j. split; [|done].
        destruct (decide (j = i)) as [->|]; [done|lia].
Qed.

Lemma containsString_sound (s substr : string) :
  containsString s substr = true → occursIn substr s.
Proof.
  unfold containsString.
  rewrite andb_true_iff, orb_true_iff, !bool_decide_eq_true.
  intros [Hlen [->|Hrest]].
  { exists "", "". by rewrite string_app_nil_l, string_app_nil_r. }
  rewrite andb_true_iff, !orb_true_iff, !bool_decide_eq_true in Hrest.
  destruct Hrest as [Hlt [[Hprefix|Hsuffix]|Hfind]].
  - apply (slice_occurs s substr 0); [lia|done].
  - apply (slice_occurs s substr (String.length s - String.length substr)); [lia|].
    by replace (String.length s - String.length substr + String.length substr)%nat
      with (String.length s) by lia.
  - unfold findSubstring in Hfind. case_bool_decide; [done|].
    apply findSubstring_loop_true in Hfind as (j & Hj & Heq).
    apply (slice_occurs s substr j); [lia|done].
Qed.

Lemma containsString_complete (s substr : string) :
  occursIn substr s → containsString s substr = true.
Proof.
  unfold containsString. intros (before & after & ->).
  rewrite !string_length_app.
  rewrite bool_decide_true by lia. rewrite andb_true_l.
  destruct (decide (before +:+ substr +:+ after = substr)) as [Heq|Hne].
  { by rewrite bool_decide_true. }
  rewrite (bool_decide_false _ Hne), orb_false_l.
  assert (String.length substr < String.length before + (String.length substr
            + String.length after))%nat as Hlt.
  { destruct before as [|a b]; [|simpl; lia]. destruct after as [|a b]; [|simpl; lia].
    exfalso. apply Hne. by rewrite string_app_nil_l, string_app_nil_r. }
  rewrite bool_decide_true by done. rewrite andb_true_l.
  assert (findSubstring (before +:+ substr +:+ after) substr = true) as ->.
  { unfold findSubstring. rewrite !string_length_app.
    rewrite bool_decide_false by lia.
    apply findSubstring_loop_true. exists (String.length before). split; [lia|].
    unfold slice.
    replace (String.length before + String.length substr - String.length before)%nat
      with (String.length substr) by lia.
    apply substring_middle. }
  by rewrite orb_true_r.
Qed.

(** X18. [containsString] is the substring test: it returns true exactly
    when [substr] occurs in [s], whatever the lengths; so the empty string
    is found in every string, and a string in itself. *)
Theorem containsString_occurs (s substr : string) :
  (containsString s substr = true ↔ occursIn substr s) ∧
  containsString s "" = true ∧ containsString s s = true.
Proof.
  split_and!.
  - split; [apply containsString_sound|apply containsString_complete].
  - apply containsString_complete. exists "", s. by rewrite !string_app_nil_l.
  - apply containsString_complete. exists "", "".
    by rewrite string_app_nil_l, string_app_nil_r.
Qed.

End substrings.

(** ** The test support: the mock server *)

Section mock_server.
Import gostrings testing.
Context (Atoi Sscanf : string → option Z).

Lemma projects_prefix_never (path : string) :
  (20 < String.length path)%nat → slice path 0 20 ≠ "/api/v4/projects/".
Proof.
  intros Hlen Heq. apply (f_equal String.length) in Heq. unfold slice in Heq.
  rewrite substring_length in Heq by (simpl; lia). done.
Qed.

Lemma handleRequest_other m r :
  handleRequest Atoi Sscanf m r =
  if unauthorizedReq m then Some (Status 401)
  else if bool_decide (Authorization r ≠ "Bearer test-token") then Some (Status 401)
  else if bool_decide (Path r = "/api/v4/user") then Some User
  else if bool_decide (Path r = "/api/v4/projects") then handleRepositoryList Atoi m r
  else Some (Status 404).
Proof.
  unfold handleRequest.
  destruct (bool_decide (20 < String.length (Path r))%nat
            && bool_decide (slice (Path r) 0 20 = "/api/v4/projects/")) eqn:Hmr; [|done].
  exfalso. apply andb_prop in Hmr as [Hlen Hprefix].
  apply bool_decide_eq_true in Hlen, Hprefix. by apply projects_prefix_never in Hprefix.
Qed.

(** X19. The mock server never serves a merge request: the test of its
    handler compares the first 20 bytes of the path with a string of 17
    bytes, so every request for a path other than [/api/v4/user] and
    [/api/v4/projects] is answered with the status 401 or 404, and what
    [SetMergeRequests] and [SetRepositoryError] store changes no answer. *)
Theorem handleRequest_never_merge_requests (m : MockGitLabServer) (r : Request) :
  (Path r ≠ "/api/v4/user" → Path r ≠ "/api/v4/projects" →
   handleRequest Atoi Sscanf m r = Some (Status 401) ∨
   handleRequest Atoi Sscanf m r = Some (Status 404)) ∧
  (∀ repoID mrs,
     handleRequest Atoi Sscanf (SetMergeRequests m repoID mrs) r =
     handleRequest Atoi Sscanf m r) ∧
  (∀ repoID hasError,
     handleRequest Atoi Sscanf (SetRepositoryError m repoID hasError) r =
     handleRequest Atoi Sscanf m r).
Proof.
  rewrite !handleRequest_other. split_and!.
  - intros Huser Hprojects.
    rewrite (bool_decide_false _ Huser), (bool_decide_false _ Hprojects).
    destruct (unauthorizedReq m); [by left|]. case_bool_decide; [by left|by right].
  - intros repoID mrs. by rewrite !handleRequest_other.
  - intros repoID hasError. by rewrite !handleRequest_other.
Qed.

End mock_server.

(** ** The test support: the pages of the mock server *)

Section mock_pages.
Import gostrings testing.
Context (Atoi Sscanf : string → option Z).
Context (Hempty : Atoi "" = None).

Lemma parsed_nonempty (z : Z) : Atoi (pretty z) = Some z → pretty z ≠ "".
Proof. intros Hz Heq. rewrite Heq in Hz. congruence. Qed.

(** The page the handler cuts for the page number [k + 1] and 100
    repositories per page. *)
Lemma handleRepositoryList_page (m : MockGitLabServer) (k : nat) :
  Atoi (pretty (Z.of_nat k + 1)) = Some (Z.of_nat k + 1) →
  Atoi (pretty 100) = Some 100 →
  len (repositories m) ≤ max_int - 100 →
  (100 * k ≤ length (repositories m))%nat →
  handleRepositoryList Atoi m (projectsRequest (pretty (Z.of_nat k + 1))) =
    Some (Repositories (take 100 (drop (100 * k) (repositories m)))).
Proof.
  intros Hpage Hsize Hmax Hk.
  unfold handleRepositoryList, projectsRequest. cbn [queryPage queryPerPage].
  rewrite (bool_decide_true _ (parsed_nonempty _ Hpage)), Hpage.
  rewrite (bool_decide_true ("100" ≠ "")) by done.
  change "100" with (pretty 100). rewrite Hsize.
  unfold len, max_int in *.
  replace (Z.of_nat k + 1 - 1) with (Z.of_nat k) by lia.
  rewrite (wrap64_id (Z.of_nat k)) by (unfold min_int, max_int; lia).
  rewrite (wrap64_id (Z.of_nat k * 100)) by (unfold min_int, max_int; lia).
  rewrite (wrap64_id (Z.of_nat k * 100 + 100)) by (unfold min_int, max_int; lia).
  case_bool_decide as Hstart.
  - rewrite bool_decide_true by (case_bool_decide; lia).
    do 2 f_equal.
    replace (Z.to_nat (Z.of_nat k * 100)) with (100 * k)%nat by lia.
    case_bool_decide as Hend.
    + rewrite !take_ge; [done|rewrite length_drop; lia|rewrite length_drop; lia].
    + f_equal. lia.
  - do 2 f_equal. rewrite drop_ge by lia. done.
Qed.

Lemma chunks_concat {A} (l : list A) (n : nat) :
  (100 * n ≤ length l)%nat →
  concat ((λ k, take 100 (drop (100 * k) l)) <$> seq 0 n) = take (100 * n) l.
Proof.
  induction n as [|n IH]; intros Hn; [by rewrite Nat.mul_0_r|].
  rewrite seq_S, fmap_app, concat_app, IH by lia. cbn [fmap list_fmap concat].
  rewrite app_nil_r.
  replace (100 * S n)%nat with (100 * n + 100)%nat by lia.
  rewrite <-take_take_drop. done.
Qed.

(** X20. [ListRepositories] against the mock server: when every answer
    the client gets for a page of repositories is the page the handler of
    the mock server cuts for the request, as it comes back from the JSON
    encoding and decoding ([wire]), the listing returns all the
    repositories of the server, in their order, whatever their number.
    [Atoi] is asked to read back the numbers the client writes. *)
Theorem ListRepositories_against_mock {W} (c : gitlab.Client W) (m : MockGitLabServer)
    (wire : Repository → Repository) fuel (w : W) :
  (∀ z, 1 ≤ z ≤ 100 + len (repositories m) → Atoi (pretty z) = Some z) →
  unauthorizedReq m = false →
  len (repositories m) ≤ max_int - 100 →
  (∀ page w0 pageRepos, 1 ≤ page →
     handleRequest Atoi Sscanf m (projectsRequest (pretty page)) =
       Some (Repositories pageRepos) →
     (gitlab.getProjectsPage c page gitlab.perPage w0).1 = gitlab.PageOK (wire <$> pageRepos)) →
  (length (repositories m) / 100 < fuel)%nat →
  ∃ w1, gitlab.ListRepositories fuel c w = Some (inr (wire <$> repositories m), w1).
Proof.
  intros Hparse Hauth Hmax Hclient Hfuel.
  set (repos := repositories m) in *.
  set (n := (length repos / 100)%nat) in *.
  assert (100 * n ≤ length repos ∧ length repos < 100 * n + 100)%nat as [Hn1 Hn2].
  { unfold n. pose proof (Nat.div_mod_eq (length repos) 100).
    pose proof (Nat.mod_upper_bound (length repos) 100). lia. }
  set (page := λ k : nat, wire <$> take 100 (drop (100 * k) repos)).
  assert (∀ k w0, (k ≤ n)%nat →
            (gitlab.getProjectsPage c (Z.of_nat k + 1) gitlab.perPage w0).1
              = gitlab.PageOK (page k)) as Hpage.
  { intros k w0 Hk. apply Hclient; [lia|].
    rewrite handleRequest_other, Hauth. cbn [projectsRequest Authorization Path].
    rewrite bool_decide_false by (intros Hne; by apply Hne).
    rewrite bool_decide_false by done. rewrite bool_decide_true by done.
    apply handleRepositoryList_page; fold repos; [| |done|lia].
    - apply Hparse. unfold len. lia.
    - apply Hparse. unfold len. lia. }
  destruct (ListRepositories_pages c ((page <$> seq 0 n) ++ [page n]) fuel w) as [w1 Hw1].
  - intros k pg w0 Hk.
    assert (pg = page k ∧ k ≤ n)%nat as [-> Hkn].
    { destruct (decide (k < n)%nat) as [Hlt|Hge].
      - rewrite lookup_app_l in Hk by (rewrite length_fmap, length_seq; lia).
        rewrite list_lookup_fmap, lookup_seq_lt in Hk by done. simpl in Hk.
        split; [congruence|lia].
      - rewrite lookup_app_r in Hk by (rewrite length_fmap, length_seq; lia).
        rewrite length_fmap, length_seq in Hk.
        destruct (k - n)%nat as [|d] eqn:Hd; [|by destruct d].
        simpl in Hk. assert (k = n) as -> by lia. split; [congruence|lia]. }
    by apply Hpage.
  - exists (page <$> seq 0 n), (page n). split; [done|]. split.
    + apply Forall_fmap, Forall_forall. intros k Hk%elem_of_seq. simpl.
      unfold page, len, gitlab.perPage. rewrite length_fmap, length_take, length_drop. lia.
    + unfold page, len, gitlab.perPage. rewrite length_fmap, length_take, length_drop. lia.
  - unfold len, max_int in *. rewrite length_app, length_fmap, length_seq. simpl.
    fold repos in Hmax. lia.
  - rewrite length_app, length_fmap, length_seq. simpl. lia.
  - exists w1. rewrite Hw1. do 3 f_equal.
    rewrite concat_app. simpl. rewrite app_nil_r.
    assert (concat (page <$> seq 0 n) = wire <$> take (100 * n) repos) as ->.
    { rewrite <-chunks_concat by done. unfold page. clear.
      induction (seq 0 n) as [|k ks IH]; [done|].
      rewrite !fmap_cons. cbn [concat]. by rewrite fmap_app, IH. }
    unfold page. rewrite <-fmap_app. f_equal.
    rewrite (take_ge (drop (100 * n) repos)) by (rewrite length_drop; lia).
    apply take_drop.
Qed.

End mock_pages.

(** ** The test support: the validators *)

Section validators.
Import testing analyzer.

Lemma newestFirst_adjacent (mrs : list MergeRequest) :
  newestFirst mrs ↔
  ∀ i x y, mrs !! i = Some x → mrs !! S i = Some y → mr_CreatedAt y ≤ mr_CreatedAt x.
Proof.
  split.
  - intros Hs i x y Hx Hy. apply (Hs i (S i) x y); [lia|done|done].
  - intros Hadj i j x y Hij. revert y. induction Hij as [|j Hij IH]; intros y Hx Hy.
    + assert (x = y) as -> by congruence. lia.
    + destruct (lookup_lt_is_Some_2 mrs j) as [z Hz].
      { apply lookup_lt_Some in Hy. lia. }
      specialize (IH z Hx Hz). specialize (Hadj j z y Hz Hy). lia.
Qed.

Lemma ValidateMergeRequestSorting_loop_spec (n : nat) (mrs : list MergeRequest) (i : nat) :
  (1 ≤ i)%nat → (i + n = length mrs)%nat →
  ∃ b, ValidateMergeRequestSorting_loop n mrs i = Some b ∧
       (b = true ↔
        ∀ k x y, (i ≤ S k)%nat → mrs !! k = Some x → mrs !! S k = Some y →
                 mr_CreatedAt y ≤ mr_CreatedAt x).
Proof.
  revert i. induction n as [|n IH]; intros i Hi Hlen.
  - exists true. split; [done|]. split; [|done]. intros _ k x y Hk _ Hy.
    apply lookup_lt_Some in Hy. lia.
  - cbn [ValidateMergeRequestSorting_loop].
    destruct (lookup_lt_is_Some_2 mrs (i - 1)) as [previous Hprevious]; [lia|].
    destruct (lookup_lt_is_Some_2 mrs i) as [current Hcurrent]; [lia|].
    rewrite Hprevious, Hcurrent. simpl.
    case_bool_decide as Hbefore.
    + exists false. split; [done|]. split; [done|]. intros Hall. exfalso.
      specialize (Hall (i - 1)%nat previous current ltac:(lia) Hprevious).
      replace (S (i - 1)) with i in Hall by lia. specialize (Hall Hcurrent). lia.
    + destruct (IH (S i) ltac:(lia) ltac:(lia)) as (b & Hb & Hspec).
      exists b. split; [done|]. rewrite Hspec. split.
      * intros Hall k x y Hk Hx Hy.
        destruct (decide (S k = i)) as [Heq|Hne]; [|apply (Hall k x y); [lia|done|done]].
        subst i. replace (S k - 1)%nat with k in Hprevious by lia.
        assert (x = previous) as -> by congruence.
        assert (y = current) as -> by congruence. lia.
      * intros Hall k x y Hk. apply Hall. lia.
Qed.

(** X21. [ValidateMergeRequestSorting] decides the order the analyzer
    promises: it returns, without reading out of range, and its answer is
    true exactly when the creation instants never increase along the
    list. *)
Theorem ValidateMergeRequestSorting_newestFirst (mrs : list MergeRequest) :
  ∃ b, ValidateMergeRequestSorting mrs = Some b ∧ (b = true ↔ newestFirst mrs).
Proof.
  unfold ValidateMergeRequestSorting. destruct mrs as [|mr mrs].
  - exists true. split; [done|]. split; [|done]. intros _ i j x y _ Hx.
    by rewrite lookup_nil in Hx.
  - destruct (ValidateMergeRequestSorting_loop_spec (length (mr :: mrs) - 1) (mr :: mrs) 1)
      as (b & Hb & Hspec); [lia|simpl; lia|].
    exists b. split; [done|]. rewrite Hspec, newestFirst_adjacent. split.
    + intros Hall i x y. apply Hall. lia.
    + intros Hall k x y _. apply Hall.
Qed.

Lemma expectedCount_filter (input : list MergeRequest) (n : Z) :
  0 ≤ n → n + len input ≤ max_int →
  foldl (λ expectedCount mr,
           if bool_decide (mr_SourceBranch mr = "release")
              && bool_decide (mr_TargetBranch mr = "master")
              && mr_HasConflicts mr
           then wrap64 (expectedCount + 1) else expectedCount) n input
  = n + len (List.filter releaseToMasterConflict input).
Proof.
  revert n. induction input as [|mr input IH]; intros n Hn Hmax.
  - unfold len. simpl. lia.
  - cbn [foldl List.filter]. fold (releaseToMasterConflict mr).
    unfold len in *. cbn [length] in Hmax.
    pose proof (filter_length_le releaseToMasterConflict input) as Hle.
    destruct (releaseToMasterConflict mr).
    + rewrite wrap64_id by (unfold min_int, max_int in *; lia).
      rewrite IH by lia. cbn [length]. lia.
    + rewrite IH by lia. done.
Qed.

Lemma ValidateMergeRequestFiltering_spec (input filtered : list MergeRequest) :
  len input ≤ max_int →
  ValidateMergeRequestFiltering input filtered = true ↔
  Forall (λ mr, releaseToMasterConflict mr = true) filtered ∧
  length filtered = length (List.filter releaseToMasterConflict input).
Proof.
  intros Hmax. unfold ValidateMergeRequestFiltering.
  rewrite expectedCount_filter by (unfold len in *; lia).
  assert (existsb (λ mr, bool_decide (mr_SourceBranch mr ≠ "release")
                         || bool_decide (mr_TargetBranch mr ≠ "master")
                         || negb (mr_HasConflicts mr)) filtered = false ↔
          Forall (λ mr, releaseToMasterConflict mr = true) filtered) as Hall.
  { induction filtered as [|mr filtered IH]; simpl.
    - split; [constructor|done].
    - rewrite orb_false_iff, IH, Forall_cons. unfold releaseToMasterConflict.
      rewrite !andb_true_iff, !orb_false_iff, !bool_decide_eq_true, !bool_decide_eq_false,
        negb_false_iff.
      split; [intros [[[?%dec_stable ?%dec_stable] ?] ?]|intros [[[? ?] ?] ?]]; tauto. }
  destruct (existsb _ filtered).
  - split; [done|]. intros [Hf _]. apply Hall in Hf. done.
  - rewrite bool_decide_eq_true. unfold len. split.
    + intros Hlen. split; [by apply Hall|lia].
    + intros [_ Hlen]. lia.
Qed.

(** X22. The two validators accept what [filterAndSortConflictingMRs]
    returns, for every input: the filtering check and the sorting check of
    the property tests hold of the function under test on all lists of
    merge requests, not only on the generated ones. *)
Theorem validators_accept_filterAndSort (mrs out : list MergeRequest) :
  len mrs ≤ max_int →
  filterAndSortConflictingMRs mrs = Some out →
  ValidateMergeRequestFiltering mrs out = true ∧
  ValidateMergeRequestSorting out = Some true.
Proof.
  intros Hmax Hout. unfold filterAndSortConflictingMRs in Hout.
  destruct (Slice_createdAfter (List.filter releaseToMasterConflict mrs))
    as (out' & Hout' & Hperm & Hsorted & _).
  assert (out' = out) as -> by congruence. split.
  - apply ValidateMergeRequestFiltering_spec; [done|]. split.
    + rewrite Hperm. apply Forall_forall. intros mr Hmr.
      apply list_elem_of_In, filter_In in Hmr. apply Hmr.
    + by rewrite Hperm.
  - unfold ValidateMergeRequestSorting. destruct out as [|mr out]; [done|].
    destruct (ValidateMergeRequestSorting_loop_spec (length (mr :: out) - 1) (mr :: out) 1)
      as (b & Hb & Hspec); [lia|simpl; lia|].
    rewrite Hb. f_equal. apply Hspec. intros k x y _.
    apply (proj1 (newestFirst_adjacent _) Hsorted).
Qed.

Lemma actualMap_other (actual : list Repository) (m0 : gmap Z Repository) (k : Z) :
  k ∉ repo_ID <$> actual →
  foldl (λ actualMap repo, <[repo_ID repo := repo]> actualMap) m0 actual !! k = m0 !! k.
Proof.
  revert m0. induction actual as [|a actual IH]; intros m0 Hk; [done|].
  rewrite fmap_cons, not_elem_of_cons in Hk. destruct Hk as [Hne Hk].
  cbn [foldl]. rewrite IH by done. by rewrite lookup_insert_ne.
Qed.

Lemma actualMap_lookup (actual : list Repository) (m0 : gmap Z Repository) (r : Repository) :
  NoDup (repo_ID <$> actual) → r ∈ actual →
  foldl (λ actualMap repo, <[repo_ID repo := repo]> actualMap) m0 actual !! repo_ID r
    = Some r.
Proof.
  revert m0. induction actual as [|a actual IH]; intros m0 Hnd Hr.
  - by apply elem_of_nil in Hr.
  - rewrite fmap_cons, NoDup_cons in Hnd. destruct Hnd as [Ha Hnd].
    cbn [foldl]. apply elem_of_cons in Hr as [->|Hr]; [|by apply IH].
    rewrite actualMap_other by done. by rewrite lookup_insert_eq.
Qed.

Lemma ValidateRepositoryCompleteness_same (expected actual : list Repository) :
  Forall2 sameListing actual expected →
  NoDup (repo_ID <$> actual) →
  ValidateRepositoryCompleteness expected actual = true.
Proof.
  intros Hsame Hnd. unfold ValidateRepositoryCompleteness.
  rewrite bool_decide_false by (unfold len; rewrite (Forall2_length _ _ _ Hsame); lia).
  apply Is_true_true, forallb_True, Forall_forall. intros e He.
  apply list_elem_of_lookup in He as [i He].
  destruct (Forall2_lookup_r _ _ _ _ _ Hsame He) as (a & Ha & Hid & Hname & Hurl).
  rewrite <-Hid.
  rewrite (actualMap_lookup actual ∅ a Hnd) by (by eapply list_elem_of_lookup_2).
  rewrite !bool_decide_false by congruence. done.
Qed.

(** X23. The completeness check of the tests holds of every scan: when
    the listed repositories have distinct identifiers,
    [ValidateRepositoryCompleteness] accepts what [ScanRepositories]
    returns against the listed repositories that pass the whitelist. *)
Theorem ScanRepositories_passes_completeness {W} fuel (rs : scanner.RepositoryScanner W)
    (w : W) repos w1 out w2 :
  gitlab.ListRepositories fuel (scanner.client rs) w = Some (inr repos, w1) →
  scanner.ScanRepositories fuel rs w = Some (inr out, w2) →
  NoDup (repo_ID <$> repos) →
  ValidateRepositoryCompleteness (scanner.filterRepositories rs repos) out = true.
Proof.
  intros Hlist Hscan Hnd. rewrite ScanRepositories_eq, Hlist in Hscan.
  destruct (scanner.processAll fuel rs (scanner.filterRepositories rs repos) w1)
    as [[out' w3]|] eqn:Hall; [|done].
  injection Hscan as -> ->.
  apply processAll_post in Hall as [Hsame _].
  apply ValidateRepositoryCompleteness_same.
  - eapply Forall2_impl; [exact Hsame|]. intros a e (? & ? & ? & _). done.
  - assert (repo_ID <$> out = repo_ID <$> scanner.filterRepositories rs repos) as ->.
    { clear -Hsame. induction Hsame as [|a e out l (Hid & _) _ IH]; [done|].
      rewrite !fmap_cons. by rewrite Hid, IH. }
    eapply sublist_NoDup; [exact Hnd|].
    apply fmap_sublist. rewrite filterRepositories_passes. apply sublist_filter.
Qed.

End validators.

(** ** The configuration *)

Section config_props.
Context {W : Type} (fs : os.FileSystem W) (Unmarshal : string → error + config.Config).

(** X24. [LoadConfig] never returns a configuration without token or
    without URL: what it returns is what [yaml.Unmarshal] read from the
    bytes of the file, and it passed [Validate].  A file that [os.Stat]
    reports missing is not read: the error names the path. *)
Theorem LoadConfig_validated (filePath : string) (w : W) :
  (∀ cfg w',
     config.LoadConfig fs Unmarshal filePath w = (inr cfg, w') →
     config.Token cfg ≠ "" ∧ config.URL cfg ≠ "" ∧ config.Validate cfg = None ∧
     (os.Stat fs filePath w).1 ≠ os.NotExist ∧
     ∃ data, os.ReadFile fs filePath (os.Stat fs filePath w).2 = (inr data, w') ∧
             Unmarshal data = inr cfg) ∧
  ((os.Stat fs filePath w).1 = os.NotExist →
   config.LoadConfig fs Unmarshal filePath w =
     (inl ("configuration file not found: " +:+ filePath), (os.Stat fs filePath w).2)).
Proof.
  unfold config.LoadConfig. destruct (os.Stat fs filePath w) as [found w1]. cbn [fst snd].
  split.
  - intros cfg w' Hload.
    assert (found ≠ os.NotExist ∧
            match os.ReadFile fs filePath w1 with
            | (inl err, w) => (inl ("failed to read configuration file: " +:+ err), w)
            | (inr data, w) =>
              match Unmarshal data with
              | inl err => (inl ("failed to parse YAML configuration: " +:+ err), w)
              | inr config =>
                match config.Validate config with
                | Some err => (inl ("configuration validation failed: " +:+ err), w)
                | None => (inr config, w)
                end
              end
            end = (inr cfg, w')) as [Hfound Hrest] by (by destruct found).
    clear Hload.
    destruct (os.ReadFile fs filePath w1) as [[err|data] w2]; [done|].
    destruct (Unmarshal data) as [err|config] eqn:Hdata; [done|].
    destruct (config.Validate config) as [err|] eqn:Hvalid; [done|].
    injection Hrest as -> ->.
    unfold config.Validate in Hvalid. repeat case_bool_decide; try done.
    split_and!; try done.
    + unfold config.Validate. by rewrite !bool_decide_false.
    + by exists data.
  - by intros ->.
Qed.

End config_props.

(** ** The reporter: the name of the file *)

Section reporter_files.
Context {W : Type} (fs : os.FileSystem W) (filepath : os.Paths).
Context (files : string → os.StatResult) (Hfiles : stableFiles fs files).

Lemma handleFileConflict_loop_S fuel dir nameWithoutExt ext counter w :
  reporter.handleFileConflict_loop fs filepath (S fuel) dir nameWithoutExt ext counter w =
  match (os.Stat fs (os.Join filepath dir
                       (nameWithoutExt +:+ "_" +:+ pretty counter +:+ ext)) w).1 with
  | os.NotExist =>
      Some (os.Join filepath dir (nameWithoutExt +:+ "_" +:+ pretty counter +:+ ext),
            (os.Stat fs (os.Join filepath dir
                           (nameWithoutExt +:+ "_" +:+ pretty counter +:+ ext)) w).2)
  | _ =>
      reporter.handleFileConflict_loop fs filepath fuel dir nameWithoutExt ext
        (wrap64 (counter + 1))
        (os.Stat fs (os.Join filepath dir
                       (nameWithoutExt +:+ "_" +:+ pretty counter +:+ ext)) w).2
  end.
Proof.
  cbn [reporter.handleFileConflict_loop]. unfold mbind, M_bind, liftCall.
  by destruct (os.Stat fs _ w) as [[| |] w1].
Qed.

Lemma handleFileConflict_loop_first fuel (originalPath : string) (n counter : Z) w :
  1 ≤ counter ≤ n → n ≤ max_int →
  (∀ k, counter ≤ k < n → files (candidate filepath originalPath k) ≠ os.NotExist) →
  files (candidate filepath originalPath n) = os.NotExist →
  (Z.to_nat (n - counter) < fuel)%nat →
  ∃ w',
    reporter.handleFileConflict_loop fs filepath fuel (os.Dir filepath originalPath)
      (gostrings.TrimSuffix (os.Base filepath originalPath) (os.Ext filepath originalPath))
      (os.Ext filepath originalPath) counter w
    = Some (candidate filepath originalPath n, w').
Proof.
  revert counter w. induction fuel as [|fuel IH]; intros counter w Hc Hn Htaken Hfree Hfuel;
    [lia|].
  rewrite handleFileConflict_loop_S. fold (candidate filepath originalPath counter).
  rewrite Hfiles.
  destruct (decide (counter = n)) as [->|Hne].
  - rewrite Hfree. eauto.
  - rewrite wrap64_id by (unfold min_int, max_int in *; lia).
    destruct (IH (counter + 1)
                (os.Stat fs (candidate filepath originalPath counter) w).2)
      as [w' Hw']; try lia; try done.
    { intros k Hk. apply Htaken. lia. }
    exists w'. specialize (Htaken counter ltac:(lia)).
    by destruct (files (candidate filepath originalPath counter)).
Qed.

Lemma handleFileConflict_loop_never fuel (originalPath : string) (counter : Z) w :
  (∀ k, files (candidate filepath originalPath k) ≠ os.NotExist) →
  reporter.handleFileConflict_loop fs filepath fuel (os.Dir filepath originalPath)
    (gostrings.TrimSuffix (os.Base filepath originalPath) (os.Ext filepath originalPath))
    (os.Ext filepath originalPath) counter w = None.
Proof.
  intros Htaken. revert counter w. induction fuel as [|fuel IH]; intros counter w; [done|].
  rewrite handleFileConflict_loop_S. fold (candidate filepath originalPath counter).
  rewrite Hfiles. specialize (Htaken counter).
  destruct (files (candidate filepath originalPath counter)); [apply IH|done|apply IH].
Qed.

(** X25. [handleFileConflict] returns the first free name, and has no
    other way out: when the files do not change meanwhile, it returns the
    path with the suffix [_n] for the least [n] from 1 on whose path
    [os.Stat] reports missing, after [n] calls of [os.Stat]; a path whose
    [os.Stat] fails otherwise is passed over like one that exists.  When
    [os.Stat] reports none of the names it tries as missing (they exist, or
    every call fails, as in a directory that cannot be read), it never
    returns, whatever the number of turns it is given. *)
Theorem handleFileConflict_first_free (originalPath : string) :
  (∀ fuel (n : Z) (w : W),
     1 ≤ n ≤ max_int →
     (∀ k, 1 ≤ k < n → files (candidate filepath originalPath k) ≠ os.NotExist) →
     files (candidate filepath originalPath n) = os.NotExist →
     (Z.to_nat n ≤ fuel)%nat →
     ∃ w', reporter.handleFileConflict fs filepath fuel originalPath w
           = Some (candidate filepath originalPath n, w')) ∧
  ((∀ k, files (candidate filepath originalPath k) ≠ os.NotExist) →
   ∀ fuel (w : W), reporter.handleFileConflict fs filepath fuel originalPath w = None).
Proof.
  split.
  - intros fuel n w Hn Htaken Hfree Hfuel. unfold reporter.handleFileConflict.
    apply handleFileConflict_loop_first; try done; lia.
  - intros Htaken fuel w. unfold reporter.handleFileConflict.
    by apply handleFileConflict_loop_never.
Qed.

Lemma handleFileConflict_loop_result fuel dir nameWithoutExt ext counter w newPath w' :
  reporter.handleFileConflict_loop fs filepath fuel dir nameWithoutExt ext counter w
    = Some (newPath, w') →
  files newPath = os.NotExist.
Proof.
  revert counter w. induction fuel as [|fuel IH]; intros counter w; [done|].
  rewrite handleFileConflict_loop_S, Hfiles.
  destruct (files (os.Join filepath dir (nameWithoutExt +:+ "_" +:+ pretty counter +:+ ext)))
    eqn:Hfound; [apply IH| |apply IH].
  by intros [= <- _].
Qed.

(** X26. [GenerateReport] does not write over a file it saw: when the
    files do not change meanwhile and it returns a path, [os.Stat] does not
    report that path as existing, the content written there is the markdown
    of the report, and the report is the one it was given, with the
    timestamp of the clock if it had none. *)
Theorem GenerateReport_keeps_files (Format : MergeRequest → string) fuel
    (report : Report) (outputDir : string) (w : W) path report' w' :
  reporter.GenerateReport fs filepath Format fuel report outputDir w
    = Some ((inr path, report'), w') →
  files path ≠ os.Exists ∧
  report' = (if bool_decide (Timestamp report = "") then
               mkReport (os.Now fs w).1 (TotalRepositories report)
                 (RepositoriesWithConflicts report) (TotalConflictingMRs report)
                 (Repositories report)
             else report) ∧
  ∃ content w1,
    reporter.generateMarkdownContent Format report' = Some content ∧
    os.WriteFile fs path content 420 w1 = (None, w').
Proof.
  unfold reporter.GenerateReport. intros Hrun.
  apply bind_inv in Hrun as (timestamp & w1 & Hnow & Hrun).
  unfold liftCall in Hnow. injection Hnow as Hnow. rewrite Hnow. cbn [fst].
  set (report1 := if bool_decide (Timestamp report = "") then _ else report) in *.
  apply bind_inv in Hrun as (content & w2 & Hcontent & Hrun).
  unfold liftOption in Hcontent.
  destruct (reporter.generateMarkdownContent Format report1) as [content'|] eqn:Hmd; [|done].
  injection Hcontent as -> ->.
  apply bind_inv in Hrun as (found & w3 & Hstat & Hrun).
  unfold liftCall in Hstat. injection Hstat as Hstat.
  apply bind_inv in Hrun as (fullPath & w4 & Hpath & Hrun).
  apply bind_inv in Hrun as (failed & w5 & Hmkdir & Hrun).
  destruct failed as [err|]; [done|].
  apply bind_inv in Hrun as (failed & w6 & Hwrite & Hrun).
  unfold liftCall in Hwrite. injection Hwrite as Hwrite.
  destruct failed as [err|]; [done|]. injection Hrun as -> -> ->.
  split; [|split; [done|]].
  - revert Hpath. case_bool_decide as Hfound.
    + unfold reporter.handleFileConflict. intros Hloop.
      apply handleFileConflict_loop_result in Hloop. congruence.
    + intros [= <- _]. apply (f_equal fst) in Hstat. rewrite Hfiles in Hstat.
      cbn [fst] in Hstat. congruence.
  - exists content, w5. split; [done|].
    rewrite (surjective_pairing (os.WriteFile fs path content 420 w5)), Hwrite. done.
Qed.

End reporter_files.

(** ** [sort.Slice] and the elements it sorts

    [sort.Slice] reaches the elements only through the comparison it is
    given: sorting the images of a list under [f] is sorting the list with
    the comparison of the images, and taking the images afterwards. *)

Section sort_images.
Import sort.
Context {A B : Type} (f : A → B) (less : B → B → bool).
Local Open Scope nat_scope.

Local Abbreviation lessOn := (lessOn f less).
Local Abbreviation images := (fmap (M:=list) f).

Lemma Less_fmap (data : list A) i j :
  Less less (f <$> data) i j = Less lessOn data i j.
Proof.
  unfold Less. rewrite !list_lookup_fmap.
  destruct (data !! i) as [x|]; [|done]. by destruct (data !! j) as [y|].
Qed.

Lemma Swap_fmap (data : list A) i j :
  Swap (f <$> data) i j = images <$> Swap data i j.
Proof.
  unfold Swap. rewrite !list_lookup_fmap.
  destruct (data !! i) as [x|]; [|done]. destruct (data !! j) as [y|]; [|done].
  simpl. by rewrite !list_fmap_insert.
Qed.

Lemma for_up_fmap {S T} (F : S → T) (body : nat → S → option S)
    (bodyT : nat → T → option T) n i s :
  (∀ i s, bodyT i (F s) = F <$> body i s) →
  for_up n i bodyT (F s) = F <$> for_up n i body s.
Proof.
  intros Hbody. revert i s. induction n as [|n IH]; intros i s; [done|].
  simpl. rewrite Hbody. destruct (body i s) as [s'|]; [|done]. simpl. apply IH.
Qed.

Lemma for_down_fmap {S T} (F : S → T) (body : nat → S → option S)
    (bodyT : nat → T → option T) n s :
  (∀ i s, bodyT i (F s) = F <$> body i s) →
  for_down n bodyT (F s) = F <$> for_down n body s.
Proof.
  intros Hbody. revert s. induction n as [|n IH]; intros s; [done|].
  simpl. rewrite Hbody. destruct (body n s) as [s'|]; [|done]. simpl. apply IH.
Qed.

Lemma skip_up_ext (p q : nat → option bool) n i :
  (∀ i, p i = q i) → skip_up n p i = skip_up n q i.
Proof.
  intros Hpq. revert i. induction n as [|n IH]; intros i; [done|].
  simpl. rewrite Hpq. destruct (q i) as [[|]|]; simpl; [apply IH|done|done].
Qed.

Lemma skip_down_ext (p q : nat → option bool) n j :
  (∀ i, p i = q i) → skip_down n p j = skip_down n q j.
Proof.
  intros Hpq. revert j. induction n as [|n IH]; intros j; [done|].
  simpl. rewrite Hpq. destruct (q j) as [[|]|]; simpl; [apply IH|done|done].
Qed.

Lemma insertionSort_shift_fmap (data : list A) a j :
  insertionSort_shift less (f <$> data) a j = images <$> insertionSort_shift lessOn data a j.
Proof.
  revert data. induction j as [|j IH]; intros data; [done|].
  simpl. destruct (decide (a < S j)); [|done].
  rewrite Less_fmap. destruct (Less lessOn data (S j) j) as [[|]|]; simpl; [|done|done].
  rewrite Swap_fmap. destruct (Swap data (S j) j) as [data'|]; simpl; [|done]. apply IH.
Qed.

Lemma insertionSort_func_fmap (data : list A) a b :
  insertionSort_func less (f <$> data) a b = images <$> insertionSort_func lessOn data a b.
Proof.
  unfold insertionSort_func. apply (for_up_fmap images).
  intros i s. apply insertionSort_shift_fmap.
Qed.

Lemma siftDown_func_fmap fuel (data : list A) root hi first :
  siftDown_func less fuel (f <$> data) root hi first
  = images <$> siftDown_func lessOn fuel data root hi first.
Proof.
  revert data root. induction fuel as [|fuel IH]; intros data root; [done|].
  cbn [siftDown_func]. destruct (decide (hi ≤ 2 * root + 1)); [done|].
  rewrite !Less_fmap.
  destruct (decide (2 * root + 1 + 1 < hi)).
  - destruct (Less lessOn data (first + (2 * root + 1)) (first + (2 * root + 1) + 1))
      as [lt|]; [|done]. cbn [mbind option_bind].
    rewrite Less_fmap.
    destruct (Less lessOn data (first + root)
                (first + (if lt then 2 * root + 1 + 1 else 2 * root + 1))) as [[|]|];
      cbn [mbind option_bind negb]; [|done|done].
    rewrite Swap_fmap. destruct (Swap data _ _) as [data'|]; [|done].
    cbn [fmap option_fmap option_map mbind option_bind]. apply IH.
  - cbn [mbind option_bind]. rewrite Less_fmap.
    destruct (Less lessOn data (first + root) (first + (2 * root + 1))) as [[|]|];
      cbn [mbind option_bind negb]; [|done|done].
    rewrite Swap_fmap. destruct (Swap data _ _) as [data'|]; [|done].
    cbn [fmap option_fmap option_map mbind option_bind]. apply IH.
Qed.

Lemma heapSort_func_fmap (data : list A) a b :
  heapSort_func less (f <$> data) a b = images <$> heapSort_func lessOn data a b.
Proof.
  unfold heapSort_func.
  rewrite (for_down_fmap images (λ i data, siftDown_func lessOn (S (b - a)) data i (b - a) a))
    by (intros; apply siftDown_func_fmap).
  destruct (for_down _ _ data) as [data1|]; [|done].
  cbn [fmap option_fmap option_map mbind option_bind].
  apply (for_down_fmap images
           (λ i data, data ← Swap data a (a + i); siftDown_func lessOn (S (b - a)) data 0 i a)).
  intros i s. rewrite Swap_fmap. destruct (Swap s a (a + i)) as [s'|]; [|done].
  cbn [fmap option_fmap option_map mbind option_bind]. apply siftDown_func_fmap.
Qed.

Lemma order2_func_fmap (data : list A) a b swaps :
  order2_func less (f <$> data) a b swaps = order2_func lessOn data a b swaps.
Proof. unfold order2_func. by rewrite Less_fmap. Qed.

Lemma median_func_fmap (data : list A) a b c swaps :
  median_func less (f <$> data) a b c swaps = median_func lessOn data a b c swaps.
Proof.
  unfold median_func. rewrite order2_func_fmap.
  destruct (order2_func lessOn data a b swaps) as [[[a1 b1] s1]|]; [|done].
  cbn [mbind option_bind]. rewrite order2_func_fmap.
  destruct (order2_func lessOn data b1 c s1) as [[[b2 c2] s2]|]; [|done].
  cbn [mbind option_bind]. by rewrite order2_func_fmap.
Qed.

Lemma choosePivot_func_fmap (data : list A) a b :
  choosePivot_func less (f <$> data) a b = choosePivot_func lessOn data a b.
Proof.
  unfold choosePivot_func, medianAdjacent_func.
  destruct (decide (8 ≤ b - a)); [|done].
  destruct (decide (shortestNinther ≤ b - a)).
  - rewrite median_func_fmap.
    destruct (median_func lessOn data _ _ _ _) as [[i1 s1]|]; [|done].
    cbn [mbind option_bind]. rewrite median_func_fmap.
    destruct (median_func lessOn data _ _ _ _) as [[j1 s2]|]; [|done].
    cbn [mbind option_bind]. rewrite median_func_fmap.
    destruct (median_func lessOn data _ _ _ _) as [[k1 s3]|]; [|done].
    cbn [mbind option_bind]. by rewrite median_func_fmap.
  - cbn [mbind option_bind]. by rewrite median_func_fmap.
Qed.

Lemma reverseRange_loop_fmap fuel (data : list A) i j :
  reverseRange_loop fuel (f <$> data) i j = images <$> reverseRange_loop fuel data i j.
Proof.
  revert data i j. induction fuel as [|fuel IH]; intros data i j; [done|].
  cbn [reverseRange_loop]. destruct (decide (i < j)); [|done].
  rewrite Swap_fmap. destruct (Swap data i j) as [data'|]; [|done].
  cbn [fmap option_fmap option_map mbind option_bind]. apply IH.
Qed.

Lemma reverseRange_func_fmap (data : list A) a b :
  reverseRange_func (f <$> data) a b = images <$> reverseRange_func data a b.
Proof. apply reverseRange_loop_fmap. Qed.

Lemma breakPatterns_func_fmap (data : list A) a b :
  breakPatterns_func (f <$> data) a b = images <$> breakPatterns_func data a b.
Proof.
  unfold breakPatterns_func. destruct (decide (8 ≤ b - a)); [|done].
  rewrite (for_up_fmap (λ s : Z * list A, (s.1, images s.2))
             (λ i '(random, data),
                let random := xorshift_Next random in
                let other := Z.to_nat (Z.land random (nextPowerOfTwo (b - a) - 1)) in
                let other := if decide (b - a ≤ other) then other - (b - a) else other in
                data ← Swap data (a + (b - a) / 4 * 2 - 1 + i) (a + other);
                Some (random, data))
             _ 3 0 (Z.of_nat (b - a), data)).
  - by destruct (for_up 3 0 _ (Z.of_nat (b - a), data)) as [[r d]|].
  - intros i [random d]. cbn [fst snd]. rewrite Swap_fmap.
    by destruct (Swap d _ _) as [d'|].
Qed.

Lemma shift_left_fmap (data : list A) j :
  shift_left less (f <$> data) j = images <$> shift_left lessOn data j.
Proof.
  revert data. induction j as [|j IH]; intros data; [done|].
  cbn [shift_left]. rewrite Less_fmap.
  destruct (Less lessOn data (S j) j) as [[|]|]; cbn [mbind option_bind]; [|done|done].
  rewrite Swap_fmap. destruct (Swap data (S j) j) as [data'|]; [|done].
  cbn [fmap option_fmap option_map mbind option_bind]. apply IH.
Qed.

Lemma shift_right_fmap n (data : list A) j :
  shift_right less n (f <$> data) j = images <$> shift_right lessOn n data j.
Proof.
  revert data j. induction n as [|n IH]; intros data j; [done|].
  cbn [shift_right]. rewrite Less_fmap.
  destruct (Less lessOn data j (j - 1)) as [[|]|]; cbn [mbind option_bind]; [|done|done].
  rewrite Swap_fmap. destruct (Swap data j (j - 1)) as [data'|]; [|done].
  cbn [fmap option_fmap option_map mbind option_bind]. apply IH.
Qed.

Lemma partialInsertionSort_loop_fmap steps (data : list A) a b i :
  partialInsertionSort_loop less steps (f <$> data) a b i
  = (λ r : list A * bool, (images r.1, r.2)) <$> partialInsertionSort_loop lessOn steps data a b i.
Proof.
  revert data i. induction steps as [|steps IH]; intros data i; [done|].
  cbn [partialInsertionSort_loop].
  rewrite (skip_up_ext (λ i, negb <$> Less less (f <$> data) i (i - 1))
             (λ i, negb <$> Less lessOn data i (i - 1))) by (intros; by rewrite Less_fmap).
  destruct (skip_up _ _ i) as [i1|]; [|done]. cbn [mbind option_bind].
  destruct (decide (i1 = b)); [done|].
  destruct (decide (b - a < shortestShifting)); [done|].
  rewrite Swap_fmap. destruct (Swap data i1 (i1 - 1)) as [d1|]; [|done].
  cbn [fmap option_fmap option_map mbind option_bind].
  assert ((if decide (2 ≤ i1 - a) then shift_left less (f <$> d1) (i1 - 1)
           else Some (f <$> d1))
          = images <$> (if decide (2 ≤ i1 - a) then shift_left lessOn d1 (i1 - 1)
                        else Some d1)) as ->.
  { destruct (decide (2 ≤ i1 - a)); [apply shift_left_fmap|done]. }
  destruct (if decide (2 ≤ i1 - a) then shift_left lessOn d1 (i1 - 1) else Some d1)
    as [d2|]; [|done].
  cbn [fmap option_fmap option_map mbind option_bind].
  assert ((if decide (2 ≤ b - i1) then shift_right less (b - (i1 + 1)) (f <$> d2) (i1 + 1)
           else Some (f <$> d2))
          = images <$> (if decide (2 ≤ b - i1) then shift_right lessOn (b - (i1 + 1)) d2 (i1 + 1)
                        else Some d2)) as ->.
  { destruct (decide (2 ≤ b - i1)); [apply shift_right_fmap|done]. }
  destruct (if decide (2 ≤ b - i1) then shift_right lessOn (b - (i1 + 1)) d2 (i1 + 1)
            else Some d2) as [d3|]; [|done].
  cbn [fmap option_fmap option_map mbind option_bind]. apply IH.
Qed.

Lemma partialInsertionSort_func_fmap (data : list A) a b :
  partialInsertionSort_func less (f <$> data) a b
  = (λ r : list A * bool, (images r.1, r.2)) <$> partialInsertionSort_func lessOn data a b.
Proof. apply partialInsertionSort_loop_fmap. Qed.

Lemma partitionEqual_loop_fmap fuel (data : list A) a i j :
  partitionEqual_loop less fuel (f <$> data) a i j
  = (λ r : list A * nat, (images r.1, r.2)) <$> partitionEqual_loop lessOn fuel data a i j.
Proof.
  revert data i j. induction fuel as [|fuel IH]; intros data i j; [done|].
  cbn [partitionEqual_loop].
  rewrite (skip_up_ext (λ i, negb <$> Less less (f <$> data) a i)
             (λ i, negb <$> Less lessOn data a i)) by (intros; by rewrite Less_fmap).
  destruct (skip_up _ _ i) as [i1|]; [|done]. cbn [mbind option_bind].
  rewrite (skip_down_ext (λ j, Less less (f <$> data) a j)
             (λ j, Less lessOn data a j)) by (intros; by rewrite Less_fmap).
  destruct (skip_down _ _ j) as [j1|]; [|done]. cbn [mbind option_bind].
  destruct (decide (j1 < i1)); [done|].
  rewrite Swap_fmap. destruct (Swap data i1 j1) as [d1|]; [|done].
  cbn [fmap option_fmap option_map mbind option_bind]. apply IH.
Qed.

Lemma partitionEqual_func_fmap (data : list A) a b pivot :
  partitionEqual_func less (f <$> data) a b pivot
  = (λ r : list A * nat, (images r.1, r.2)) <$> partitionEqual_func lessOn data a b pivot.
Proof.
  unfold partitionEqual_func. rewrite Swap_fmap.
  destruct (Swap data a pivot) as [d1|]; [|done].
  cbn [fmap option_fmap option_map mbind option_bind]. apply partitionEqual_loop_fmap.
Qed.

Lemma partition_loop_fmap fuel (data : list A) a i j :
  partition_loop less fuel (f <$> data) a i j
  = (λ r : list A * nat, (images r.1, r.2)) <$> partition_loop lessOn fuel data a i j.
Proof.
  revert data i j. induction fuel as [|fuel IH]; intros data i j; [done|].
  cbn [partition_loop].
  rewrite (skip_up_ext (λ i, Less less (f <$> data) i a)
             (λ i, Less lessOn data i a)) by (intros; by rewrite Less_fmap).
  destruct (skip_up _ _ i) as [i1|]; [|done]. cbn [mbind option_bind].
  rewrite (skip_down_ext (λ j, negb <$> Less less (f <$> data) j a)
             (λ j, negb <$> Less lessOn data j a)) by (intros; by rewrite Less_fmap).
  destruct (skip_down _ _ j) as [j1|]; [|done]. cbn [mbind option_bind].
  destruct (decide (j1 < i1)); [done|].
  rewrite Swap_fmap. destruct (Swap data i1 j1) as [d1|]; [|done].
  cbn [fmap option_fmap option_map mbind option_bind]. apply IH.
Qed.

Lemma partition_func_fmap (data : list A) a b pivot :
  partition_func less (f <$> data) a b pivot
  = (λ r : list A * nat * bool, (images r.1.1, r.1.2, r.2))
      <$> partition_func lessOn data a b pivot.
Proof.
  unfold partition_func. rewrite Swap_fmap.
  destruct (Swap data a pivot) as [d1|]; [|done].
  cbn [fmap option_fmap option_map mbind option_bind].
  rewrite (skip_up_ext (λ i, Less less (f <$> d1) i a)
             (λ i, Less lessOn d1 i a)) by (intros; by rewrite Less_fmap).
  destruct (skip_up _ _ (a + 1)) as [i1|]; [|done]. cbn [mbind option_bind].
  rewrite (skip_down_ext (λ j, negb <$> Less less (f <$> d1) j a)
             (λ j, negb <$> Less lessOn d1 j a)) by (intros; by rewrite Less_fmap).
  destruct (skip_down _ _ (b - 1)) as [j1|]; [|done]. cbn [mbind option_bind].
  destruct (decide (j1 < i1)).
  - rewrite Swap_fmap. by destruct (Swap d1 j1 a) as [d2|].
  - rewrite Swap_fmap. destruct (Swap d1 i1 j1) as [d2|]; [|done].
    cbn [fmap option_fmap option_map mbind option_bind].
    rewrite partition_loop_fmap.
    destruct (partition_loop lessOn _ d2 a _ _) as [[d3 j2]|]; [|done].
    cbn [fmap option_fmap option_map mbind option_bind fst snd].
    rewrite Swap_fmap. by destruct (Swap d3 j2 a) as [d4|].
Qed.

Lemma pdqsort_func_fmap fuel (data : list A) a b limit wasBalanced wasPartitioned :
  pdqsort_func less fuel (f <$> data) a b limit wasBalanced wasPartitioned
  = images <$> pdqsort_func lessOn fuel data a b limit wasBalanced wasPartitioned.
Proof.
  revert data a b limit wasBalanced wasPartitioned.
  induction fuel as [|fuel IH]; intros data a b limit wasBalanced wasPartitioned; [done|].
  cbn [pdqsort_func].
  destruct (decide (b - a ≤ maxInsertion)); [apply insertionSort_func_fmap|].
  destruct (decide (limit = 0)); [apply heapSort_func_fmap|].
  assert ((if negb wasBalanced
           then data0 ← breakPatterns_func (f <$> data) a b; Some (data0, limit - 1)
           else Some (f <$> data, limit))
          = (λ r : list A * nat, (images r.1, r.2))
              <$> (if negb wasBalanced
                   then data0 ← breakPatterns_func data a b; Some (data0, limit - 1)
                   else Some (data, limit))) as ->.
  { destruct (negb wasBalanced); [|done]. rewrite breakPatterns_func_fmap.
    by destruct (breakPatterns_func data a b). }
  destruct (if negb wasBalanced then _ else _) as [[d1 limit1]|]; [|done].
  cbn [fmap option_fmap option_map mbind option_bind fst snd].
  rewrite choosePivot_func_fmap.
  destruct (choosePivot_func lessOn d1 a b) as [[pivot hint]|]; [|done].
  cbn [mbind option_bind].
  assert ((if decide (hint = decreasingHint)
           then data0 ← reverseRange_func (f <$> d1) a b;
                Some (data0, b - 1 - (pivot - a), increasingHint)
           else Some (f <$> d1, pivot, hint))
          = (λ r : list A * nat * sortedHint, (images r.1.1, r.1.2, r.2))
              <$> (if decide (hint = decreasingHint)
                   then data0 ← reverseRange_func d1 a b;
                        Some (data0, b - 1 - (pivot - a), increasingHint)
                   else Some (d1, pivot, hint))) as ->.
  { destruct (decide (hint = decreasingHint)); [|done]. rewrite reverseRange_func_fmap.
    by destruct (reverseRange_func d1 a b). }
  destruct (if decide (hint = decreasingHint) then _ else _) as [[[d2 pivot2] hint2]|];
    [|done].
  cbn [fmap option_fmap option_map mbind option_bind fst snd].
  assert ((if wasBalanced && wasPartitioned && bool_decide (hint2 = increasingHint)
           then partialInsertionSort_func less (f <$> d2) a b
           else Some (f <$> d2, false))
          = (λ r : list A * bool, (images r.1, r.2))
              <$> (if wasBalanced && wasPartitioned && bool_decide (hint2 = increasingHint)
                   then partialInsertionSort_func lessOn d2 a b
                   else Some (d2, false))) as ->.
  { destruct (wasBalanced && wasPartitioned && bool_decide (hint2 = increasingHint));
      [apply partialInsertionSort_func_fmap|done]. }
  destruct (if wasBalanced && wasPartitioned && bool_decide (hint2 = increasingHint)
            then _ else _) as [[d3 [|]]|]; [done| |done].
  cbn [fmap option_fmap option_map mbind option_bind fst snd].
  assert ((if decide (0 < a) then negb <$> Less less (f <$> d3) (a - 1) pivot2 else Some false)
          = (if decide (0 < a) then negb <$> Less lessOn d3 (a - 1) pivot2 else Some false))
    as ->.
  { destruct (decide (0 < a)); [|done]. by rewrite Less_fmap. }
  destruct (if decide (0 < a) then _ else _) as [[|]|]; [| |done];
    cbn [mbind option_bind].
  - rewrite partitionEqual_func_fmap.
    destruct (partitionEqual_func lessOn d3 a b pivot2) as [[d4 mid]|]; [|done].
    cbn [fmap option_fmap option_map mbind option_bind fst snd]. apply IH.
  - rewrite partition_func_fmap.
    destruct (partition_func lessOn d3 a b pivot2) as [[[d4 mid] alreadyPartitioned]|];
      [|done].
    cbn [fmap option_fmap option_map mbind option_bind fst snd].
    destruct (decide (mid - a < b - mid)).
    + rewrite IH. destruct (pdqsort_func lessOn fuel d4 a mid limit1 true true) as [d5|];
        [|done].
      cbn [fmap option_fmap option_map mbind option_bind]. apply IH.
    + rewrite IH.
      destruct (pdqsort_func lessOn fuel d4 (mid + 1) b limit1 true true) as [d5|]; [|done].
      cbn [fmap option_fmap option_map mbind option_bind]. apply IH.
Qed.

(** Sorting the images is sorting with the comparison of the images. *)
Lemma Slice_fmap (x : list A) :
  Slice less (f <$> x) = images <$> Slice lessOn x.
Proof. unfold Slice. rewrite length_fmap. apply pdqsort_func_fmap. Qed.

End sort_images.

(** ** [sort.Slice] sorts by any strict weak order *)

Section sort_orders.
Context {B : Type} (less : B → B → bool) (Hless : strictWeakOrder less).

Lemma filter_length_mono (P Q : B → Prop) `{∀ x, Decision (P x)} `{∀ x, Decision (Q x)}
    (l : list B) :
  (∀ x, x ∈ l → P x → Q x) → (length (filter P l) ≤ length (filter Q l))%nat.
Proof.
  induction l as [|e l IH]; intros HPQ; [done|].
  rewrite !filter_cons.
  assert (length (filter P l) ≤ length (filter Q l))%nat as Hle.
  { apply IH. intros x Hx. apply HPQ. by right. }
  destruct (decide (P e)) as [HP|HP]; destruct (decide (Q e)) as [HQ|HQ]; simpl; try lia.
  exfalso. apply HQ, HPQ; [left|done].
Qed.

Lemma filter_length_strict (P Q : B → Prop) `{∀ x, Decision (P x)} `{∀ x, Decision (Q x)}
    (l : list B) (e : B) :
  (∀ x, x ∈ l → P x → Q x) → e ∈ l → Q e → ¬ P e →
  (length (filter P l) < length (filter Q l))%nat.
Proof.
  induction l as [|e' l IH]; intros HPQ He HQ HP; [by apply elem_of_nil in He|].
  rewrite !filter_cons.
  assert (length (filter P l) ≤ length (filter Q l))%nat as Hle.
  { apply filter_length_mono. intros x Hx. apply HPQ. by right. }
  apply elem_of_cons in He as [<-|He].
  - rewrite decide_False, decide_True by done. simpl. lia.
  - assert (length (filter P l) < length (filter Q l))%nat as Hlt.
    { apply IH; try done. intros x Hx. apply HPQ. by right. }
    destruct (decide (P e')) as [HP'|HP']; destruct (decide (Q e')) as [HQ'|HQ']; simpl;
      try lia.
    exfalso. apply HQ', HPQ; [left|done].
Qed.

Lemma countBefore_rank (l : list B) (x y : B) :
  x ∈ l → less x y = bool_decide (countBefore less l x < countBefore less l y).
Proof.
  destruct Hless as (Hirr & Htrans & Hneg). intros Hx. unfold countBefore.
  destruct (less x y) eqn:Hxy; symmetry.
  - apply bool_decide_eq_true. apply inj_lt.
    apply (filter_length_strict _ _ l x); try done.
    + intros e _ He. by apply (Htrans e x y).
    + by rewrite Hirr.
  - apply bool_decide_eq_false. apply Zle_not_lt, inj_le.
    apply filter_length_mono. intros e _ He. by apply (Hneg x y e).
Qed.

Lemma seq_images (d : B) (l : list B) :
  (λ i, default d (l !! i)) <$> seq 0 (length l) = l.
Proof.
  apply list_eq. intros i. rewrite list_lookup_fmap.
  destruct (decide (i < length l)%nat) as [Hi|Hi].
  - rewrite lookup_seq_lt by done. simpl.
    destruct (lookup_lt_is_Some_2 l i Hi) as [x Hx]. by rewrite Hx.
  - rewrite lookup_seq_ge by lia. simpl. symmetry. apply lookup_ge_None. lia.
Qed.

Lemma Slice_by_order (l : list B) :
  ∃ out, sort.Slice less l = Some out ∧ out ≡ₚ l ∧ sortedBy less out.
Proof.
  destruct l as [|d l0]; [exists []; split; [done|]; split; [done|];
                          intros i j x y _ Hx; by rewrite lookup_nil in Hx|].
  set (l := d :: l0).
  set (f := λ i : nat, default d (l !! i)).
  assert (∀ i, f i ∈ l) as Hf.
  { intros i. unfold f. destruct (l !! i) as [x|] eqn:Hx; simpl.
    - by eapply list_elem_of_lookup_2.
    - left. }
  assert (∀ i j, lessOn f less i j
                 = bool_decide (countBefore less l (f i) < countBefore less l (f j)))
    as Hrank.
  { intros i j. unfold lessOn. by apply countBefore_rank. }
  destruct (ok_inv _ _ (Slice_ok (λ i, countBefore less l (f i)) (lessOn f less) Hrank
                          (seq 0 (length l))))
    as (out' & Hout' & Hperm & Hsorted).
  exists (f <$> out'). split; [|split].
  - rewrite <-(seq_images d l) at 1. fold f. rewrite Slice_fmap, Hout'. done.
  - rewrite Hperm. apply reflexive_eq, seq_images.
  - intros i j x y Hij Hx Hy. rewrite list_lookup_fmap in Hx, Hy.
    destruct (out' !! i) as [a|] eqn:Ha; [|done].
    destruct (out' !! j) as [b|] eqn:Hb; [|done].
    simpl in Hx, Hy. injection Hx as <-. injection Hy as <-.
    specialize (Hsorted i j Hij (lookup_lt_Some _ _ _ Hb)).
    unfold rk in Hsorted. rewrite Ha, Hb in Hsorted. simpl in Hsorted.
    change (less (f b) (f a)) with (lessOn f less b a). rewrite Hrank.
    apply bool_decide_eq_false. lia.
Qed.

End sort_orders.

(** ** The order of Go strings *)

Section string_order.

Lemma ascii_compare_refl (a : Ascii.ascii) : Ascii.compare a a = Eq.
Proof. unfold Ascii.compare. apply N.compare_refl. Qed.

Lemma string_compare_refl (s : string) : String.compare s s = Eq.
Proof. induction s as [|a s IH]; simpl; [done|]. by rewrite ascii_compare_refl. Qed.

Lemma string_compare_trans (s1 s2 s3 : string) :
  String.compare s1 s2 = Lt → String.compare s2 s3 = Lt → String.compare s1 s3 = Lt.
Proof.
  revert s2 s3. induction s1 as [|a s1 IH]; intros [|b s2] [|c s3]; simpl; try done.
  destruct (Ascii.compare a b) eqn:Hab; try done;
    destruct (Ascii.compare b c) eqn:Hbc; try done.
  - apply Ascii.compare_eq_iff in Hab, Hbc. subst. rewrite ascii_compare_refl. apply IH.
  - apply Ascii.compare_eq_iff in Hab. subst. by rewrite Hbc.
  - apply Ascii.compare_eq_iff in Hbc. subst. by rewrite Hab.
  - unfold Ascii.compare in *. rewrite N.compare_lt_iff in Hab, Hbc.
    assert ((Ascii.N_of_ascii a ?= Ascii.N_of_ascii c)%N = Lt) as ->; [|done].
    apply N.compare_lt_iff. lia.
Qed.

Lemma string_ltb_order : strictWeakOrder String.ltb.
Proof.
  unfold strictWeakOrder, String.ltb. split_and!.
  - intros x. by rewrite string_compare_refl.
  - intros x y z Hxy Hyz.
    destruct (String.compare x y) eqn:H1; try done.
    destruct (String.compare y z) eqn:H2; try done.
    by rewrite (string_compare_trans x y z).
  - intros x y z Hxy Hzy.
    destruct (String.compare z y) eqn:H1; try done.
    destruct (String.compare x y) eqn:H2; try done.
    + apply String.compare_eq_iff in H2. subst. by rewrite H1.
    + rewrite String.compare_antisym in H2.
      destruct (String.compare y x) eqn:H3; try done.
      by rewrite (string_compare_trans z y x).
Qed.

Lemma strictWeakOrder_on {A B} (key : A → B) (less : B → B → bool) :
  strictWeakOrder less → strictWeakOrder (λ x y, less (key x) (key y)).
Proof.
  intros (Hirr & Htrans & Hneg). split_and!.
  - intros x. apply Hirr.
  - intros x y z. apply Htrans.
  - intros x y z. apply Hneg.
Qed.

Lemma nameBefore_order : strictWeakOrder reporter.nameBefore.
Proof.
  apply (strictWeakOrder_on (λ e, repo_Name (rr_Repository e)) String.ltb), string_ltb_order.
Qed.

End string_order.

(** ** The reporter: the markdown *)

Section reporter_content.
Import reporter.
Context (Format : MergeRequest → string).

Lemma foldl_lines {X} (line : X → string) (init : string) (xs : list X) :
  foldl (λ section x, section +:+ line x) init xs = init +:+ concatStrings (line <$> xs).
Proof.
  revert init. induction xs as [|x xs IH]; intros init; simpl.
  - by rewrite string_app_nil_r.
  - rewrite IH. apply string_app_assoc.
Qed.

Lemma foldl_sections (es : list RepositoryReport) (sections : list string) (init : string) :
  Forall2 (λ e s, generateRepositorySection Format e = Some s) es sections →
  foldl (λ content repoReport,
           content ← content;
           section ← generateRepositorySection Format repoReport;
           Some (content +:+ section)) (Some init) es
  = Some (init +:+ concatStrings sections).
Proof.
  intros Hsections. revert init.
  induction Hsections as [|e s es sections He _ IH]; intros init; simpl.
  - by rewrite string_app_nil_r.
  - rewrite He. simpl. rewrite IH. by rewrite string_app_assoc.
Qed.

Lemma occursIn_app_l (x s t : string) : occursIn x s → occursIn x (s +:+ t).
Proof.
  intros (b & a & ->). exists b, (a +:+ t). by rewrite !string_app_assoc.
Qed.

Lemma occursIn_app_r (x s t : string) : occursIn x t → occursIn x (s +:+ t).
Proof.
  intros (b & a & ->). exists (s +:+ b), a. by rewrite !string_app_assoc.
Qed.

Lemma occursIn_here (x t : string) : occursIn x (x +:+ t).
Proof. by exists "", t. Qed.

Lemma occursIn_concat (x s : string) (l : list string) :
  s ∈ l → occursIn x s → occursIn x (concatStrings l).
Proof.
  intros Hs Hx. induction l as [|s' l IH]; [by apply elem_of_nil in Hs|].
  cbn [concatStrings foldr]. apply elem_of_cons in Hs as [<-|Hs].
  - by apply occursIn_app_l.
  - apply occursIn_app_r. by apply IH.
Qed.

Lemma generateRepositorySection_spec (e : RepositoryReport) :
  ∃ before sorted,
    sorted ≡ₚ rr_ConflictingMRs e ∧ newestFirst sorted ∧
    generateRepositorySection Format e =
      Some (("### " +:+ ("[" +:+ repo_Name (rr_Repository e) +:+ "]("
                          +:+ repo_WebURL (rr_Repository e) +:+ ")") +:+ before)
            +:+ concatStrings (mergeRequestLine Format <$> sorted) +:+ newline) ∧
    occursIn "**Status**:" before.
Proof.
  unfold generateRepositorySection.
  set (icon := if bool_decide (rr_Status e = StatusConflicts) then " ❌" else "").
  set (errorLine := if bool_decide (rr_ErrorMessage e ≠ "")
                    then "**Error**: " +:+ rr_ErrorMessage e +:+ newline else "").
  set (marker := if bool_decide (0 < len (rr_ConflictingMRs e))
                 then newline +:+ "#### Conflicting Merge Requests" +:+ newline else "").
  destruct (Slice_createdAfter (rr_ConflictingMRs e))
    as (sorted & Hsorted & Hperm & Hnewest & _).
  exists (icon +:+ newline +:+ "**Status**:" +:+ " " +:+ status.String (rr_Status e)
          +:+ newline +:+ errorLine +:+ marker), sorted.
  split; [done|]. split; [done|]. split.
  - unfold errorLine, marker.
    destruct (bool_decide (rr_ErrorMessage e ≠ ""));
      case_bool_decide as Hlen.
    + rewrite Hsorted. cbn [mbind option_bind]. rewrite foldl_lines.
      rewrite !string_app_assoc. reflexivity.
    + assert (sorted = []) as ->.
      { apply Permutation_nil_r. rewrite Hperm.
        destruct (rr_ConflictingMRs e); [done|]. unfold len in Hlen. simpl in Hlen. lia. }
      cbn [mbind option_bind fmap list_fmap concatStrings foldr].
      rewrite ?string_app_nil_r, ?string_app_nil_l, !string_app_assoc,
        ?string_app_nil_l. reflexivity.
    + rewrite Hsorted. cbn [mbind option_bind]. rewrite foldl_lines.
      rewrite ?string_app_nil_l, !string_app_assoc, ?string_app_nil_l. reflexivity.
    + assert (sorted = []) as ->.
      { apply Permutation_nil_r. rewrite Hperm.
        destruct (rr_ConflictingMRs e); [done|]. unfold len in Hlen. simpl in Hlen. lia. }
      cbn [mbind option_bind fmap list_fmap concatStrings foldr].
      rewrite ?string_app_nil_r, ?string_app_nil_l, !string_app_assoc,
        ?string_app_nil_l. reflexivity.
  - do 2 apply occursIn_app_r. apply occursIn_here.
Qed.

(** X27. The section of an entry lists its merge requests newest first:
    [generateRepositorySection] returns for every entry, and its result
    ends with one line per merge request of the entry, in an order in which
    the creation instants never increase, whatever their order in the
    entry, followed by an empty line. *)
Theorem generateRepositorySection_newest_first (e : RepositoryReport) :
  ∃ before sorted,
    sorted ≡ₚ rr_ConflictingMRs e ∧ newestFirst sorted ∧
    generateRepositorySection Format e =
      Some (before +:+ concatStrings (mergeRequestLine Format <$> sorted) +:+ newline).
Proof.
  destruct (generateRepositorySection_spec e) as (before & sorted & Hperm & Hnewest & Hs & _).
  by exists ("### " +:+ ("[" +:+ repo_Name (rr_Repository e) +:+ "]("
                        +:+ repo_WebURL (rr_Repository e) +:+ ")") +:+ before), sorted.
Qed.

Lemma generateRepositorySections (es : list RepositoryReport) :
  ∃ sections, Forall2 (λ e s, generateRepositorySection Format e = Some s) es sections.
Proof.
  induction es as [|e es [sections IH]]; [by exists []|].
  destruct (generateRepositorySection_spec e) as (before & sorted & _ & _ & Hs & _).
  eexists (_ :: sections). constructor; [exact Hs|exact IH].
Qed.

Lemma generateMarkdownContent_spec (report : Report) :
  ∃ header sorted sections,
    generateMarkdownContent Format (withoutEntries report) = Some header ∧
    sorted ≡ₚ Repositories report ∧ sortedBy nameBefore sorted ∧
    Forall2 (λ e s, generateRepositorySection Format e = Some s) sorted sections ∧
    generateMarkdownContent Format report = Some (header +:+ concatStrings sections) ∧
    occursIn "# MR Conflict Report -" header ∧ occursIn "## Summary" header ∧
    occursIn "## Repository Details" header.
Proof.
  destruct (Slice_by_order nameBefore nameBefore_order (Repositories report))
    as (sorted & Hsorted & Hperm & Horder).
  destruct (generateRepositorySections sorted) as [sections Hsections].
  unfold generateMarkdownContent. cbn [withoutEntries Repositories Timestamp
    TotalRepositories RepositoriesWithConflicts TotalConflictingMRs].
  rewrite Hsorted. cbn [mbind option_bind].
  eexists _, sorted, sections. split; [reflexivity|].
  split; [done|]. split; [done|]. split; [done|].
  split; [by apply foldl_sections|].
  split_and!.
  - apply occursIn_app_l. change "# MR Conflict Report - " with
      ("# MR Conflict Report -" +:+ " "). rewrite !string_app_assoc. apply occursIn_here.
  - apply occursIn_app_l, occursIn_app_l, occursIn_app_l, occursIn_app_l, occursIn_app_r.
    apply occursIn_here.
  - apply occursIn_app_r, occursIn_here.
Qed.

(** X28. The report is sorted by repository name: for every report
    [generateMarkdownContent] returns the header, which is what it returns
    for the report without entries, followed by one section per entry, the
    entries taken in an order in which the names of the repositories never
    decrease (in the byte order of Go strings), whatever the order in which
    the repositories were scanned. *)
Theorem generateMarkdownContent_sorted (report : Report) :
  ∃ header sorted sections,
    generateMarkdownContent Format (withoutEntries report) = Some header ∧
    sorted ≡ₚ Repositories report ∧ sortedBy nameBefore sorted ∧
    Forall2 (λ e s, generateRepositorySection Format e = Some s) sorted sections ∧
    generateMarkdownContent Format report = Some (header +:+ concatStrings sections).
Proof.
  destruct (generateMarkdownContent_spec report)
    as (header & sorted & sections & Hheader & Hperm & Horder & Hsections & Hcontent & _).
  by exists header, sorted, sections.
Qed.

Lemma mergeRequestLine_occurs (mr : MergeRequest) :
  occursIn (mr_Title mr) (mergeRequestLine Format mr) ∧
  occursIn (au_Name (mr_Author mr)) (mergeRequestLine Format mr) ∧
  occursIn ("[" +:+ mr_Title mr +:+ "](" +:+ mr_WebURL mr +:+ ")")
    (mergeRequestLine Format mr).
Proof.
  unfold mergeRequestLine. split_and!.
  - apply occursIn_app_r, occursIn_here.
  - do 5 apply occursIn_app_r. apply occursIn_here.
  - assert ("- ❌ [" +:+ mr_Title mr +:+ "](" +:+ mr_WebURL mr +:+ ") - Author: "
            +:+ au_Name (mr_Author mr) +:+ " - Created: " +:+ Format mr +:+ newline
            = "- ❌ " +:+ ("[" +:+ mr_Title mr +:+ "](" +:+ mr_WebURL mr +:+ ")")
              +:+ (" - Author: " +:+ au_Name (mr_Author mr) +:+ " - Created: "
                   +:+ Format mr +:+ newline)) as ->.
    { rewrite !string_app_assoc. reflexivity. }
    apply occursIn_app_r, occursIn_here.
Qed.

Lemma section_occurs (e : RepositoryReport) (section : string) :
  generateRepositorySection Format e = Some section →
  occursIn "**Status**:" section ∧
  occursIn ("[" +:+ repo_Name (rr_Repository e) +:+ "](" +:+ repo_WebURL (rr_Repository e)
            +:+ ")") section ∧
  ∀ mr, mr ∈ rr_ConflictingMRs e →
    occursIn (mr_Title mr) section ∧ occursIn (au_Name (mr_Author mr)) section ∧
    occursIn ("[" +:+ mr_Title mr +:+ "](" +:+ mr_WebURL mr +:+ ")") section.
Proof.
  intros Hsection.
  destruct (generateRepositorySection_spec e)
    as (before & sorted & Hperm & _ & Hs & Hstatus).
  rewrite Hs in Hsection. injection Hsection as <-. split_and!.
  - apply occursIn_app_l. by do 2 apply occursIn_app_r.
  - apply occursIn_app_l, occursIn_app_r, occursIn_here.
  - intros mr Hmr. rewrite <-Hperm in Hmr.
    assert (mergeRequestLine Format mr ∈ mergeRequestLine Format <$> sorted) as Hline
      by (by apply list_elem_of_fmap_2).
    destruct (mergeRequestLine_occurs mr) as (Htitle & Hauthor & Hlink).
    split_and!; apply occursIn_app_r, occursIn_app_l;
      by apply (occursIn_concat _ _ _ Hline).
Qed.

(** X29. The structure check of the tests holds of every report: for a
    report with at least one entry, [ValidateReportStructure] accepts the
    markdown [generateMarkdownContent] returns, against the repositories
    and all the merge requests of the entries: the four headings are
    there, and so are the link of every repository and the title, the
    author and the link of every merge request. *)
Theorem ValidateReportStructure_accepts (report : Report) (content : string) :
  Repositories report ≠ [] →
  generateMarkdownContent Format report = Some content →
  testing.ValidateReportStructure content (rr_Repository <$> Repositories report)
    (concat (rr_ConflictingMRs <$> Repositories report)) = true.
Proof.
  intros Hne Hreport.
  destruct (generateMarkdownContent_spec report)
    as (header & sorted & sections & _ & Hperm & _ & Hsections & Hcontent & H1 & H2 & H3).
  rewrite Hcontent in Hreport. injection Hreport as <-.
  assert (∀ e, e ∈ Repositories report →
            ∃ section, section ∈ sections ∧ generateRepositorySection Format e = Some section)
    as Hentry.
  { intros e He. rewrite <-Hperm in He. apply list_elem_of_lookup in He as [i He].
    destruct (Forall2_lookup_l _ _ _ _ _ Hsections He) as (section & Hsection & Hgen).
    exists section. split; [by eapply list_elem_of_lookup_2|done]. }
  assert (∀ x section, section ∈ sections → occursIn x section →
            testing.containsString (header +:+ concatStrings sections) x = true) as Hin.
  { intros x section Hsection Hx. apply containsString_complete, occursIn_app_r.
    by apply (occursIn_concat _ section). }
  unfold testing.ValidateReportStructure.
  assert (existsb (λ element,
                     negb (testing.containsString (header +:+ concatStrings sections) element))
            ["# MR Conflict Report -"; "## Summary"; "## Repository Details"; "**Status**:"]
          = false) as ->.
  { cbn [existsb].
    rewrite !(containsString_complete (header +:+ concatStrings sections))
      by (by apply occursIn_app_l).
    destruct (Repositories report) as [|e es] eqn:Hes; [done|].
    destruct (Hentry e ltac:(left)) as (section & Hsection & Hgen).
    destruct (section_occurs e section Hgen) as (Hstatus & _).
    by rewrite (Hin _ section Hsection Hstatus). }
  assert (existsb (λ repo,
                     negb (testing.containsString (header +:+ concatStrings sections)
                             ("[" +:+ repo_Name repo +:+ "](" +:+ repo_WebURL repo +:+ ")")))
            (rr_Repository <$> Repositories report) = false) as ->.
  { apply not_true_is_false. intros (repo & Hrepo & Hmissing)%existsb_exists.
    apply list_elem_of_In, list_elem_of_fmap in Hrepo as (e & -> & He).
    destruct (Hentry e He) as (section & Hsection & Hgen).
    destruct (section_occurs e section Hgen) as (_ & Hlink & _).
    by rewrite (Hin _ section Hsection Hlink) in Hmissing. }
  assert (existsb (λ mr,
                     negb (testing.containsString (header +:+ concatStrings sections)
                             (mr_Title mr))
                     || negb (testing.containsString (header +:+ concatStrings sections)
                                (au_Name (mr_Author mr)))
                     || negb (testing.containsString (header +:+ concatStrings sections)
                                ("[" +:+ mr_Title mr +:+ "](" +:+ mr_WebURL mr +:+ ")")))
            (concat (rr_ConflictingMRs <$> Repositories report)) = false) as ->; [|done].
  apply not_true_is_false. intros (mr & Hmr & Hmissing)%existsb_exists.
  apply in_concat in Hmr as (mrs & Hmrs & Hmr).
  apply list_elem_of_In in Hmr.
  apply list_elem_of_In, list_elem_of_fmap in Hmrs as (e & -> & He).
  destruct (Hentry e He) as (section & Hsection & Hgen).
  destruct (section_occurs e section Hgen) as (_ & _ & Hlines).
  destruct (Hlines mr Hmr) as (Htitle & Hauthor & Hlink).
  by rewrite (Hin _ section Hsection Htitle), (Hin _ section Hsection Hauthor),
    (Hin _ section Hsection Hlink) in Hmissing.
Qed.

End reporter_content.

(** ** The further theorems at work on the sample server *)

Section samples_more.
Import scanner analyzer.

Lemma buildReport_summary_witness :
  GetSummaryStats
    (main.buildReport "2024-01-01T00-00-00" [conflictsRepository 2; sampleRepository 1 10]
       {[2 := sampleMRs]}) = (2, 1, 2).
Proof.
  rewrite buildReport_summary; [by vm_compute|by vm_compute|by vm_compute].
Defined.

Lemma AnalyzeMRs_same_repositories_witness :
  ∃ out w',
    AnalyzeMRs 1 (Some sampleClient) sampleRepositories 0%nat = Some (inr out, w') ∧
    repo_ID <$> out = repo_ID <$> sampleRepositories.
Proof.
  pose proof (AnalyzeMRs_same_repositories 1 sampleClient sampleRepositories 0%nat) as Hsame.
  eexists _, _. split; [by vm_compute|].
  edestruct Hsame as [_ Hids]; [by vm_compute|exact Hids].
Defined.

Lemma GetConflictingMRs_values_witness :
  ∃ m w',
    GetConflictingMRs 1 (Some sampleClient) [conflictsRepository 2; conflictsRepository 3]
      0%nat = Some ((m, None), w') ∧
    ∀ k v, m !! k = Some v → conflictList v.
Proof.
  pose proof (GetConflictingMRs_values 1 (Some sampleClient)
                [conflictsRepository 2; conflictsRepository 3] 0%nat) as Hvalues.
  eexists _, _. split; [by vm_compute|].
  intros k v Hv. edestruct Hvalues as [Hlist _]; [by vm_compute|exact Hv|exact Hlist].
Defined.

Lemma buildReport_of_conflicts_witness :
  ∃ m w',
    GetConflictingMRs 1 (Some sampleClient) [conflictsRepository 2; conflictsRepository 3]
      0%nat = Some ((m, None), w') ∧
    TotalConflictingMRs
      (main.buildReport "2024-01-01T00-00-00"
         [conflictsRepository 2; conflictsRepository 3] m) = 2.
Proof.
  pose proof (buildReport_of_conflicts 1 (Some sampleClient)
                [conflictsRepository 2; conflictsRepository 3] 0%nat) as Hreport.
  eexists _, _. split; [by vm_compute|].
  edestruct Hreport as [_ Htotal];
    [by apply (bool_decide_unpack _); vm_compute|by vm_compute|].
  rewrite Htotal; by vm_compute.
Defined.

Lemma filterRepositories_whitelist_set_witness :
  filterRepositories (sampleScanner [10; 20; 10]) sampleRepositories =
  filterRepositories (sampleScanner [20; 10]) sampleRepositories.
Proof.
  apply filterRepositories_whitelist_set. intros groupID. simpl.
  rewrite !elem_of_cons, !elem_of_nil. tauto.
Defined.

Lemma GetRepositoryCount_agrees_witness :
  GetRepositoryCount 1 (sampleScanner [10]) 0%nat = Some (inr 2, 1%nat).
Proof.
  destruct (GetRepositoryCount_agrees 1 (sampleScanner [10]) 0%nat
              (inr sampleRepositories) 1%nat) as [Hcount _].
  - by vm_compute.
  - rewrite Hcount. by vm_compute.
Defined.

Lemma ScanRepositories_statuses_witness :
  ∃ out w',
    ScanRepositories 1 (sampleScanner []) 0%nat = Some (inr out, w') ∧
    Forall (λ repo, scannerStatus (repo_Status repo) ∧
                    repo_Status repo ≠ StatusAccessible) out.
Proof.
  pose proof (ScanRepositories_statuses 1 (sampleScanner []) 0%nat) as Hstatuses.
  eexists _, _. split; [by vm_compute|].
  eapply Hstatuses. by vm_compute.
Defined.

Lemma ListRepositories_requests_witness :
  gitlab.ListRepositories 1 sampleClient 0%nat = Some (inr sampleRepositories, 1%nat).
Proof.
  rewrite (ListRepositories_requests sampleClient [sampleRepositories] 1 0%nat).
  - by vm_compute.
  - intros [|k] page w Hpage; simpl in Hpage; [|by destruct k].
    injection Hpage as <-. reflexivity.
  - exists [], sampleRepositories. split; [reflexivity|]. split; [constructor|].
    by vm_compute.
  - by vm_compute.
  - simpl. lia.
Defined.

Lemma ListRepositories_all_or_nothing_witness :
  gitlab.ListRepositories 2 flakyClient 0%nat =
    Some (inl "failed to list repositories (page 2): rate limit exceeded", 2%nat).
Proof.
  destruct (ListRepositories_all_or_nothing flakyClient
              [replicate 100 (sampleRepository 1 10)] 2 0%nat) as [Hfail _].
  - intros [|k] page w Hpage; simpl in Hpage; [|by destruct k].
    injection Hpage as <-. reflexivity.
  - repeat constructor. by vm_compute.
  - by vm_compute.
  - simpl. lia.
  - rewrite (Hfail "rate limit exceeded"); [by vm_compute|]. intros w0. reflexivity.
Defined.

Lemma ListMergeRequests_complete_witness :
  ∃ w1, gitlab.ListMergeRequests 1 sampleClient 2 "release" "master" 0%nat =
        Some (inr sampleMRs, w1).
Proof.
  apply (ListMergeRequests_complete sampleClient 2 "release" "master" [] sampleMRs 1 0%nat).
  - intros [|k] page w Hpage; simpl in Hpage; [|by destruct k].
    injection Hpage as <-. reflexivity.
  - constructor.
  - by vm_compute.
  - by vm_compute.
  - simpl. lia.
Defined.

End samples_more.

Section samples_around.
Import scanner analyzer.

Lemma analyzer_narrows_scanner_witness :
  ∃ scanned analyzed w2 wa2,
    processRepository 1 (sampleScanner []) (sampleRepository 2 20) 0%nat
      = Some (scanned, w2) ∧
    analyzeOne 1 sampleClient scanned 1%nat = Some (analyzed, wa2) ∧
    (repo_Status analyzed = StatusConflicts → repo_Status scanned = StatusConflicts).
Proof.
  eexists _, _, _, _. split; [by vm_compute|]. split; [by vm_compute|].
  eapply proj1,
    (analyzer_narrows_scanner 1 (sampleScanner []) sampleClient (sampleRepository 2 20)
       sampleMRs 0%nat 1%nat _ _ 1%nat 2%nat _ _); by vm_compute.
Defined.

Lemma NewClient_base_URL_witness :
  Forall (λ tail, net.NewClient ("https://gitlab.example.com" +:+ tail) "secret"
                  = sampleNetClient)
    [""; "/"; "/api/v4"; "/api/v4/"].
Proof.
  apply (NewClient_base_URL "https://gitlab.example.com" "secret"); by vm_compute.
Defined.

Lemma makeRequest_response_witness :
  net.makeRequest (sampleTransport 401) sampleNetClient "GET" "/api/v4/user" 0%nat
    ≠ (inr (net.mkResponse 401 "[]"), 2%nat).
Proof.
  intros Hreq.
  apply (makeRequest_response (sampleTransport 401) sampleNetClient "GET" "/api/v4/user"
           0%nat) in Hreq as (w1 & _ & _ & _ & Hstatus).
  simpl in Hstatus. lia.
Defined.

Lemma ScanRepositories_unauthorized_witness :
  ScanRepositories 1 (NewRepositoryScanner (net.requests (sampleTransport 401)
                                              sampleNetClient) [10]) 0%nat
  = Some (inl ("failed to retrieve repositories: failed to list repositories (page 1): "
               +:+ "authentication failed: invalid token"), 2%nat).
Proof.
  apply (ScanRepositories_unauthorized (sampleTransport 401) sampleNetClient [10] 0 0%nat
           1%nat (net.mkResponse 401 "[]") 2%nat); by vm_compute.
Defined.


Lemma ListRepositories_against_mock_witness :
  ∃ w1, gitlab.ListRepositories 1 mockClient 0%nat = Some (inr sampleRepositories, w1).
Proof.
  destruct (ListRepositories_against_mock sampleAtoi (λ _, None) ltac:(by vm_compute)
              mockClient sampleMock id 1 0%nat) as [w1 Hw1].
  - intros z Hz.
    assert (Forall (λ z, sampleAtoi (pretty z) = Some z) (seqZ 1 103)) as Hall
      by (apply (bool_decide_unpack _); by vm_compute).
    rewrite Forall_forall in Hall. apply Hall, elem_of_seqZ.
    simpl in Hz. unfold len in Hz. simpl in Hz. lia.
  - reflexivity.
  - by vm_compute.
  - intros page w0 pageRepos _ Hanswer. cbn [gitlab.getProjectsPage mockClient fst].
    rewrite Hanswer. by rewrite list_fmap_id.
  - simpl. lia.
  - exists w1. rewrite Hw1. by rewrite list_fmap_id.
Defined.

Lemma validators_accept_filterAndSort_witness :
  testing.ValidateMergeRequestFiltering unitTestMRs
    [conflictingMR 5 3600; conflictingMR 1 0] = true ∧
  testing.ValidateMergeRequestSorting [conflictingMR 5 3600; conflictingMR 1 0] = Some true.
Proof.
  apply (validators_accept_filterAndSort unitTestMRs); by vm_compute.
Defined.

Lemma ScanRepositories_passes_completeness_witness :
  ∃ out w2,
    ScanRepositories 1 (sampleScanner [10]) 0%nat = Some (inr out, w2) ∧
    testing.ValidateRepositoryCompleteness
      (filterRepositories (sampleScanner [10]) sampleRepositories) out = true.
Proof.
  pose proof (ScanRepositories_passes_completeness 1 (sampleScanner [10]) 0%nat
                sampleRepositories 1%nat) as Hcomplete.
  eexists _, _. split; [by vm_compute|].
  eapply Hcomplete; [by vm_compute|by vm_compute|].
  apply (bool_decide_unpack _). by vm_compute.
Defined.

Lemma LoadConfig_validated_witness :
  ∃ cfg w',
    config.LoadConfig sampleFileSystem sampleUnmarshal "config.yaml" 0%nat = (inr cfg, w') ∧
    config.Token cfg ≠ "".
Proof.
  destruct (LoadConfig_validated sampleFileSystem sampleUnmarshal "config.yaml" 0%nat)
    as [Hvalid _].
  eexists _, _. split; [by vm_compute|].
  edestruct Hvalid as [Htoken _]; [by vm_compute|exact Htoken].
Defined.

Lemma handleFileConflict_first_free_witness :
  ∃ w', reporter.handleFileConflict sampleFileSystem samplePaths 2
          "out/MR-conflict-now.md" 0%nat
        = Some ("out/MR-conflict-now_2.md", w').
Proof.
  destruct (handleFileConflict_first_free sampleFileSystem samplePaths sampleFiles
              ltac:(by intros path w) "out/MR-conflict-now.md") as [Hfirst _].
  destruct (Hfirst 2%nat 2 0%nat) as [w' Hw'].
  - by vm_compute.
  - intros k Hk. assert (k = 1) as -> by lia. by vm_compute.
  - by vm_compute.
  - by vm_compute.
  - exists w'. exact Hw'.
Defined.

Lemma GenerateReport_keeps_files_witness :
  ∃ path report' w',
    reporter.GenerateReport sampleFileSystem samplePaths sampleFormat 2 sampleReport "out"
      0%nat = Some ((inr path, report'), w') ∧
    sampleFiles path ≠ os.Exists.
Proof.
  pose proof (GenerateReport_keeps_files sampleFileSystem samplePaths sampleFiles
                ltac:(by intros path w) sampleFormat 2 sampleReport "out" 0%nat) as Hkeeps.
  eexists _, _, _. split; [by vm_compute|].
  edestruct Hkeeps as [Hfree _]; [by vm_compute|exact Hfree].
Defined.

Lemma ValidateReportStructure_accepts_witness :
  ∃ content,
    reporter.generateMarkdownContent sampleFormat sampleReport = Some content ∧
    testing.ValidateReportStructure content (rr_Repository <$> Repositories sampleReport)
      (concat (rr_ConflictingMRs <$> Repositories sampleReport)) = true.
Proof.
  pose proof (ValidateReportStructure_accepts sampleFormat sampleReport) as Haccepts.
  eexists. split; [by vm_compute|].
  apply Haccepts; by vm_compute.
Defined.

End samples_around.
